(** * DictDB: a dict-like store over SQLite, and its command-queue executor

    A shallow embedding of [dictdb/StorageDict.py] ([SharedStorage]) and
    [dictdb/SqliteThreadWork.py] ([SqliteThreadWork]), with the part of
    Python's [json] module the entry codec goes through.

    Layout:
    - [Py]:    the Python values a caller can store, and Python's [==];
    - [Json]:  [json.dumps] with its default settings and [json.loads];
    - [Sqlite]: one connection in the legacy transaction mode of the
      [sqlite3] module, over the single table [tb_<storage>];
    - [StorageDict]: the methods of [SharedStorage];
    - [SqliteThreadWork]: the worker loop, [execute] and [close] as an
      interleaving transition system. *)

From Stdlib Require Import Bool Ascii String List ZArith Lia.
From Stdlib Require Import Decimal DecimalFacts DecimalPos DecimalZ DecimalString.
Import ListNotations.

#[local] Open Scope list_scope.
#[local] Open Scope string_scope.

(** The type expected of a list or of a pair is the type of its items:
    a text of the program inside one is read as the str it is. *)
#[local] Arguments cons {A} & _ _.
#[local] Arguments pair {A B} & _ _.

(* ================================================================== *)
(** * Python values *)

Module Py.

(** A [str] is the sequence of its code points.  A text of the program
    (a literal, a key of the table, a column of a row) has code points
    below 256 and is read as a [str] where Python has one. *)
Definition pystr : Type := list N.

Definition str_of_text (s : string) : pystr :=
  map N_of_ascii (list_ascii_of_string s).

Coercion str_of_text : string >-> pystr.

Fixpoint str_eqb (a b : pystr) : bool :=
  match a, b with
  | [], [] => true
  | x :: a', y :: b' => (x =? y)%N && str_eqb a' b'
  | _, _ => false
  end.

(** A [float] is an IEEE 754 binary64: a NaN, an infinity, or
    [(-1)^neg * m * 2^e] with [m] and [e] as [float_valid] bounds them
    (one pair for each number, zero being [0 * 2^-1074]). *)
Inductive float : Type :=
| FNaN
| FInf (neg : bool)
| FFin (neg : bool) (m e : Z).

Definition canonical (m e : Z) : bool :=
  (0 <=? m)%Z && (m <? 2 ^ 53)%Z && (-1074 <=? e)%Z && (e <=? 971)%Z
  && ((2 ^ 52 <=? m)%Z || (e =? -1074)%Z).

Definition float_valid (x : float) : bool :=
  match x with
  | FFin _ m e => canonical m e
  | _ => true
  end.


(** The same float (the same bits, but for the payload of a NaN). *)
Definition float_eqb (x y : float) : bool :=
  match x, y with
  | FNaN, FNaN => true
  | FInf a, FInf b => Bool.eqb a b
  | FFin a m e, FFin b m' e' =>
      Bool.eqb a b && (m =? m')%Z && (e =? e')%Z
  | _, _ => false
  end.

(** ** [float(text)]: the binary64 nearest to a decimal, ties to even *)

(** [2^L * Q <= P]. *)
Definition le_scaled (L P Q : Z) : bool :=
  if (0 <=? L)%Z then (Q * 2 ^ L <=? P)%Z else (Q <=? P * 2 ^ (- L))%Z.

(** The [L] with [2^L <= P/Q < 2^(L+1)], for positive [P] and [Q]. *)
Definition ratio_log2 (P Q : Z) : Z :=
  let L0 := (Z.log2 P - Z.log2 Q)%Z in
  if le_scaled L0 P Q then L0 else (L0 - 1)%Z.

(** The float nearest to [P/Q] (positive [P] and [Q]); a number beyond
    the largest float by half a unit in the last place or more gives an
    infinity. *)
Definition round_ratio (neg : bool) (P Q : Z) : float :=
  let L := ratio_log2 P Q in
  let e := Z.max (L - 52) (-1074) in
  let num := if (0 <=? e)%Z then P else (P * 2 ^ (- e))%Z in
  let den := if (0 <=? e)%Z then (Q * 2 ^ e)%Z else Q in
  let q := (num / den)%Z in
  let r := (num mod den)%Z in
  let m :=
    if (den <? 2 * r)%Z || ((2 * r =? den)%Z && Z.odd q)
    then (q + 1)%Z else q in
  let m' := if (m =? 2 ^ 53)%Z then (2 ^ 52)%Z else m in
  let e' := if (m =? 2 ^ 53)%Z then (e + 1)%Z else e in
  if (971 <? e')%Z then FInf neg else FFin neg m' e'.

(** The float of the decimal [D * 10^k], [D] not negative. *)
Definition float_of_decimal (neg : bool) (D k : Z) : float :=
  if (D =? 0)%Z then FFin neg 0 (-1074)
  else if (0 <=? k)%Z then round_ratio neg (D * 10 ^ k) 1
  else round_ratio neg D (10 ^ (- k)).

(** ** [float.__repr__]: the shortest decimal that reads back as the
       float, and of those the nearest to it *)

(** [10^E * Q <= P]. *)
Definition le_scaled10 (E P Q : Z) : bool :=
  if (0 <=? E)%Z then (Q * 10 ^ E <=? P)%Z else (Q <=? P * 10 ^ (- E))%Z.

Fixpoint ilog10_from (fuel : nat) (E P Q : Z) : Z :=
  match fuel with
  | O => E
  | S fuel' =>
      if le_scaled10 E P Q then E else ilog10_from fuel' (E - 1)%Z P Q
  end.

(** The [E] with [10^E <= P/Q < 10^(E+1)], for positive [P] and [Q]:
    looked for downwards from an estimate that is not below it, and above
    it by less than three. *)
Definition ilog10_ratio (P Q : Z) : Z :=
  ilog10_from 3 ((Z.log2 P - Z.log2 Q + 1) * 1233 / 4096 + 1)%Z P Q.

(** The decimal of [n] digits for [x = P/Q], when one of the two next to
    [x] reads back as [x]: digits and exponent. *)
Definition candidate (x : float) (P Q E n : Z) : option (Z * Z) :=
  let k := (E - n + 1)%Z in
  let num := if (0 <=? k)%Z then P else (P * 10 ^ (- k))%Z in
  let den := if (0 <=? k)%Z then (Q * 10 ^ k)%Z else Q in
  let lo := (num / den)%Z in
  let r := (num mod den)%Z in
  let hi := (lo + 1)%Z in
  let oklo := (0 <? lo)%Z && float_eqb (float_of_decimal false lo k) x in
  let okhi := float_eqb (float_of_decimal false hi k) x in
  if oklo && okhi then
    Some (if (2 * r <? den)%Z then lo
          else if (den <? 2 * r)%Z then hi
          else if Z.even lo then lo else hi, k)
  else if oklo then Some (lo, k)
  else if okhi then Some (hi, k)
  else None.

Fixpoint shortest_from (fuel : nat) (x : float) (P Q E n : Z)
  : option (Z * Z) :=
  match fuel with
  | O => None
  | S fuel' =>
      match candidate x P Q E n with
      | Some dk => Some dk
      | None => shortest_from fuel' x P Q E (n + 1)%Z
      end
  end.

Fixpoint strip_zeros (fuel : nat) (d k : Z) : Z * Z :=
  match fuel with
  | O => (d, k)
  | S fuel' =>
      if (0 <? d)%Z && (d mod 10 =? 0)%Z
      then strip_zeros fuel' (d / 10)%Z (k + 1)%Z
      else (d, k)
  end.

(** The digits and the exponent of [repr] for the positive float
    [m * 2^e]: at most 17 digits are tried, which is as many as any float
    needs. *)
Definition shortest (m e : Z) : option (Z * Z) :=
  let P := if (0 <=? e)%Z then (m * 2 ^ e)%Z else m in
  let Q := if (0 <=? e)%Z then 1%Z else (2 ^ (- e))%Z in
  match shortest_from 17 (FFin false m e) P Q (ilog10_ratio P Q) 1 with
  | Some (d, k) => Some (strip_zeros 17 d k)
  | None => None
  end.

(** The decimal that is [m * 2^e] exactly. *)
Definition exact_decimal (m e : Z) : Z * Z :=
  if (0 <=? e)%Z then ((m * 2 ^ e)%Z, 0%Z) else ((m * 5 ^ (- e))%Z, e).

(** The values of the model: [None], [bool], [int], [float], [str],
    [list], [tuple] and [dict] with [str] keys (in insertion order).  An
    [int] is any integer.  Bytes, sets, user objects and dicts with keys
    that are not [str] are outside the model, and so are the limits of
    the interpreter (recursion depth, digits of an [int] in a
    conversion). *)
#[warnings="-register-all"]
Inductive pyvalue : Type :=
| PyNone
| PyBool (b : bool)
| PyInt (z : Z)
| PyFloat (x : float)
| PyStr (s : pystr)
| PyList (l : list pyvalue)
| PyTuple (l : list pyvalue)
| PyDict (d : list (pystr * pyvalue)).

(** [d.get(k)]: the value under [k], [None] when [k] is not a key. *)
Fixpoint dict_get (d : list (pystr * pyvalue)) (k : pystr) : pyvalue :=
  match d with
  | [] => PyNone
  | (k', v) :: d' => if str_eqb k' k then v else dict_get d' k
  end.

Fixpoint dict_lookup (d : list (pystr * pyvalue)) (k : pystr)
  : option pyvalue :=
  match d with
  | [] => None
  | (k', v) :: d' => if str_eqb k' k then Some v else dict_lookup d' k
  end.

(** [d[k] = v]: an existing key keeps its position. *)
Fixpoint dict_set (d : list (pystr * pyvalue)) (k : pystr) (v : pyvalue)
  : list (pystr * pyvalue) :=
  match d with
  | [] => [(k, v)]
  | (k', v') :: d' =>
      if str_eqb k' k then (k', v) :: d' else (k', v') :: dict_set d' k v
  end.

(** [dict(pairs)]. *)
Definition dict_of_pairs (pairs : list (pystr * pyvalue))
  : list (pystr * pyvalue) :=
  fold_left (fun d kv => dict_set d (fst kv) (snd kv)) pairs [].

Definition int_of_bool (b : bool) : Z := if b then 1%Z else 0%Z.

(** [x == y] on floats: by the number; a NaN equals nothing. *)
Definition float_eq (x y : float) : bool :=
  match x, y with
  | FInf a, FInf b => Bool.eqb a b
  | FFin a m e, FFin b m' e' =>
      ((m =? 0)%Z && (m' =? 0)%Z)
      || (Bool.eqb a b
          && if (e <=? e')%Z then (m =? m' * 2 ^ (e' - e))%Z
             else (m * 2 ^ (e - e') =? m')%Z)
  | _, _ => false
  end.

(** [z == x] for an int and a float: by the number, exactly. *)
Definition int_eq_float (z : Z) (x : float) : bool :=
  match x with
  | FFin neg m e =>
      let s := if neg then (- m)%Z else m in
      if (0 <=? e)%Z then (z =? s * 2 ^ e)%Z else (z * 2 ^ (- e) =? s)%Z
  | _ => false
  end.

(** Python's [a == b] on these values: [bool] is a subtype of [int],
    numbers compare by value, a list never equals a tuple, dicts compare
    without regard to order. *)
Fixpoint py_eq (a b : pyvalue) {struct a} : bool :=
  match a, b with
  | PyNone, PyNone => true
  | PyBool x, PyBool y => Bool.eqb x y
  | PyBool x, PyInt y => (int_of_bool x =? y)%Z
  | PyInt x, PyBool y => (x =? int_of_bool y)%Z
  | PyInt x, PyInt y => (x =? y)%Z
  | PyBool x, PyFloat y => int_eq_float (int_of_bool x) y
  | PyInt x, PyFloat y => int_eq_float x y
  | PyFloat x, PyBool y => int_eq_float (int_of_bool y) x
  | PyFloat x, PyInt y => int_eq_float y x
  | PyFloat x, PyFloat y => float_eq x y
  | PyStr x, PyStr y => str_eqb x y
  | PyList la, PyList lb =>
      (fix go (la lb : list pyvalue) {struct la} : bool :=
         match la, lb with
         | [], [] => true
         | x :: la', y :: lb' => py_eq x y && go la' lb'
         | _, _ => false
         end) la lb
  | PyTuple la, PyTuple lb =>
      (fix go (la lb : list pyvalue) {struct la} : bool :=
         match la, lb with
         | [], [] => true
         | x :: la', y :: lb' => py_eq x y && go la' lb'
         | _, _ => false
         end) la lb
  | PyDict da, PyDict db =>
      (List.length da =? List.length db)%nat &&
      (fix go (da : list (pystr * pyvalue)) {struct da} : bool :=
         match da with
         | [] => true
         | (k, v) :: da' =>
             match dict_lookup db k with
             | Some v' => py_eq v v' && go da'
             | None => false
             end
         end) da
  | _, _ => false
  end.

(** ** The values [json] gives back as they are *)

(** A code point of Unicode; the surrogates, which [json] writes and
    reads in pairs for the code points from 65536 on. *)
Definition is_code_point (c : N) : bool := (c <? 1114112)%N.
Definition is_high (c : N) : bool := ((55296 <=? c) && (c <=? 56319))%N.
Definition is_low (c : N) : bool := ((56320 <=? c) && (c <=? 57343))%N.

(** No high surrogate with a low one right after it: [json] would read
    the two back as one code point. *)
Fixpoint no_pair (s : pystr) : bool :=
  match s with
  | a :: t =>
      match t with
      | b :: _ => negb (is_high a && is_low b) && no_pair t
      | [] => true
      end
  | [] => true
  end.

(** What [json] makes of a str: such a pair becomes the code point it
    stands for in UTF-16. *)
Definition join (hi lo : N) : N :=
  (65536 + ((hi - 55296) * 1024 + (lo - 56320)))%N.

Fixpoint join_pairs (s : pystr) : pystr :=
  match s with
  | a :: t =>
      match t with
      | b :: t' =>
          if is_high a && is_low b then join a b :: join_pairs t'
          else a :: join_pairs t
      | [] => [a]
      end
  | [] => []
  end.

Definition str_native (s : pystr) : bool :=
  forallb is_code_point s && no_pair s.

Fixpoint distinct (ks : list pystr) : bool :=
  match ks with
  | [] => true
  | k :: ks' => negb (existsb (str_eqb k) ks') && distinct ks'
  end.

(** The values [json] maps to themselves: no tuple anywhere, no str with
    a pair of surrogates, and every dict has distinct keys (as every
    Python dict has). *)
Fixpoint json_native (v : pyvalue) : bool :=
  match v with
  | PyNone | PyBool _ | PyInt _ => true
  | PyFloat x => float_valid x
  | PyStr s => str_native s
  | PyList l => forallb json_native l
  | PyTuple _ => false
  | PyDict d =>
      distinct (map fst d) &&
      forallb (fun kv => str_native (fst kv) && json_native (snd kv)) d
  end.


(** Induction over values, with the hypothesis under [list] and [dict]. *)
Section pyvalue_induction.
Variable P : pyvalue -> Prop.
Hypothesis HNone : P PyNone.
Hypothesis HBool : forall b, P (PyBool b).
Hypothesis HInt : forall z, P (PyInt z).
Hypothesis HFloat : forall x, P (PyFloat x).
Hypothesis HStr : forall s, P (PyStr s).
Hypothesis HList : forall l, Forall P l -> P (PyList l).
Hypothesis HTuple : forall l, Forall P l -> P (PyTuple l).
Hypothesis HDict :
  forall d, Forall (fun kv => P (snd kv)) d -> P (PyDict d).

Fixpoint pyvalue_nested_ind (v : pyvalue) : P v :=
  match v with
  | PyNone => HNone
  | PyBool b => HBool b
  | PyInt z => HInt z
  | PyFloat x => HFloat x
  | PyStr s => HStr s
  | PyList l =>
      HList l
        ((fix go (l : list pyvalue) : Forall P l :=
            match l with
            | [] => Forall_nil _
            | x :: l' => Forall_cons x (pyvalue_nested_ind x) (go l')
            end) l)
  | PyTuple l =>
      HTuple l
        ((fix go (l : list pyvalue) : Forall P l :=
            match l with
            | [] => Forall_nil _
            | x :: l' => Forall_cons x (pyvalue_nested_ind x) (go l')
            end) l)
  | PyDict d =>
      HDict d
        ((fix go (d : list (pystr * pyvalue))
            : Forall (fun kv => P (snd kv)) d :=
            match d with
            | [] => Forall_nil _
            | kv :: d' =>
                Forall_cons kv
                  (match kv as p return P (snd p) with
                   | (_, v) => pyvalue_nested_ind v
                   end) (go d')
            end) d)
  end.
End pyvalue_induction.

End Py.
Import Py.

(* ================================================================== *)
(** * The [json] module *)

Module Json.

Definition dquote : ascii := "034"%char.
Definition backslash : ascii := "092"%char.

(** ** [json.dumps] (default arguments: [ensure_ascii=True],
       [allow_nan=True], separators [", "] and [": "]) *)

Definition hex_digit (n : N) : ascii :=
  match n with
  | 0%N => "0" | 1%N => "1" | 2%N => "2" | 3%N => "3" | 4%N => "4"
  | 5%N => "5" | 6%N => "6" | 7%N => "7" | 8%N => "8" | 9%N => "9"
  | 10%N => "a" | 11%N => "b" | 12%N => "c" | 13%N => "d" | 14%N => "e"
  | _ => "f"
  end%char.

(** [\uxxxx], the four hex digits in lower case. *)
Definition escape_u (n : N) : string :=
  String backslash
    (String "u"
       (String (hex_digit (n / 4096))
          (String (hex_digit ((n / 256) mod 16))
             (String (hex_digit ((n / 16) mod 16))
                (String (hex_digit (n mod 16)) ""))))).

(** One code point of a str, as [ESCAPE_ASCII] writes it: the short
    escapes, the printable ASCII characters as they are, the rest of the
    first 65536 as [\uxxxx], and a code point beyond them as the two
    surrogates of its UTF-16 form. *)
Definition escape_char (c : N) : string :=
  if (c =? 34)%N then String backslash (String dquote "")
  else if (c =? 92)%N then String backslash (String backslash "")
  else if (c =? 10)%N then String backslash "n"
  else if (c =? 13)%N then String backslash "r"
  else if (c =? 9)%N then String backslash "t"
  else if (c =? 8)%N then String backslash "b"
  else if (c =? 12)%N then String backslash "f"
  else if ((32 <=? c) && (c <=? 126))%N then String (ascii_of_N c) ""
  else if (c <? 65536)%N then escape_u c
  else
    let v := (c - 65536)%N in
    escape_u (55296 + (v / 1024) mod 1024) ++ escape_u (56320 + v mod 1024).

Fixpoint escape (s : pystr) : string :=
  match s with
  | [] => ""
  | c :: s' => escape_char c ++ escape s'
  end.

Definition encode_str (s : pystr) : string :=
  String dquote (escape s ++ String dquote "").

(** [int.__repr__]: decimal, with a leading [-] for negatives. *)
Definition encode_int (z : Z) : string :=
  NilZero.string_of_int (Z.to_int z).

(** ** [json.loads]: numbers *)

Definition is_digit (c : ascii) : bool :=
  let n := N_of_ascii c in ((48 <=? n) && (n <=? 57))%N.

Fixpoint span_digits (s : string) : string * string :=
  match s with
  | String c r =>
      if is_digit c
      then let (ds, rest) := span_digits r in (String c ds, rest)
      else ("", s)
  | EmptyString => ("", "")
  end.

(** The integer part of [NUMBER_RE]: [0] alone, or a non-zero digit and
    the digits after it. *)
Definition scan_uint (s : string) : option (uint * string) :=
  match s with
  | EmptyString => None
  | String c r =>
      if (c =? "0")%char then Some (D0 Nil, r)
      else if is_digit c then
        let (ds, rest) := span_digits s in
        match NilEmpty.uint_of_string ds with
        | Some u => Some (u, rest)
        | None => None
        end
      else None
  end.

(** [[0-9]+]: one digit or more. *)
Definition scan_digits (s : string) : option (uint * string) :=
  match span_digits s with
  | (EmptyString, _) => None
  | (ds, rest) =>
      match NilEmpty.uint_of_string ds with
      | Some u => Some (u, rest)
      | None => None
      end
  end.

(** The fraction of [NUMBER_RE], [\.[0-9]+]: its digits. *)
Definition scan_frac (s : string) : option (uint * string) :=
  match s with
  | String c r => if (c =? ".")%char then scan_digits r else None
  | EmptyString => None
  end.

(** The exponent of [NUMBER_RE], [[eE][-+]?[0-9]+]: its value. *)
Definition scan_exp (s : string) : option (Z * string) :=
  match s with
  | String c r =>
      if ((c =? "e") || (c =? "E"))%char then
        match r with
        | String sg r1 =>
            if (sg =? "-")%char then
              match scan_digits r1 with
              | Some (u, rest) => Some ((- Z.of_uint u)%Z, rest)
              | None => None
              end
            else if (sg =? "+")%char then
              match scan_digits r1 with
              | Some (u, rest) => Some (Z.of_uint u, rest)
              | None => None
              end
            else
              match scan_digits r with
              | Some (u, rest) => Some (Z.of_uint u, rest)
              | None => None
              end
        | EmptyString => None
        end
      else None
  | EmptyString => None
  end.

(** A number literal, as [NUMBER_RE] matches it: an [int] when it has
    neither fraction nor exponent, and otherwise the [float] of its text,
    which is the decimal [digits * 10^(exponent - digits of the
    fraction)]. *)
Definition scan_number (s : string) : option (pyvalue * string) :=
  let neg :=
    match s with
    | String c _ => (c =? "-")%char
    | EmptyString => false
    end in
  let s1 :=
    match s with
    | String c r => if (c =? "-")%char then r else s
    | EmptyString => s
    end in
  match scan_uint s1 with
  | None => None
  | Some (u, r1) =>
      match scan_frac r1 with
      | Some (fu, r2) =>
          let D := Z.of_uint (Decimal.app u fu) in
          let n := Z.of_nat (Decimal.nb_digits fu) in
          match scan_exp r2 with
          | Some (ex, r3) =>
              Some (PyFloat (float_of_decimal neg D (ex - n)), r3)
          | None => Some (PyFloat (float_of_decimal neg D (- n)), r2)
          end
      | None =>
          match scan_exp r1 with
          | Some (ex, r3) =>
              Some (PyFloat (float_of_decimal neg (Z.of_uint u) ex), r3)
          | None =>
              Some (PyInt (if neg then (- Z.of_uint u)%Z else Z.of_uint u),
                    r1)
          end
      end
  end.

(** ** [float.__repr__] and [floatstr] *)

Fixpoint zeros (n : nat) : string :=
  match n with
  | O => ""
  | S n' => String "0" (zeros n')
  end.

Fixpoint take (n : nat) (s : string) : string :=
  match n, s with
  | S n', String c r => String c (take n' r)
  | _, _ => ""
  end.

Fixpoint drop (n : nat) (s : string) : string :=
  match n, s with
  | S n', String _ r => drop n' r
  | _, _ => s
  end.

(** The exponent of the [e] notation: a sign and two digits at least. *)
Definition format_exponent (ex : Z) : string :=
  (if (ex <? 0)%Z then "-" else "+")
  ++ (if (Z.abs ex <? 10)%Z then "0" else "")
  ++ encode_int (Z.abs ex).

(** [format_float_short] for [repr]: the digits [d] (no zero at the end)
    with the decimal exponent [k], written with a decimal point where the
    point falls in [-4 < decpt <= 16], and in [e] notation otherwise. *)
Definition format_float_short (d k : Z) : string :=
  let ds := encode_int d in
  let n := Z.of_nat (String.length ds) in
  let decpt := (n + k)%Z in
  if (-4 <? decpt)%Z && (decpt <=? 16)%Z then
    if (decpt <=? 0)%Z then "0." ++ zeros (Z.to_nat (- decpt)) ++ ds
    else if (n <=? decpt)%Z then ds ++ zeros (Z.to_nat (decpt - n)) ++ ".0"
    else take (Z.to_nat decpt) ds ++ "." ++ drop (Z.to_nat decpt) ds
  else
    take 1 ds ++ (if (1 <? n)%Z then "." ++ drop 1 ds else "")
    ++ "e" ++ format_exponent (decpt - 1).

(** The text is a float literal, and the literal of [x]. *)
Definition reads_as (x : float) (t : string) : bool :=
  match scan_number t with
  | Some (PyFloat y, EmptyString) => float_eqb y x
  | _ => false
  end.

(** [float.__repr__] of a finite float: the shortest decimal that reads
    back as the float.  The search of [shortest] ends with such a decimal
    for every float; were there none, the float would be written in full,
    as [digits e exponent]. *)
Definition float_repr (neg : bool) (m e : Z) : string :=
  let sign := if neg then "-" else "" in
  if (m =? 0)%Z then sign ++ "0.0"
  else
    let t :=
      match shortest m e with
      | Some (d, k) => sign ++ format_float_short d k
      | None => ""
      end in
    if reads_as (FFin neg m e) t then t
    else
      sign ++ encode_int (fst (exact_decimal m e))
           ++ "e" ++ encode_int (snd (exact_decimal m e)).

(** [floatstr] of the encoder, with [allow_nan]. *)
Definition floatstr (x : float) : string :=
  match x with
  | FNaN => "NaN"
  | FInf false => "Infinity"
  | FInf true => "-Infinity"
  | FFin neg m e => float_repr neg m e
  end.

Fixpoint dumps (v : pyvalue) : string :=
  match v with
  | PyNone => "null"
  | PyBool true => "true"
  | PyBool false => "false"
  | PyInt z => encode_int z
  | PyFloat x => floatstr x
  | PyStr s => encode_str s
  | PyList l => "[" ++ String.concat ", " (map dumps l) ++ "]"
  | PyTuple l => "[" ++ String.concat ", " (map dumps l) ++ "]"
  | PyDict d =>
      "{" ++ String.concat ", "
               (map (fun kv => match kv with
                               | (k, x) => encode_str k ++ ": " ++ dumps x
                               end) d)
          ++ "}"
  end.

(** ** [json.loads] *)

Definition is_ws (c : ascii) : bool :=
  ((c =? " ") || (c =? "009") || (c =? "010") || (c =? "013"))%char.

Fixpoint skip_ws (s : string) : string :=
  match s with
  | String c r => if is_ws c then skip_ws r else s
  | EmptyString => s
  end.

Definition hex_value (c : ascii) : option N :=
  let n := N_of_ascii c in
  if ((48 <=? n) && (n <=? 57))%N then Some (n - 48)%N
  else if ((97 <=? n) && (n <=? 102))%N then Some (n - 87)%N
  else if ((65 <=? n) && (n <=? 70))%N then Some (n - 55)%N
  else None.

(** The four hex digits of a [\u] escape. *)
Definition hex4_value (h1 h2 h3 h4 : ascii) : option N :=
  match hex_value h1, hex_value h2, hex_value h3, hex_value h4 with
  | Some a, Some b, Some c, Some d =>
      Some (((a * 16 + b) * 16 + c) * 16 + d)%N
  | _, _, _, _ => None
  end.

(** The [BACKSLASH] table of [json.decoder]. *)
Definition unescape (e : ascii) : option ascii :=
  if (e =? dquote)%char then Some dquote
  else if (e =? backslash)%char then Some backslash
  else if (e =? "/")%char then Some "/"%char
  else if (e =? "b")%char then Some "008"%char
  else if (e =? "f")%char then Some "012"%char
  else if (e =? "n")%char then Some "010"%char
  else if (e =? "r")%char then Some "013"%char
  else if (e =? "t")%char then Some "009"%char
  else None.

Definition prepend (c : N) (o : option (pystr * string))
  : option (pystr * string) :=
  match o with
  | Some (str, rest) => Some (c :: str, rest)
  | None => None
  end.

(** [scanstring] in strict mode, from just after the opening quote: the
    decoded str and the text after the closing quote.  A [\u] escape of a
    high surrogate with the [\u] escape of a low one right after it is the
    one code point of the pair. *)
Fixpoint scanstring (s : string) : option (pystr * string) :=
  match s with
  | EmptyString => None
  | String c r =>
      if (c =? dquote)%char then Some ([], r)
      else if (c =? backslash)%char then
        match r with
        | EmptyString => None
        | String e r1 =>
            if (e =? "u")%char then
              match r1 with
              | String h1 (String h2 (String h3 (String h4 r2))) =>
                  match hex4_value h1 h2 h3 h4 with
                  | Some uni =>
                      match r2 with
                      | String b (String u (String g1 (String g2
                          (String g3 (String g4 r3))))) =>
                          if is_high uni && (b =? backslash)%char
                             && (u =? "u")%char
                          then
                            match hex4_value g1 g2 g3 g4 with
                            | Some uni2 =>
                                if is_low uni2
                                then prepend (join uni uni2) (scanstring r3)
                                else prepend uni (scanstring r2)
                            | None => None
                            end
                          else prepend uni (scanstring r2)
                      | _ => prepend uni (scanstring r2)
                      end
                  | None => None
                  end
              | _ => None
              end
            else
              match unescape e with
              | Some ch => prepend (N_of_ascii ch) (scanstring r1)
              | None => None
              end
        end
      else if (N_of_ascii c <? 32)%N then None
      else prepend (N_of_ascii c) (scanstring r)
  end.

Fixpoint strip_prefix (p s : string) : option string :=
  match p with
  | EmptyString => Some s
  | String a p' =>
      match s with
      | EmptyString => None
      | String b s' => if (a =? b)%char then strip_prefix p' s' else None
      end
  end.

(** The constants [scan_once] tries when no number matches. *)
Definition scan_constant (s : string) : option (pyvalue * string) :=
  match strip_prefix "NaN" s with
  | Some rest => Some (PyFloat FNaN, rest)
  | None =>
  match strip_prefix "Infinity" s with
  | Some rest => Some (PyFloat (FInf false), rest)
  | None =>
  match strip_prefix "-Infinity" s with
  | Some rest => Some (PyFloat (FInf true), rest)
  | None => None
  end end end.

(** [scan_once], [JSONArray] and [JSONObject] of [json.decoder].  The
    recursion of the decoder follows the nesting of the text; [fuel] bounds
    it, and [loads] gives the length of the text. *)
Fixpoint scan_once (fuel : nat) (s : string) {struct fuel}
  : option (pyvalue * string) :=
  match fuel with
  | O => None
  | S fuel' =>
      match s with
      | EmptyString => None
      | String c r =>
          if (c =? dquote)%char then
            match scanstring r with
            | Some (str, rest) => Some (PyStr str, rest)
            | None => None
            end
          else if (c =? "{")%char then
            match skip_ws r with
            | EmptyString => None
            | String c1 r1 =>
                if (c1 =? "}")%char then Some (PyDict [], r1)
                else
                  match JSONObject_pairs fuel' (String c1 r1) with
                  | Some (pairs, rest) =>
                      Some (PyDict (dict_of_pairs pairs), rest)
                  | None => None
                  end
            end
          else if (c =? "[")%char then
            match skip_ws r with
            | EmptyString => None
            | String c1 r1 =>
                if (c1 =? "]")%char then Some (PyList [], r1)
                else
                  match JSONArray_values fuel' (String c1 r1) with
                  | Some (l, rest) => Some (PyList l, rest)
                  | None => None
                  end
            end
          else
            match strip_prefix "null" s with
            | Some rest => Some (PyNone, rest)
            | None =>
            match strip_prefix "true" s with
            | Some rest => Some (PyBool true, rest)
            | None =>
            match strip_prefix "false" s with
            | Some rest => Some (PyBool false, rest)
            | None =>
            match scan_number s with
            | Some vr => Some vr
            | None => scan_constant s
            end end end end
      end
  end

with JSONArray_values (fuel : nat) (s : string) {struct fuel}
  : option (list pyvalue * string) :=
  match fuel with
  | O => None
  | S fuel' =>
      match scan_once fuel' s with
      | None => None
      | Some (v, r) =>
          match skip_ws r with
          | EmptyString => None
          | String c r1 =>
              if (c =? "]")%char then Some ([v], r1)
              else if (c =? ",")%char then
                match JSONArray_values fuel' (skip_ws r1) with
                | Some (l, rest) => Some (v :: l, rest)
                | None => None
                end
              else None
          end
      end
  end

with JSONObject_pairs (fuel : nat) (s : string) {struct fuel}
  : option (list (pystr * pyvalue) * string) :=
  match fuel with
  | O => None
  | S fuel' =>
      match s with
      | EmptyString => None
      | String q r =>
          if (q =? dquote)%char then
            match scanstring r with
            | None => None
            | Some (key, r1) =>
                match skip_ws r1 with
                | EmptyString => None
                | String c1 r2 =>
                    if (c1 =? ":")%char then
                      match scan_once fuel' (skip_ws r2) with
                      | None => None
                      | Some (v, r3) =>
                          match skip_ws r3 with
                          | EmptyString => None
                          | String c2 r4 =>
                              if (c2 =? "}")%char then Some ([(key, v)], r4)
                              else if (c2 =? ",")%char then
                                match JSONObject_pairs fuel' (skip_ws r4) with
                                | Some (ps, rest) =>
                                    Some ((key, v) :: ps, rest)
                                | None => None
                                end
                              else None
                          end
                      end
                    else None
                end
            end
          else None
      end
  end.

(** [json.loads(s)]: one value, with white space around it and nothing
    else; [None] stands for [JSONDecodeError]. *)
Definition loads (s : string) : option pyvalue :=
  match scan_once (String.length s) (skip_ws s) with
  | Some (v, rest) =>
      match skip_ws rest with
      | EmptyString => Some v
      | String _ _ => None
      end
  | None => None
  end.

(** ** What the facts below are stated with *)

Definition no_digit_head (s : string) : bool :=
  match s with
  | EmptyString => true
  | String c _ => negb (is_digit c)
  end.

(** A text that does not go on the number before it: it starts with no
    digit, point, exponent mark or sign. *)
Definition ends_number (s : string) : bool :=
  match s with
  | EmptyString => true
  | String c _ =>
      negb (is_digit c || (c =? ".") || (c =? "e") || (c =? "E")
            || (c =? "+") || (c =? "-"))%char
  end.

(** The decoder's recursion on the text of a value. *)
Fixpoint cost (v : pyvalue) : nat :=
  match v with
  | PyList l => S (list_sum (map (fun x => S (cost x)) l))
  | PyTuple l => S (list_sum (map (fun x => S (cost x)) l))
  | PyDict d => S (list_sum (map (fun kv => S (cost (snd kv))) d))
  | _ => 1
  end.

(** The first character of the text of a number. *)
Definition number_head (c : ascii) : bool :=
  is_digit c || (c =? "-")%char.

(** A text that starts as a value does: no white space, no closing
    bracket. *)
Definition starts_value (s : string) : bool :=
  match s with
  | EmptyString => false
  | String c _ =>
      negb (is_ws c) && negb (c =? "]")%char && negb (c =? "}")%char
  end.

(** One item of a dict, as [dumps] writes it. *)
Definition encode_pair (kv : pystr * pyvalue) : string :=
  match kv with (k, x) => encode_str k ++ ": " ++ dumps x end.

(** What the induction carries for one value: decoding the text [dumps]
    wrote for it, with anything after it that does not go on a number,
    gives the value back and stops right after it. *)
Definition reads_back (v : pyvalue) : Prop :=
  json_native v = true ->
  forall fuel rest,
    cost v <= fuel -> ends_number rest = true ->
    scan_once fuel (dumps v ++ rest) = Some (v, rest).

(** The code points [ESCAPE_ASCII] writes without a [\u]. *)
Definition is_plain (c : N) : bool :=
  ((c =? 34) || (c =? 92) || (c =? 10) || (c =? 13) || (c =? 9)
   || (c =? 8) || (c =? 12) || ((32 <=? c) && (c <=? 126)))%N.

(** The rest of a text after what was read of it, with [rest] after it. *)
Definition and_rest {A} (rest : string) (o : option (A * string))
  : option (A * string) :=
  match o with
  | Some (x, r) => Some (x, r ++ rest)
  | None => None
  end.

(** A number is no str and no dict. *)
Definition is_number (v : pyvalue) : Prop :=
  (exists z, v = PyInt z) \/ (exists x, v = PyFloat x).

(** [x] is the value itself, or a value of the dict it is. *)
Definition str_inside (v : pyvalue) (x : pystr) : Prop :=
  v = PyStr x \/ exists d k, v = PyDict d /\ In (k, PyStr x) d.

End Json.

(* ================================================================== *)
(** * One [sqlite3] connection over the table [tb_<storage>] *)

Module Sqlite.

(** A row of [(key PRIMARY KEY, value TEXT, inserted INTEGER, updated
    INTEGER)].  Keys are modelled in their stored form, as text. *)
Record row : Type := mkRow {
  key : string;
  value : string;
  inserted : Z;
  updated : Z
}.

(** The table, in rowid order (the order of an unordered scan). *)
Definition table : Type := list row.

(** The committed table, and the working copy of the open transaction if
    there is one. *)
Record connection : Type := mkConn {
  committed : table;
  pending : option table
}.

Definition in_transaction (c : connection) : bool :=
  match pending c with Some _ => true | None => false end.

(** What a statement on this connection sees. *)
Definition view (c : connection) : table :=
  match pending c with Some t => t | None => committed c end.

Definition has_key (k : string) (r : row) : bool := (key r =? k)%string.


(** [BEGIN EXCLUSIVE;] *)
Definition begin_exclusive (c : connection) : connection :=
  mkConn (committed c) (Some (view c)).

(** [conn.commit()] and [conn.rollback()]. *)
Definition commit (c : connection) : connection := mkConn (view c) None.
Definition rollback (c : connection) : connection :=
  mkConn (committed c) None.

(** With [isolation_level='EXCLUSIVE'] the module opens a transaction
    before an INSERT, REPLACE, UPDATE or DELETE when none is open. *)
Definition implicit_begin (c : connection) : connection :=
  if in_transaction c then c else begin_exclusive c.

Definition write (t : table) (c : connection) : connection :=
  mkConn (committed c) (Some t).

(** [SELECT count(1) FROM tb;] *)
Definition select_count (c : connection) : nat := List.length (view c).

(** [SELECT ... FROM tb WHERE key = ?;] then [fetchone()]. *)
Definition select_where_key (k : string) (c : connection) : option row :=
  find (has_key k) (view c).

(** [INSERT OR REPLACE INTO tb (key, value, inserted, updated)
     VALUES (:key, :value,
             COALESCE((SELECT inserted FROM tb WHERE key = :key), :now),
             :now);]
    The new row is computed first; the row in conflict on the primary key
    is then deleted and the new one inserted under a fresh rowid. *)
Definition insert_or_replace (k v : string) (now : Z) (c : connection)
  : connection :=
  let c1 := implicit_begin c in
  let ins :=
    match select_where_key k c1 with
    | Some r => inserted r
    | None => now
    end in
  write (filter (fun r => negb (has_key k r)) (view c1)
           ++ [mkRow k v ins now])%list c1.

(** [DELETE FROM tb WHERE key = ?;] with the cursor's [rowcount]. *)
Definition delete_where_key (k : string) (c : connection)
  : nat * connection :=
  let c1 := implicit_begin c in
  (List.length (filter (has_key k) (view c1)),
   write (filter (fun r => negb (has_key k r)) (view c1)) c1).

End Sqlite.

(* ================================================================== *)
(** * [SharedStorage] *)

Module StorageDict.
Import Sqlite.

Inductive exn : Type :=
| KeyError
| NameError
| WBStorageReadOnlyException
| OperationalError
| JSONDecodeError
| AttributeError.

Inductive result (A : Type) : Type :=
| Ok (a : A)
| Raise (e : exn).
Arguments Ok {A} a.
Arguments Raise {A} e.

(** The fields of a [SharedStorage] object that its methods read or write
    after [__init__], on an open connection. *)
Record storage : Type := mkStorage {
  conn : connection;
  read_only : bool;
  active_context : bool
}.

Definition with_conn (c : connection) (s : storage) : storage :=
  mkStorage c (read_only s) (active_context s).

(** Methods are state transformers that return or raise. *)
Definition M (A : Type) : Type := storage -> result A * storage.

Definition ret {A} (a : A) : M A := fun s => (Ok a, s).
Definition raise {A} (e : exn) : M A := fun s => (Raise e, s).
Definition bind {A B} (m : M A) (f : A -> M B) : M B :=
  fun s =>
    match m s with
    | (Ok a, s') => f a s'
    | (Raise e, s') => (Raise e, s')
    end.

Notation "x <- m ;; k" := (bind m (fun x => k))
  (at level 61, m at next level, right associativity).
Notation "m ;;; k" := (bind m (fun _ => k))
  (at level 61, right associativity).

(** [try: body  except KeyError: handler]. *)
Definition try_except_KeyError {A} (body handler : M A) : M A :=
  fun s =>
    match body s with
    | (Raise KeyError, s') => handler s'
    | r => r
    end.

Definition get_conn : M connection := fun s => (Ok (conn s), s).
Definition put_conn (c : connection) : M unit :=
  fun s => (Ok tt, with_conn c s).

(** The names bound at module level in [StorageDict.py]. *)
Definition module_globals : list string :=
  ["os"; "time"; "json"; "sqlite3"; "threading"; "settings"; "Path";
   "ABC"; "abstractmethod"; "WBStorageException";
   "WBStorageReadOnlyException"; "WBSharedStorageConnectionException";
   "SharedStorage"].

(** Reading a name that is neither a local nor a parameter: its truth
    value when the module binds it (modules, classes and functions are all
    true), [NameError] otherwise. *)
Definition load_global (name : string) : M bool :=
  if existsb (String.eqb name) module_globals then ret true
  else raise NameError.

(** [json.loads(text).get('data')]: only a dict has [get]. *)
Definition decode_data (text : string) : result pyvalue :=
  match Json.loads text with
  | None => Raise JSONDecodeError
  | Some (PyDict d) => Ok (dict_get d "data")
  | Some _ => Raise AttributeError
  end.

Definition decode (text : string) : M pyvalue :=
  fun s => (decode_data text, s).

(** [json.dumps({'data': value})]. *)
Definition encode (v : pyvalue) : string :=
  Json.dumps (PyDict [("data", v)]).

Definition _check_read_only : M unit :=
  fun s =>
    if read_only s then (Raise WBStorageReadOnlyException, s)
    else (Ok tt, s).

Definition begin : M unit :=
  fun s =>
    if active_context s then (Ok tt, s)
    else if negb (in_transaction (conn s))
         then (Ok tt, with_conn (begin_exclusive (conn s)) s)
         else (Ok tt, s).

Definition rollback : M unit :=
  fun s =>
    if active_context s then (Ok tt, s)
    else if in_transaction (conn s)
         then (Ok tt, with_conn (Sqlite.rollback (conn s)) s)
         else (Ok tt, s).

Definition commit : M unit :=
  fun s =>
    if active_context s then (Ok tt, s)
    else if in_transaction (conn s)
         then (Ok tt, with_conn (Sqlite.commit (conn s)) s)
         else (Ok tt, s).

Definition count : M nat :=
  c <- get_conn ;; ret (select_count c).

Definition keys : M (list string) :=
  c <- get_conn ;; ret (map key (view c)).

(** [values] hands out column [value] as it is stored. *)
Definition values : M (list pyvalue) :=
  c <- get_conn ;; ret (map (fun r => PyStr (value r)) (view c)).

Fixpoint items_of (rows : list row) : M (list (string * pyvalue)) :=
  match rows with
  | [] => ret []
  | r :: rows' =>
      v <- decode (value r) ;;
      rest <- items_of rows' ;;
      ret ((key r, v) :: rest)
  end.

Definition items : M (list (string * pyvalue)) :=
  c <- get_conn ;; items_of (view c).

(** [now] is the reading of [int(time.time())]. *)
Definition _set (now : Z) (k : string) (v : pyvalue) : M unit :=
  c <- get_conn ;;
  put_conn (insert_or_replace k (encode v) now c).

Definition set (now : Z) (k : string) (v : pyvalue) : M unit :=
  _check_read_only ;;;
  _set now k v ;;;
  commit.

(** The parameter [ignore_key_error] is never read: the test reads the
    name [ignore_error], and only when [rowcount] is zero ([and] does not
    evaluate its right operand otherwise). *)
Definition delete (k : string) (ignore_key_error : bool) : M unit :=
  _check_read_only ;;;
  c <- get_conn ;;
  let (rowcount, c') := delete_where_key k c in
  put_conn c' ;;;
  commit ;;;
  if (rowcount =? 0)%nat then
    ignore_error <- load_global "ignore_error" ;;
    if negb ignore_error then raise KeyError else ret tt
  else ret tt.

(** [default] is [PyNone] when the caller passes none. *)
Definition get (k : string) (default : pyvalue) : M pyvalue :=
  c <- get_conn ;;
  match select_where_key k c with
  | None =>
      match default with
      | PyNone => raise KeyError
      | _ => ret default
      end
  | Some r => decode (value r)
  end.

(** [clock i] is the reading of [int(time.time())] in the [i]-th turn of
    the loop. *)
Fixpoint update_from (i : nat) (clock : nat -> Z)
    (dic : list (string * pyvalue)) : M unit :=
  match dic with
  | [] => ret tt
  | (k, v) :: dic' => _set (clock i) k v ;;; update_from (S i) clock dic'
  end.

Definition update (clock : nat -> Z) (dic : list (string * pyvalue))
  : M unit :=
  _check_read_only ;;;
  update_from 0 clock dic ;;;
  commit.

Definition pop (k : string) (default : pyvalue) : M pyvalue :=
  _check_read_only ;;;
  try_except_KeyError
    (begin ;;;
     v <- get k PyNone ;;
     delete k true ;;;
     commit ;;;
     ret v)
    (rollback ;;;
     match default with
     | PyNone => raise KeyError
     | _ => ret default
     end).

Definition age (now : Z) (k : string) : M (Z * Z) :=
  c <- get_conn ;;
  match select_where_key k c with
  | None => raise KeyError
  | Some r => ret (now - inserted r, now - updated r)%Z
  end.

(** [TRUNCATE TABLE tb;] is not a statement of SQLite: preparing it fails
    with a syntax error ([sqlite3.OperationalError]), and nothing is
    executed. *)
Definition execute_truncate_table : M unit := raise OperationalError.

Definition clear : M unit :=
  _check_read_only ;;;
  execute_truncate_table.

Definition __enter__ : M unit :=
  begin ;;;
  fun s => (Ok tt, mkStorage (conn s) (read_only s) true).

(** ** Stores to evaluate the methods on *)

(** A fresh, writable namespace. *)
Definition fresh_store : storage := mkStorage (mkConn [] None) false false.

(** The same namespace opened read-only, with one entry in it. *)
Definition read_only_store : storage :=
  mkStorage (mkConn [mkRow "a" (encode (PyInt 1)) 5 5] None) true false.

(** A writable namespace with one entry. *)
Definition one_entry_store : storage :=
  mkStorage (mkConn [mkRow "a" (encode (PyInt 1)) 5 5] None) false false.

(** ** The rest of the class *)

(** [__getitem__], [__setitem__], [__len__]. *)
Definition __getitem__ (k : string) : M pyvalue := get k PyNone.
Definition __setitem__ (now : Z) (k : string) (v : pyvalue) : M unit :=
  set now k v.

(** The database file as [__init__] finds it: no file, a file without the
    table of the namespace, or the table. *)
Inductive database : Type :=
| NoFile
| NoTable
| HasTable (t : table).

(** [__init__] gives the object, or raises [WBStorageException], or
    lets the [OverflowError] of the sweep through (line 53 catches
    [sqlite3.OperationalError] only). *)
Inductive opened : Type :=
| Opened (s : storage)
| RaisedWBStorageException
| RaisedOverflowError.

(** What the [sqlite3] module binds as an SQLite INTEGER: a Python int of
    64 bits; the binding of any other int raises [OverflowError]. *)
Definition fits_int64 (z : Z) : bool :=
  (- 2 ^ 63 <=? z)%Z && (z <? 2 ^ 63)%Z.

(** [DELETE FROM tb WHERE updated + ? < ?;] with [(expires, now)]. *)
Definition delete_expired (expires now : Z) (c : connection) : connection :=
  let c1 := implicit_begin c in
  write (filter (fun r => negb (updated r + expires <? now)%Z) (view c1)) c1.

(** [_initialize], on a connection to a file that has the table ([Some])
    or not: [begin]; the look-up in [sqlite_master]; for a read-only
    object without the table, [rollback] and the exception; for a
    writable one, [CREATE TABLE IF NOT EXISTS] and, when [expires] is
    positive, the sweep, whose parameter [expires] must fit in 64 bits
    ([now] is a reading of the clock, which does); [commit]. *)
Definition _initialize (tb : option table) (ro : bool) (expires now : Z)
  : opened :=
  let c := begin_exclusive
             (mkConn (match tb with Some t => t | None => [] end) None) in
  match tb, ro with
  | None, true => RaisedWBStorageException
  | _, _ =>
      if negb ro && (0 <? expires)%Z && negb (fits_int64 expires)
      then RaisedOverflowError
      else
        let c1 :=
          if ro then c
          else if (0 <? expires)%Z then delete_expired expires now c
          else c in
        match commit (mkStorage c1 ro false) with
        | (_, s) => Opened s
        end
  end.

(** [__init__]: a read-only object needs the file to exist;
    [sqlite3.connect] creates it otherwise. *)
Definition __init__ (db : database) (ro : bool) (expires now : Z)
  : opened :=
  match db with
  | NoFile =>
      if ro then RaisedWBStorageException
      else _initialize None ro expires now
  | NoTable => _initialize None ro expires now
  | HasTable t => _initialize (Some t) ro expires now
  end.

(** [close]: what the file holds once the connection is closed; a
    transaction still open is rolled back. *)
Definition close (s : storage) : table := committed (conn s).

(** [__exit__(exc_type, exc_val, exc_tb)], from whether [exc_type] is
    [None]. *)
Definition __exit__ (exc_type_is_None : bool) (s : storage) : table :=
  let s1 := mkStorage (conn s) (read_only s) false in
  match (if exc_type_is_None then commit else rollback) s1 with
  | (_, s2) => close s2
  end.

(** The calls a [with] block can make, and a block as the list of them:
    the first one that raises ends the block. *)
Inductive call : Type :=
| CallSet (now : Z) (k : string) (v : pyvalue)
| CallDelete (k : string) (ignore_key_error : bool)
| CallUpdate (clock : nat -> Z) (dic : list (string * pyvalue))
| CallPop (k : string) (default : pyvalue)
| CallGet (k : string) (default : pyvalue).

Definition perform (c : call) : M unit :=
  match c with
  | CallSet now k v => set now k v
  | CallDelete k f => delete k f
  | CallUpdate clock dic => update clock dic
  | CallPop k d => pop k d ;;; ret tt
  | CallGet k d => get k d ;;; ret tt
  end.

Fixpoint block (cs : list call) : M unit :=
  match cs with
  | [] => ret tt
  | c :: cs' => perform c ;;; block cs'
  end.

(** The same calls made by a caller that catches whatever a call raises
    and goes on with the next one. *)
Fixpoint session (cs : list call) (s : storage) : storage :=
  match cs with
  | [] => s
  | c :: cs' => session cs' (snd (perform c s))
  end.

(** [with store: ...]: [__enter__], the block, [__exit__] with what the
    block raised; the exception, if any, goes on to the caller. *)
Definition with_block (cs : list call) (s : storage)
  : result unit * table :=
  match (__enter__ ;;; block cs) s with
  | (Ok tt, s1) => (Ok tt, __exit__ true s1)
  | (Raise e, s1) => (Raise e, __exit__ false s1)
  end.

(** ** What the facts on the rest of the class are stated with *)



(** A value as Python has them: every float is one, every str is made of
    code points, and every dict has distinct keys, which here are to stay
    distinct in [json] (no two of them differ only by a pair of
    surrogates written as one code point). *)
Fixpoint well_formed (v : pyvalue) : bool :=
  match v with
  | PyFloat x => float_valid x
  | PyStr s => forallb is_code_point s
  | PyList l => forallb well_formed l
  | PyTuple l => forallb well_formed l
  | PyDict d =>
      distinct (map (fun kv => join_pairs (fst kv)) d)
      && forallb (fun kv => forallb is_code_point (fst kv)
                            && well_formed (snd kv)) d
  | _ => true
  end.

(** No row of the table is newer than [now], and none was updated before
    it was inserted. *)
Definition well_timed (now : Z) (t : table) : Prop :=
  Forall (fun r => (inserted r <= updated r)%Z /\ (updated r <= now)%Z) t.

(** Row [r] holds key [fst kv] and the text of the JSON-native value
    [snd kv]. *)
Definition holds (r : row) (kv : string * pyvalue) : Prop :=
  key r = fst kv /\ value r = encode (snd kv)
  /\ json_native (snd kv) = true.

(** No key has two rows, in the committed table or in the open
    transaction: the primary key of the table. *)
Definition unique_keys (c : connection) : Prop :=
  NoDup (map key (committed c)) /\ NoDup (map key (view c)).


(** A method keeps [P]: whatever it returns or raises, [P] holds of the
    store afterwards if it held before. *)
Definition preserves {A} (P : storage -> Prop) (m : M A) : Prop :=
  forall s r s', P s -> m s = (r, s') -> P s'.

(** [P] is kept by the two statements that write and by the three
    methods that open and end a transaction. *)
Definition stable (P : storage -> Prop) : Prop :=
  (forall s k v now,
      P s -> P (with_conn (insert_or_replace k v now (conn s)) s))
  /\ (forall s k, P s -> P (with_conn (snd (delete_where_key k (conn s))) s))
  /\ preserves P begin
  /\ preserves P commit
  /\ preserves P rollback.


(** [s_in] is a store inside a [with] block and [s_out] the store of a
    caller that makes the same calls outside one: they see the same
    table, and [s_out] has no transaction open. *)
Definition same_table (s_in s_out : storage) : Prop :=
  view (conn s_in) = view (conn s_out)
  /\ read_only s_in = read_only s_out
  /\ active_context s_in = true
  /\ active_context s_out = false
  /\ pending (conn s_out) = None.

(** A method does the same inside and outside a [with] block: it
    returns or raises the same, and when it returns the stores still see
    the same table. *)
Definition agrees {A} (m : M A) : Prop :=
  forall s_in s_out,
    same_table s_in s_out ->
    fst (m s_in) = fst (m s_out)
    /\ forall a, fst (m s_in) = Ok a ->
                 same_table (snd (m s_in)) (snd (m s_out)).

End StorageDict.

(* ================================================================== *)
(** * [GenericDictDB] *)

Module GenericDictDB.
Import Sqlite StorageDict.

(** [GenericDictDB(storage)]: [SharedStorage.__init__] with its defaults,
    [read_only=False] and [expires=60]. *)
Definition __init__ (db : database) (now : Z) : opened :=
  StorageDict.__init__ db false 60 now.

(** [self[key] = value]. *)
Definition save (now : Z) (k : string) (v : pyvalue) : M unit :=
  __setitem__ now k v.

(** [try: return self[key]  except KeyError: return None]. *)
Definition load (k : string) : M pyvalue :=
  try_except_KeyError (__getitem__ k) (ret PyNone).

End GenericDictDB.

(* ================================================================== *)
(** * [SqliteThreadWork]: the command-queue executor *)

Module SqliteThreadWork.

Record command : Type := mkCommand {
  token : string;
  query : string;
  values : pyvalue
}.

(** [query.lower().strip().startswith("select")].  Only the characters in
    front decide it, so the white space at the end is left alone.  Below
    256 the upper-case letters are A-Z and, but for the multiplication
    sign, the code points 192 to 222. *)
Definition lower_char (c : ascii) : ascii :=
  let n := N_of_ascii c in
  if ((65 <=? n) && (n <=? 90))%N then ascii_of_N (n + 32)
  else if ((192 <=? n) && (n <=? 222) && negb (n =? 215))%N
       then ascii_of_N (n + 32)
  else c.

Fixpoint lower (s : string) : string :=
  match s with
  | EmptyString => EmptyString
  | String c r => String (lower_char c) (lower r)
  end.

Definition is_space (c : ascii) : bool :=
  let n := N_of_ascii c in
  (((9 <=? n) && (n <=? 13)) || ((28 <=? n) && (n <=? 32))
   || (n =? 133) || (n =? 160))%N.

Fixpoint lstrip (s : string) : string :=
  match s with
  | String c r => if is_space c then lstrip r else s
  | EmptyString => s
  end.

Definition is_select (q : string) : bool :=
  String.prefix "select" (lstrip (lower q)).

(** [values or []]. *)
Definition truthy (v : pyvalue) : bool :=
  match v with
  | PyNone => false
  | PyBool b => b
  | PyInt z => negb (z =? 0)%Z
  | PyFloat (FFin _ m _) => negb (m =? 0)%Z
  | PyFloat _ => true
  | PyStr s => negb (Nat.eqb (List.length s) 0)
  | PyList l | PyTuple l => negb (Nat.eqb (List.length l) 0)
  | PyDict d => negb (Nat.eqb (List.length d) 0)
  end.

Definition values_or_empty (v : pyvalue) : pyvalue :=
  if truthy v then v else PyList [].

(** What [run_query] leaves in [results] for a SELECT: the rows, or the
    error text.  Either is determined by the statements the connection has
    executed so far, which is what the model records. *)
Inductive payload : Type :=
| Fetched (history : list command) (c : command).

(** The attributes of the object that the threads share.  The connection
    is the list of the statements it has executed, the list of those a
    commit has covered, and whether it is closed. *)
Record executor : Type := mkExecutor {
  exit_token : string;
  max_queue_size : nat;
  queue : list command;
  results : list (string * payload);
  exit_set : bool;
  thread_running : bool;
  conn_log : list command;
  conn_durable : list command;
  conn_closed : bool
}.

Definition set_queue (q : list command) (e : executor) : executor :=
  mkExecutor (exit_token e) (max_queue_size e) q (results e) (exit_set e)
    (thread_running e) (conn_log e) (conn_durable e) (conn_closed e).

Definition set_results (r : list (string * payload)) (e : executor)
  : executor :=
  mkExecutor (exit_token e) (max_queue_size e) (queue e) r (exit_set e)
    (thread_running e) (conn_log e) (conn_durable e) (conn_closed e).

Definition set_exit_set (b : bool) (e : executor) : executor :=
  mkExecutor (exit_token e) (max_queue_size e) (queue e) (results e) b
    (thread_running e) (conn_log e) (conn_durable e) (conn_closed e).

Definition set_thread_running (b : bool) (e : executor) : executor :=
  mkExecutor (exit_token e) (max_queue_size e) (queue e) (results e)
    (exit_set e) b (conn_log e) (conn_durable e) (conn_closed e).

(** [self.cur.execute(query, values)]; on a closed connection nothing is
    executed (the [sqlite3.ProgrammingError] is an [sqlite3.Error], which
    [run_query] catches). *)
Definition conn_execute (c : command) (e : executor) : executor :=
  if conn_closed e then e
  else
    mkExecutor (exit_token e) (max_queue_size e) (queue e) (results e)
      (exit_set e) (thread_running e) (conn_log e ++ [c])%list
      (conn_durable e) (conn_closed e).

Definition conn_commit (e : executor) : executor :=
  mkExecutor (exit_token e) (max_queue_size e) (queue e) (results e)
    (exit_set e) (thread_running e) (conn_log e) (conn_log e)
    (conn_closed e).

Definition conn_close (e : executor) : executor :=
  mkExecutor (exit_token e) (max_queue_size e) (queue e) (results e)
    (exit_set e) (thread_running e) (conn_log e) (conn_durable e) true.

(** [queue.Queue(maxsize)]: unbounded when [maxsize] is not positive. *)
Definition full (e : executor) : bool :=
  (0 <? max_queue_size e)%nat
  && (max_queue_size e <=? List.length (queue e))%nat.

Definition queue_put (c : command) (e : executor) : executor :=
  set_queue (queue e ++ [c])%list e.

(** [self.results[t] = p]. *)
Definition results_set (t : string) (p : payload)
    (r : list (string * payload)) : list (string * payload) :=
  (t, p) :: filter (fun x => negb (fst x =? t)%string) r.

(** [run_query], when it returns: the statement goes to the connection;
    the outcome of a SELECT is stored under its token.  An [sqlite3.Error]
    is caught in both branches; any other exception of [execute] or
    [fetchall] (an [OverflowError] for a parameter that does not fit in
    64 bits, the [ValueError] of a converter) goes through [run_query] and
    [run] and ends the thread: that is the step [run_raises] below. *)
Definition run_query (c : command) (e : executor) : executor :=
  if is_select (query c) then
    set_results (results_set (token c) (Fetched (conn_log e) c) (results e))
      (conn_execute c e)
  else conn_execute c e.

(** Where the worker is in [run]. *)
Inductive worker_pc : Type :=
| WGet                       (* line 60: blocked in [self.queue.get] *)
| WRun (c : command)         (* lines 62-65: [run_query], then count *)
| WCheckCommit               (* line 68 *)
| WCommit                    (* lines 71-72 *)
| WCheckExit                 (* line 75, [self.exit_set] *)
| WCheckEmpty                (* line 75, [self.queue.empty()] *)
| WExitCommit                (* line 76 *)
| WExitClose                 (* line 77 *)
| WExitStop                  (* line 78 *)
| WDone                      (* line 79 *)
| WRaised (c : command).     (* line 64: an exception has ended the thread *)

(** What a call hands back to its caller. *)
Inductive outcome : Type :=
| RetExitCalled              (* [["Exit Called"]] *)
| RetRows (p : payload)      (* [execute] of a SELECT *)
| RetNone                    (* [execute] of another statement *)
| RetClosed                  (* [close] *)
| RaisedFull.                (* [queue.Full] *)

(** Where a calling thread is. *)
Inductive client_pc : Type :=
| CIdle
| EStart (q : string) (v : pyvalue)   (* line 139 *)
| EPut (c : command)                  (* line 151 or 154 *)
| EPoll (t : string)                  (* [query_results], line 119 *)
| CSetFlag                            (* line 104 *)
| CPutSentinel                        (* line 105 *)
| CWait                               (* line 106 *)
| CReturned (r : outcome).

Inductive method : Type :=
| MExecute (q : string) (v : pyvalue)
| MClose.

(** The worker, the calling threads, and one ghost field: the commands
    that were put in the queue while [exit_set] was still false. *)
Record system : Type := mkSystem {
  ex : executor;
  wpc : worker_pc;
  execute_count : nat;
  clients : list client_pc;
  early : list command
}.

Fixpoint set_nth {A} (i : nat) (x : A) (l : list A) : list A :=
  match l, i with
  | [], _ => []
  | _ :: l', O => x :: l'
  | y :: l', S i' => y :: set_nth i' x l'
  end.

Definition worker_to (pc : worker_pc) (e : executor) (st : system)
  : system :=
  mkSystem e pc (execute_count st) (clients st) (early st).

Definition client_to (i : nat) (pc : client_pc) (e : executor)
    (st : system) : system :=
  mkSystem e (wpc st) (execute_count st) (set_nth i pc (clients st))
    (early st).

(** One step of [run], the worker thread; [None] when it is blocked in
    [self.queue.get] or has returned. *)
Definition run (st : system) : option system :=
  let e := ex st in
  match wpc st with
  | WGet =>
      match queue e with
      | [] => None
      | c :: q' =>
          if (token c =? exit_token e)%string
          then Some (worker_to WCheckExit (set_queue q' e) st)
          else Some (worker_to (WRun c) (set_queue q' e) st)
      end
  | WRun c =>
      Some (mkSystem (run_query c e) WCheckCommit (S (execute_count st))
              (clients st) (early st))
  | WCheckCommit =>
      match queue e with
      | [] => Some (worker_to WCommit e st)
      | _ :: _ =>
          if (execute_count st =? max_queue_size e)%nat
          then Some (worker_to WCommit e st)
          else Some (worker_to WCheckExit e st)
      end
  | WCommit =>
      Some (mkSystem (conn_commit e) WCheckExit 0 (clients st) (early st))
  | WCheckExit =>
      if exit_set e then Some (worker_to WCheckEmpty e st)
      else Some (worker_to WGet e st)
  | WCheckEmpty =>
      match queue e with
      | [] => Some (worker_to WExitCommit e st)
      | _ :: _ => Some (worker_to WGet e st)
      end
  | WExitCommit => Some (worker_to WExitClose (conn_commit e) st)
  | WExitClose => Some (worker_to WExitStop (conn_close e) st)
  | WExitStop => Some (worker_to WDone (set_thread_running false e) st)
  | WDone => None
  | WRaised _ => None
  end.

(** [run_query] lets an exception through (one that is not an
    [sqlite3.Error]): [run] ends there, with the statement in hand, no
    commit, the connection open and [thread_running] as it is.  The
    statement has not changed the database: the exception comes from the
    binding of a parameter, before the statement runs, or from [fetchall]
    after a SELECT. *)
Definition run_raises (st : system) : option system :=
  match wpc st with
  | WRun c => Some (worker_to (WRaised c) (ex st) st)
  | _ => None
  end.

(** [self.results[token]], then [del self.results[token]]. *)
Fixpoint take_result (t : string) (r : list (string * payload))
  : option (payload * list (string * payload)) :=
  match r with
  | [] => None
  | (t', p) :: r' =>
      if (t' =? t)%string then Some (p, r')
      else
        match take_result t r' with
        | Some (p', r'') => Some (p', (t', p) :: r'')
        | None => None
        end
  end.

(** One step of [execute] in thread [i].  [tok] is the value of
    [str(uuid.uuid4())] when the step draws one; a draw never gives the
    [exit_token] of the object.  A SELECT is put without blocking
    ([queue.Full] at once on a full queue), another statement waits for
    room. *)
Definition execute (i : nat) (tok : string) (pc : client_pc) (st : system)
  : option system :=
  let e := ex st in
  match pc with
  | EStart q v =>
      if exit_set e then Some (client_to i (CReturned RetExitCalled) e st)
      else if (tok =? exit_token e)%string then None
      else Some (client_to i
                   (EPut (mkCommand tok q (values_or_empty v))) e st)
  | EPut c =>
      if full e then
        if is_select (query c)
        then Some (client_to i (CReturned RaisedFull) e st)
        else None
      else
        Some (mkSystem (queue_put c e) (wpc st) (execute_count st)
                (set_nth i
                   (if is_select (query c) then EPoll (token c)
                    else CReturned RetNone)
                   (clients st))
                (if exit_set e then early st else (early st ++ [c])%list))
  | _ => None
  end.

(** One turn of the loop of [query_results]: the result is taken out of
    [results] if it is there, the thread sleeps otherwise. *)
Definition query_results (i : nat) (pc : client_pc) (st : system)
  : option system :=
  let e := ex st in
  match pc with
  | EPoll t =>
      match take_result t (results e) with
      | Some (p, r') =>
          Some (client_to i (CReturned (RetRows p)) (set_results r' e) st)
      | None => Some st
      end
  | _ => None
  end.

(** One step of [close] in thread [i]. *)
Definition close (i : nat) (pc : client_pc) (st : system) : option system :=
  let e := ex st in
  match pc with
  | CSetFlag => Some (client_to i CPutSentinel (set_exit_set true e) st)
  | CPutSentinel =>
      if full e then None
      else Some (client_to i CWait
                   (queue_put (mkCommand (exit_token e) "" (PyStr "")) e)
                   st)
  | CWait =>
      if thread_running e then Some st
      else Some (client_to i (CReturned RetClosed) e st)
  | _ => None
  end.

(** One step of calling thread [i], in whichever method it is. *)
Definition client_step (i : nat) (tok : string) (st : system)
  : option system :=
  match nth_error (clients st) i with
  | None => None
  | Some pc =>
      match pc with
      | CIdle | CReturned _ => None
      | EStart _ _ | EPut _ => execute i tok pc st
      | EPoll _ => query_results i pc st
      | CSetFlag | CPutSentinel | CWait => close i pc st
      end
  end.

(** A blocking [put] that has waited five seconds on a full queue. *)
Definition client_timeout (i : nat) (st : system) : option system :=
  let e := ex st in
  match nth_error (clients st) i with
  | Some (EPut c) =>
      if full e && negb (is_select (query c))
      then Some (client_to i (CReturned RaisedFull) e st) else None
  | Some CPutSentinel =>
      if full e then Some (client_to i (CReturned RaisedFull) e st)
      else None
  | _ => None
  end.

(** A thread that is not inside a call enters [execute] or [close]. *)
Definition client_call (i : nat) (m : method) (st : system)
  : option system :=
  match nth_error (clients st) i with
  | Some CIdle | Some (CReturned _) =>
      Some (client_to i
              (match m with
               | MExecute q v => EStart q v
               | MClose => CSetFlag
               end) (ex st) st)
  | _ => None
  end.

(** Who moves next, with what the move draws from outside.  [LWorker]
    is a step of [run] in which nothing is raised, [LRaise] the step in
    which [run_query] lets an exception through. *)
Inductive label : Type :=
| LWorker
| LCall (i : nat) (m : method)
| LStep (i : nat) (tok : string)
| LTimeout (i : nat)
| LRaise.

Definition step (l : label) (st : system) : option system :=
  match l with
  | LWorker => run st
  | LCall i m => client_call i m st
  | LStep i tok => client_step i tok st
  | LTimeout i => client_timeout i st
  | LRaise => run_raises st
  end.

(** A schedule, step by step. *)
Fixpoint steps (ls : list label) (st : system) : option system :=
  match ls with
  | [] => Some st
  | l :: ls' =>
      match step l st with
      | Some st' => steps ls' st'
      | None => None
      end
  end.

(** [__init__]: an empty queue, an open connection, the worker started;
    [n] threads that may call. *)
Definition init (tok : string) (maxsize n : nat) : system :=
  mkSystem (mkExecutor tok maxsize [] [] false true [] [] false)
    WGet 0 (repeat CIdle n) [].

(** ** Schedules and states to evaluate the system on *)

(** [close] has set the flag; another thread then calls [execute]. *)
Definition after_flag : system :=
  mkSystem
    (mkExecutor "exit" 2000
       [mkCommand "t1" "INSERT INTO t VALUES (1)" (PyList [])]
       [] true true [] [] false)
    WGet 0 [CPutSentinel; EStart "SELECT * FROM t" PyNone] [].

(** Two calling threads; the first sends one statement and then calls
    [close], the second is inside [execute], past the test of [exit_set],
    when [close] sets it. *)
Definition c1 : command :=
  mkCommand "t1" "INSERT INTO t VALUES (1)" (PyList []).
Definition c2 : command :=
  mkCommand "t2" "INSERT INTO t VALUES (2)" (PyList []).

Definition race_schedule : list label :=
  [ LCall 0 (MExecute "INSERT INTO t VALUES (1)" PyNone);
    LStep 0 "t1";          (* execute: exit_set is false, token drawn *)
    LStep 0 "";            (* execute: c1 is put; the call returns *)
    LCall 1 (MExecute "INSERT INTO t VALUES (2)" PyNone);
    LStep 1 "t2";          (* execute: exit_set is still false *)
    LCall 0 MClose;        (* close() is called, c1 is still queued *)
    LStep 0 "";            (* close: exit_set = True *)
    LWorker;               (* get c1 *)
    LWorker;               (* run_query c1 *)
    LWorker;               (* the queue is empty: commit *)
    LWorker;
    LWorker;               (* exit_set is true *)
    LWorker;               (* the queue is empty: leave the loop *)
    LStep 1 "";            (* execute: c2 is put; the call returns *)
    LWorker;               (* commit *)
    LWorker;               (* conn.close(), with c2 in the queue *)
    LWorker;               (* thread_running = False *)
    LStep 0 "";            (* close: the sentinel is put, behind c2 *)
    LStep 0 "" ].          (* close: returns *)

(** One thread sends a statement and calls [close]; the worker runs
    only after that. *)
Definition orderly_schedule : list label :=
  [ LCall 0 (MExecute "INSERT INTO t VALUES (1)" PyNone);
    LStep 0 "t1"; LStep 0 "";
    LCall 0 MClose; LStep 0 ""; LStep 0 "";
    LWorker; LWorker;                   (* get c1, run_query *)
    LWorker; LWorker; LWorker;          (* no commit yet; back to get *)
    LWorker; LWorker; LWorker;          (* the sentinel; the queue is empty *)
    LWorker; LWorker; LWorker;          (* commit, close, stop *)
    LStep 0 "" ].

Definition orderly_final : system :=
  Eval vm_compute in
    match steps orderly_schedule (init "exit" 2000 1) with
    | Some st => st
    | None => init "exit" 2000 1
    end.

(** ** What holds of every reachable state *)

(** Where the worker is, by what it has already decided. *)
Definition exiting (pc : worker_pc) : bool :=
  match pc with
  | WCheckEmpty | WExitCommit | WExitClose | WExitStop | WDone => true
  | _ => false
  end.

Definition drained (pc : worker_pc) : bool :=
  match pc with
  | WExitCommit | WExitClose | WExitStop | WDone => true
  | _ => false
  end.

Definition sealed (pc : worker_pc) : bool :=
  match pc with
  | WExitClose | WExitStop | WDone => true
  | _ => false
  end.

Definition stopped (pc : worker_pc) : bool :=
  match pc with
  | WExitStop | WDone => true
  | _ => false
  end.

Definition is_done (pc : worker_pc) : bool :=
  match pc with
  | WDone => true
  | _ => false
  end.

(** What holds of every state the threads can reach. *)
Record Inv (st : system) : Prop := mkInv {
  inv_early_tok :
    forall c, In c (early st) -> token c <> exit_token (ex st);
  inv_put_tok :
    forall i c, nth_error (clients st) i = Some (EPut c) ->
                token c <> exit_token (ex st);
  inv_flow :
    forall c, In c (early st) ->
              In c (conn_log (ex st)) \/ wpc st = WRun c
              \/ In c (queue (ex st)) \/ wpc st = WRaised c;
  inv_exit : exiting (wpc st) = true -> exit_set (ex st) = true;
  inv_drained :
    drained (wpc st) = true ->
    forall c, In c (early st) -> In c (conn_log (ex st));
  inv_sealed :
    sealed (wpc st) = true -> conn_durable (ex st) = conn_log (ex st);
  inv_closed : conn_closed (ex st) = stopped (wpc st);
  inv_running : thread_running (ex st) = negb (is_done (wpc st));
  inv_ret :
    forall i, nth_error (clients st) i = Some (CReturned RetClosed) ->
              thread_running (ex st) = false
}.

(** ** What the facts on the order of execution and on commits are
       stated with *)

(** [queue_size]: [self.queue.qsize()]. *)
Definition queue_size (e : executor) : nat := List.length (queue e).

(** The command the worker has taken from the queue and not yet handed
    to the connection; it stays in the hand of a thread that an exception
    has ended. *)
Definition in_hand (pc : worker_pc) : list command :=
  match pc with
  | WRun c | WRaised c => [c]
  | _ => []
  end.

(** The statements that wait for the connection, in the order it gets
    them: the one in the worker's hand, then those in the queue (the
    sentinel of [close] is not a statement). *)
Definition waiting (st : system) : list command :=
  (in_hand (wpc st)
   ++ filter (fun c => negb (token c =? exit_token (ex st))%string)
        (queue (ex st)))%list.

(** The statements the connection has executed, then those that wait. *)
Definition pipeline (st : system) : list command :=
  (conn_log (ex st) ++ waiting st)%list.

(** Where the worker may have executed statements that no commit covers
    yet: not when it waits on an empty queue, and not once it is past
    the commit of the exit branch; a batch stays open for good in a thread
    that an exception has ended. *)
Definition batch_open (st : system) : Prop :=
  match wpc st with
  | WGet => queue (ex st) <> []
  | WCheckExit => queue (ex st) <> [] \/ exit_set (ex st) = true
  | WRun _ | WCheckCommit | WCommit | WCheckEmpty | WExitCommit
  | WRaised _ => True
  | WExitClose | WExitStop | WDone => False
  end.

(** At lines 68 to 72 [execute_count] may have reached
    [max_queue_size]. *)
Definition counting (pc : worker_pc) : bool :=
  match pc with
  | WCheckCommit | WCommit => true
  | _ => false
  end.

(** What holds of the batches of the worker in every reachable state. *)
Record Batch (st : system) : Prop := mkBatch {
  batch_sentinel :
    forall c, In c (queue (ex st)) -> token c = exit_token (ex st) ->
              exit_set (ex st) = true;
  batch_put :
    forall i, nth_error (clients st) i = Some CPutSentinel ->
              exit_set (ex st) = true;
  batch_idle :
    conn_durable (ex st) = conn_log (ex st) \/ batch_open st;
  batch_tail :
    exists tail,
      conn_log (ex st) = (conn_durable (ex st) ++ tail)%list
      /\ (sealed (wpc st) = false -> List.length tail = execute_count st);
  batch_count :
    (0 < max_queue_size (ex st))%nat ->
    if counting (wpc st)
    then (execute_count st <= max_queue_size (ex st))%nat
    else (execute_count st < max_queue_size (ex st))%nat;
  batch_queue :
    (0 < max_queue_size (ex st))%nat ->
    (queue_size (ex st) <= max_queue_size (ex st))%nat
}.

(** What holds of the results the worker has stored and of those a call
    has returned: each is of a SELECT, computed on the statements the
    connection had executed before it, and stored under the token of its
    command. *)
Definition fetched_ok (e : executor) (p : payload) : Prop :=
  match p with
  | Fetched h c =>
      is_select (query c) = true
      /\ exists rest, conn_log e = (h ++ c :: rest)%list
  end.

Record Registry (st : system) : Prop := mkRegistry {
  reg_results :
    forall t p, In (t, p) (results (ex st)) ->
                fetched_ok (ex st) p
                /\ match p with Fetched _ c => token c = t end;
  reg_returned :
    forall i p, nth_error (clients st) i = Some (CReturned (RetRows p)) ->
                fetched_ok (ex st) p
}.

(** Two calling threads; the first sends one statement and then calls
    [close], the second calls [execute] with a SELECT and is past the
    test of [exit_set] when [close] sets it. *)
Definition select_race_schedule : list label :=
  [ LCall 0 (MExecute "INSERT INTO t VALUES (1)" PyNone);
    LStep 0 "t1"; LStep 0 "";
    LCall 1 (MExecute "SELECT * FROM t" PyNone);
    LStep 1 "t2";          (* execute: exit_set is still false *)
    LCall 0 MClose;
    LStep 0 "";            (* close: exit_set = True *)
    LWorker; LWorker; LWorker; LWorker;
    LWorker; LWorker;      (* the queue is empty: leave the loop *)
    LStep 1 "";            (* execute: the SELECT is put *)
    LWorker; LWorker; LWorker;
    LStep 0 ""; LStep 0 "" ].

Definition stranded : system :=
  Eval vm_compute in
    match steps select_race_schedule (init "exit" 2000 2) with
    | Some st => st
    | None => init "exit" 2000 2
    end.

(** One thread sends a statement and the worker takes it through the
    loop, back to [self.queue.get]. *)
Definition idle_schedule : list label :=
  [ LCall 0 (MExecute "INSERT INTO t VALUES (1)" PyNone);
    LStep 0 "t1"; LStep 0 "";
    LWorker; LWorker;                   (* get c1, run_query *)
    LWorker; LWorker;                   (* the queue is empty: commit *)
    LWorker ].                          (* exit_set is false: get *)

Definition idle_state : system :=
  Eval vm_compute in
    match steps idle_schedule (init "exit" 2000 1) with
    | Some st => st
    | None => init "exit" 2000 1
    end.

(** One thread sends a SELECT, the worker executes it, the thread takes
    the rows. *)
Definition select_schedule : list label :=
  [ LCall 0 (MExecute "  Select * FROM t" PyNone);
    LStep 0 "t1"; LStep 0 "";
    LWorker; LWorker;                   (* get, run_query *)
    LStep 0 "" ].                       (* query_results *)

Definition select_returned : system :=
  Eval vm_compute in
    match steps select_schedule (init "exit" 2000 1) with
    | Some st => st
    | None => init "exit" 2000 1
    end.

(** The worker is about to execute the SELECT of a thread that polls for
    its result. *)
Definition select_in_hand : system :=
  Eval vm_compute in
    match steps (firstn 4 select_schedule) (init "exit" 2000 1) with
    | Some st => st
    | None => init "exit" 2000 1
    end.





End SqliteThreadWork.

(* ================================================================== *)
(** * Strings: the few facts the Standard Library leaves out *)

Lemma append_assoc (a b c : string) : (a ++ b) ++ c = a ++ (b ++ c).
Proof. induction a as [|x a IH]; simpl; [reflexivity | now rewrite IH]. Qed.

Lemma append_nil_r (a : string) : a ++ "" = a.
Proof. induction a as [|x a IH]; simpl; [reflexivity | now rewrite IH]. Qed.

Lemma length_append (a b : string) :
  String.length (a ++ b) = String.length a + String.length b.
Proof. induction a as [|x a IH]; simpl; [reflexivity | now rewrite IH]. Qed.


Lemma length_str_of_text (t : string) :
  List.length (str_of_text t) = String.length t.
Proof.
  unfold str_of_text. rewrite length_map.
  induction t as [|c t IH]; simpl; [reflexivity | now rewrite IH].
Qed.

(* ================================================================== *)
(** * Facts about floats: reading a decimal *)

Module FloatFacts.

Lemma pow2_pos (n : Z) : (0 <= n -> 0 < 2 ^ n)%Z.
Proof. intros H. now apply Z.pow_pos_nonneg. Qed.

(** [le_scaled] on one scale: any shift that makes both exponents
    non-negative. *)
Lemma le_scaled_shift (L S P Q : Z) :
  (0 <= S)%Z -> (0 <= L + S)%Z ->
  le_scaled L P Q = (Q * 2 ^ (L + S) <=? P * 2 ^ S)%Z.
Proof.
  intros HS HLS. unfold le_scaled.
  destruct (Z.leb_spec 0 L) as [HL|HL].
  - rewrite Z.pow_add_r by lia.
    pose proof (pow2_pos S HS) as Hp.
    destruct (Z.leb_spec (Q * 2 ^ L) P), (Z.leb_spec (Q * (2 ^ L * 2 ^ S)) (P * 2 ^ S));
      try reflexivity; nia.
  - replace S with (- L + (L + S))%Z at 2 by lia.
    rewrite (Z.pow_add_r 2 (- L) (L + S)) by lia.
    pose proof (pow2_pos (L + S) HLS) as Hp.
    destruct (Z.leb_spec Q (P * 2 ^ (- L))),
      (Z.leb_spec (Q * 2 ^ (L + S)) (P * (2 ^ (- L) * 2 ^ (L + S))));
      try reflexivity; nia.
Qed.

Lemma ratio_log2_unique (P Q T : Z) :
  (0 < P)%Z -> (0 < Q)%Z ->
  le_scaled T P Q = true -> le_scaled (T + 1) P Q = false ->
  ratio_log2 P Q = T.
Proof.
  intros HP HQ Hle Hgt.
  pose proof (Z.log2_spec P HP) as [HPl HPu].
  pose proof (Z.log2_spec Q HQ) as [HQl HQu].
  pose proof (Z.log2_nonneg P) as Ha. pose proof (Z.log2_nonneg Q) as Hb.
  set (a := Z.log2 P) in *. set (b := Z.log2 Q) in *.
  set (S := (Z.abs T + a + b + 2)%Z).
  assert (HS : (0 <= S)%Z) by lia.
  rewrite (le_scaled_shift T S) in Hle by lia.
  rewrite (le_scaled_shift (T + 1) S) in Hgt by lia.
  apply Z.leb_le in Hle. apply Z.leb_gt in Hgt.
  assert (Hup : (T <= a - b)%Z).
  { destruct (Z.le_gt_cases T (a - b)) as [|Hc]; [assumption|exfalso].
    assert (H1 : (2 ^ (b + (T + S)) <= Q * 2 ^ (T + S))%Z).
    { rewrite (Z.pow_add_r 2 b (T + S)) by lia.
      apply Z.mul_le_mono_nonneg_r; [apply Z.lt_le_incl, pow2_pos; lia | exact HQl]. }
    assert (H2 : (P * 2 ^ S < 2 ^ (Z.succ a + S))%Z).
    { rewrite (Z.pow_add_r 2 (Z.succ a) S) by lia.
      apply Z.mul_lt_mono_pos_r; [apply pow2_pos; lia | exact HPu]. }
    assert (H3 : (2 ^ (Z.succ a + S) <= 2 ^ (b + (T + S)))%Z)
      by (apply Z.pow_le_mono_r; lia).
    lia. }
  assert (Hlo : (a - b - 1 <= T)%Z).
  { destruct (Z.le_gt_cases (a - b - 1) T) as [|Hc]; [assumption|exfalso].
    assert (H1 : (Q * 2 ^ (T + 1 + S) < 2 ^ (Z.succ b + (T + 1 + S)))%Z).
    { rewrite (Z.pow_add_r 2 (Z.succ b) (T + 1 + S)) by lia.
      apply Z.mul_lt_mono_pos_r; [apply pow2_pos; lia | exact HQu]. }
    assert (H2 : (2 ^ (a + S) <= P * 2 ^ S)%Z).
    { rewrite (Z.pow_add_r 2 a S) by lia.
      apply Z.mul_le_mono_nonneg_r; [apply Z.lt_le_incl, pow2_pos; lia | exact HPl]. }
    assert (H3 : (2 ^ (Z.succ b + (T + 1 + S)) <= 2 ^ (a + S))%Z)
      by (apply Z.pow_le_mono_r; lia).
    lia. }
  unfold ratio_log2. fold a b.
  destruct (Z.eq_dec T (a - b)) as [->|Hne].
  - rewrite (le_scaled_shift (a - b) S) by lia.
    apply Z.leb_le in Hle. now rewrite Hle.
  - assert (HT : (a - b = T + 1)%Z) by lia. rewrite HT.
    rewrite (le_scaled_shift (T + 1) S) by lia.
    apply Z.leb_gt in Hgt. rewrite Hgt. lia.
Qed.

(** A number that is a float is read as that float. *)
Lemma round_ratio_exact (neg : bool) (P Q m e : Z) :
  (0 < Q)%Z -> (0 < m)%Z -> canonical m e = true ->
  (if (0 <=? e)%Z then P = m * 2 ^ e * Q else P * 2 ^ (- e) = m * Q)%Z ->
  round_ratio neg P Q = FFin neg m e.
Proof.
  intros HQ Hm Hc HPQ.
  unfold canonical in Hc.
  apply andb_prop in Hc as [Hc Hn]. apply andb_prop in Hc as [Hc He2].
  apply andb_prop in Hc as [Hc He1]. apply andb_prop in Hc as [_ Hm53].
  apply Z.ltb_lt in Hm53. apply Z.leb_le in He1, He2.
  pose proof (Z.log2_spec m Hm) as [Hml Hmu].
  pose proof (Z.log2_nonneg m) as Hlm.
  set (lm := Z.log2 m) in *.
  assert (Hlm52 : (lm <= 52)%Z).
  { destruct (Z.le_gt_cases lm 52) as [|Hc']; [assumption|exfalso].
    assert ((2 ^ 53 <= 2 ^ lm)%Z) by (apply Z.pow_le_mono_r; lia). lia. }
  assert (HP : (0 < P)%Z).
  { destruct (Z.leb_spec 0 e) as [He|He].
    - subst P. pose proof (pow2_pos e He). nia.
    - pose proof (pow2_pos (- e) ltac:(lia)). nia. }
  (* on one scale *)
  assert (Hscale : forall S, (0 <= S)%Z -> (0 <= e + S)%Z ->
            (P * 2 ^ S = m * Q * 2 ^ (e + S))%Z).
  { intros S HS HeS. destruct (Z.leb_spec 0 e) as [He|He].
    - subst P. rewrite Z.pow_add_r by lia. ring.
    - replace S with (- e + (e + S))%Z at 1 by lia.
      rewrite Z.pow_add_r by lia. rewrite Z.mul_assoc, HPQ. ring. }
  assert (HL : ratio_log2 P Q = (lm + e)%Z).
  { apply ratio_log2_unique; try assumption.
    - rewrite (le_scaled_shift _ (Z.abs e + 1)) by lia.
      apply Z.leb_le. rewrite Hscale by lia.
      replace (lm + e + (Z.abs e + 1))%Z with (lm + (e + (Z.abs e + 1)))%Z
        by lia.
      rewrite (Z.pow_add_r 2 lm) by lia.
      pose proof (pow2_pos (e + (Z.abs e + 1)) ltac:(lia)). nia.
    - rewrite (le_scaled_shift _ (Z.abs e + 1)) by lia.
      apply Z.leb_gt. rewrite Hscale by lia.
      replace (lm + e + 1 + (Z.abs e + 1))%Z
        with (Z.succ lm + (e + (Z.abs e + 1)))%Z by lia.
      rewrite (Z.pow_add_r 2 (Z.succ lm)) by lia.
      pose proof (pow2_pos (e + (Z.abs e + 1)) ltac:(lia)). nia. }
  assert (Hmax : Z.max (lm + e - 52) (-1074) = e).
  { apply orb_prop in Hn as [H52|H1074].
    - apply Z.leb_le in H52.
      assert (lm = 52%Z).
      { destruct (Z.le_gt_cases 52 lm) as [|Hc']; [lia|exfalso].
        assert ((2 ^ (Z.succ lm) <= 2 ^ 52)%Z) by (apply Z.pow_le_mono_r; lia).
        lia. }
      lia.
    - apply Z.eqb_eq in H1074. lia. }
  unfold round_ratio. rewrite HL, Hmax.
  assert (Hq : ((if (0 <=? e)%Z then P else P * 2 ^ (- e))
                = m * (if (0 <=? e)%Z then Q * 2 ^ e else Q))%Z).
  { destruct (Z.leb_spec 0 e); [subst P; ring | exact HPQ]. }
  assert (Hden : (0 < (if (0 <=? e)%Z then Q * 2 ^ e else Q))%Z).
  { destruct (Z.leb_spec 0 e) as [He|He]; [|exact HQ].
    pose proof (pow2_pos e He). nia. }
  rewrite Hq.
  set (den := (if (0 <=? e)%Z then (Q * 2 ^ e)%Z else Q)) in *.
  rewrite Z.div_mul by lia. rewrite Z.mod_mul by lia.
  replace (den <? 2 * 0)%Z with false by (symmetry; apply Z.ltb_ge; lia).
  replace (2 * 0 =? den)%Z with false by (symmetry; apply Z.eqb_neq; lia).
  cbn [orb andb].
  replace (m =? 2 ^ 53)%Z with false by (symmetry; apply Z.eqb_neq; lia).
  replace (971 <? e)%Z with false by (symmetry; apply Z.ltb_ge; lia).
  reflexivity.
Qed.

Lemma float_of_decimal_exact (neg : bool) (m e : Z) :
  (0 < m)%Z -> canonical m e = true ->
  float_of_decimal neg (fst (exact_decimal m e)) (snd (exact_decimal m e))
  = FFin neg m e.
Proof.
  intros Hm Hc. unfold exact_decimal, float_of_decimal.
  destruct (Z.leb_spec 0 e) as [He|He]; cbn [fst snd].
  - pose proof (pow2_pos e He) as Hp.
    replace (m * 2 ^ e =? 0)%Z with false by (symmetry; apply Z.eqb_neq; nia).
    change (0 <=? 0)%Z with true. cbv iota.
    apply round_ratio_exact; try assumption; try lia.
    apply Z.leb_le in He. rewrite He. change (10 ^ 0)%Z with 1%Z. ring.
  - assert (H5 : (0 < 5 ^ (- e))%Z) by (apply Z.pow_pos_nonneg; lia).
    replace (m * 5 ^ (- e) =? 0)%Z with false
      by (symmetry; apply Z.eqb_neq; nia).
    replace (0 <=? e)%Z with false by (symmetry; apply Z.leb_gt; lia).
    apply round_ratio_exact; try assumption.
    + apply Z.pow_pos_nonneg; lia.
    + replace (0 <=? e)%Z with false by (symmetry; apply Z.leb_gt; lia).
      change 10%Z with (5 * 2)%Z. rewrite Z.pow_mul_l. ring.
Qed.

Lemma float_eqb_eq (x y : float) : float_eqb x y = true -> x = y.
Proof.
  destruct x as [|a|a m e], y as [|b|b m' e']; try discriminate;
    cbn [float_eqb]; intros H.
  - reflexivity.
  - now apply Bool.eqb_prop in H as ->.
  - apply andb_prop in H as [H He]. apply andb_prop in H as [Ha Hm].
    apply Bool.eqb_prop in Ha as ->. apply Z.eqb_eq in Hm as ->.
    now apply Z.eqb_eq in He as ->.
Qed.

End FloatFacts.

(* ================================================================== *)
(** * Facts about [json]: what [dumps] writes, [loads] reads back *)

Module JsonFacts.
Import Json FloatFacts.

(** ** Strings *)

Lemma hex_value_digit (d : N) :
  (d < 16)%N -> hex_value (hex_digit d) = Some d.
Proof.
  intros H.
  assert (Hd : (d = 0 \/ d = 1 \/ d = 2 \/ d = 3 \/ d = 4 \/ d = 5 \/ d = 6
                \/ d = 7 \/ d = 8 \/ d = 9 \/ d = 10 \/ d = 11 \/ d = 12
                \/ d = 13 \/ d = 14 \/ d = 15)%N) by lia.
  repeat (destruct Hd as [->|Hd]; [reflexivity|]). now subst.
Qed.

Lemma hex4_value_digits (n : N) :
  (n < 65536)%N ->
  hex4_value (hex_digit (n / 4096)) (hex_digit ((n / 256) mod 16))
    (hex_digit ((n / 16) mod 16)) (hex_digit (n mod 16)) = Some n.
Proof.
  intros H. unfold hex4_value.
  rewrite !hex_value_digit;
    try (apply N.mod_lt; discriminate);
    try (apply N.Div0.div_lt_upper_bound; exact H).
  f_equal.
  pose proof (N.div_mod n 16 ltac:(discriminate)) as H1.
  pose proof (N.div_mod (n / 16) 16 ltac:(discriminate)) as H2.
  pose proof (N.div_mod (n / 16 / 16) 16 ltac:(discriminate)) as H3.
  rewrite !N.Div0.div_div in *. change (16 * 16)%N with 256%N in *.
  change (256 * 16)%N with 4096%N in *.
  lia.
Qed.

Lemma scanstring_escape_u (c : N) (t : string) :
  (c < 65536)%N ->
  scanstring (escape_u c ++ t) =
  match t with
  | String b (String u (String g1 (String g2 (String g3 (String g4 r3))))) =>
      if is_high c && (b =? backslash)%char && (u =? "u")%char then
        match hex4_value g1 g2 g3 g4 with
        | Some uni2 =>
            if is_low uni2 then prepend (join c uni2) (scanstring r3)
            else prepend c (scanstring t)
        | None => None
        end
      else prepend c (scanstring t)
  | _ => prepend c (scanstring t)
  end.
Proof.
  intros H. unfold escape_u. cbn [append scanstring].
  change (backslash =? dquote)%char with false.
  change (backslash =? backslash)%char with true.
  change ("u" =? "u")%char with true. cbv iota.
  now rewrite (hex4_value_digits c H).
Qed.

(** A [\u] escape that is no high surrogate stands for itself. *)
Lemma scanstring_u_plain (c : N) (t : string) :
  (c < 65536)%N -> is_high c = false ->
  scanstring (escape_u c ++ t) = prepend c (scanstring t).
Proof.
  intros H Hh. rewrite scanstring_escape_u by exact H. rewrite Hh.
  destruct t as [|b [|u [|g1 [|g2 [|g3 [|g4 r]]]]]]; reflexivity.
Qed.

(** So does one with no [\u] escape after it. *)
Lemma scanstring_u_head (c : N) (a : ascii) (t : string) :
  (c < 65536)%N -> (a =? backslash)%char = false ->
  scanstring (escape_u c ++ String a t)
  = prepend c (scanstring (String a t)).
Proof.
  intros H Ha. rewrite scanstring_escape_u by exact H.
  destruct t as [|u [|g1 [|g2 [|g3 [|g4 r]]]]]; try reflexivity.
  now rewrite Ha, andb_false_r.
Qed.

Lemma scanstring_u_head2 (c : N) (a e : ascii) (t : string) :
  (c < 65536)%N -> (e =? "u")%char = false ->
  scanstring (escape_u c ++ String a (String e t))
  = prepend c (scanstring (String a (String e t))).
Proof.
  intros H He. rewrite scanstring_escape_u by exact H.
  destruct t as [|g1 [|g2 [|g3 [|g4 r]]]]; try reflexivity.
  now rewrite He, andb_false_r.
Qed.

(** A high surrogate and the escape after it. *)
Lemma scanstring_u_pair (hi lo : N) (t : string) :
  (hi < 65536)%N -> (lo < 65536)%N -> is_high hi = true ->
  scanstring (escape_u hi ++ escape_u lo ++ t)
  = if is_low lo then prepend (join hi lo) (scanstring t)
    else prepend hi (scanstring (escape_u lo ++ t)).
Proof.
  intros Hhi Hlo Hh. rewrite scanstring_escape_u by exact Hhi.
  unfold escape_u at 1. cbn [append]. rewrite Hh.
  change (backslash =? backslash)%char with true.
  change ("u" =? "u")%char with true. cbn [andb].
  now rewrite (hex4_value_digits lo Hlo).
Qed.

Lemma is_plain_ascii (c : N) :
  is_plain c = true -> c = N_of_ascii (ascii_of_N c).
Proof.
  intros H. symmetry. apply N_ascii_embedding. unfold is_plain in H.
  repeat (apply orb_prop in H as [H|H]);
    try (apply N.eqb_eq in H; subst; reflexivity).
  apply andb_prop in H as [_ H]. apply N.leb_le in H. lia.
Qed.

Lemma scanstring_plain_ascii (a : ascii) (t : string) :
  is_plain (N_of_ascii a) = true ->
  scanstring (escape_char (N_of_ascii a) ++ t)
  = prepend (N_of_ascii a) (scanstring t).
Proof.
  destruct a as [[] [] [] [] [] [] [] []]; intros H;
    try (vm_compute in H; discriminate H); reflexivity.
Qed.

Lemma scanstring_plain (c : N) (t : string) :
  is_plain c = true ->
  scanstring (escape_char c ++ t) = prepend c (scanstring t).
Proof.
  intros H. pose proof (is_plain_ascii c H) as E.
  set (a := ascii_of_N c) in E. clearbody a. subst c.
  now apply scanstring_plain_ascii.
Qed.

Lemma escape_char_u (c : N) :
  is_plain c = false -> (c < 65536)%N -> escape_char c = escape_u c.
Proof.
  intros H Hc. unfold is_plain in H.
  repeat (apply orb_false_elim in H as [H ?]).
  unfold escape_char.
  repeat match goal with E : _ = false |- _ => rewrite E; clear E end.
  apply N.ltb_lt in Hc. now rewrite Hc.
Qed.

Lemma escape_char_pair (c : N) :
  (65536 <= c)%N ->
  escape_char c
  = escape_u (55296 + ((c - 65536) / 1024) mod 1024)
    ++ escape_u (56320 + (c - 65536) mod 1024).
Proof.
  intros Hc. unfold escape_char.
  repeat match goal with
         | |- context [(c =? ?k)%N] =>
             replace (c =? k)%N with false by (symmetry; apply N.eqb_neq; lia)
         end.
  replace (c <=? 126)%N with false by (symmetry; apply N.leb_gt; lia).
  rewrite andb_false_r.
  replace (c <? 65536)%N with false by (symmetry; apply N.ltb_ge; lia).
  reflexivity.
Qed.

Lemma is_plain_not_surrogate (c : N) :
  is_plain c = true -> is_high c = false /\ is_low c = false.
Proof.
  intros H. unfold is_plain in H. unfold is_high, is_low.
  assert (Hc : (c <= 126)%N).
  { repeat (apply orb_prop in H as [H|H]);
      try (apply N.eqb_eq in H; subst; discriminate).
    apply andb_prop in H as [_ H]. now apply N.leb_le in H. }
  split; apply andb_false_iff; left; apply N.leb_gt; lia.
Qed.

(** After a [\u] escape that does not pair with it, the next code point
    is read on its own. *)
Lemma scanstring_u_then (c b : N) (t : string) :
  (c < 65536)%N -> is_code_point b = true ->
  is_high c && is_low b = false ->
  scanstring (escape_u c ++ escape_char b ++ t)
  = prepend c (scanstring (escape_char b ++ t)).
Proof.
  intros Hc Hb Hp.
  destruct (is_high c) eqn:Hh; [|now apply scanstring_u_plain].
  cbn [andb] in Hp.
  destruct (is_plain b) eqn:Hpl.
  - pose proof (is_plain_ascii b Hpl) as E.
    set (a := ascii_of_N b) in E. clearbody a. subst b. clear Hb Hp.
    destruct a as [[] [] [] [] [] [] [] []];
      try (vm_compute in Hpl; discriminate Hpl);
      match goal with
      | |- context [escape_char ?n] =>
          let e := eval vm_compute in (escape_char n) in
          change (escape_char n) with e
      end; cbn [append];
      first [ apply scanstring_u_head; [exact Hc | reflexivity]
            | apply scanstring_u_head2; [exact Hc | reflexivity] ].
  - destruct (N.ltb_spec b 65536) as [Hlt|Hge].
    + rewrite (escape_char_u b Hpl Hlt).
      rewrite (scanstring_u_pair c b t Hc Hlt Hh). now rewrite Hp.
    + rewrite (escape_char_pair b Hge), append_assoc.
      unfold is_code_point in Hb. apply N.ltb_lt in Hb.
      assert (Hx : ((b - 65536) / 1024 < 1024)%N)
        by (apply N.Div0.div_lt_upper_bound; lia).
      rewrite N.mod_small by exact Hx.
      set (x := ((b - 65536) / 1024)%N) in *. clearbody x.
      rewrite scanstring_u_pair; [| exact Hc | lia | exact Hh].
      replace (is_low (55296 + x)) with false;
        [reflexivity|].
      symmetry. unfold is_low. apply andb_false_iff. left.
      apply N.leb_gt. lia.
Qed.

Lemma join_pairs_cons (c : N) (s : pystr) :
  is_high c = false -> join_pairs (c :: s) = c :: join_pairs s.
Proof. intros H. destruct s; cbn [join_pairs]; [reflexivity | now rewrite H]. Qed.

Lemma scanstring_escape_bounded (n : nat) :
  forall (s : pystr) (t : string),
    List.length s <= n ->
    forallb is_code_point s = true ->
    scanstring (escape s ++ String dquote t) = Some (join_pairs s, t).
Proof.
  induction n as [|n IH]; intros s t Hn Hv.
  { destruct s; [reflexivity | cbn in Hn; lia]. }
  destruct s as [|c s]; [reflexivity|].
  cbn [List.length] in Hn. cbn [forallb] in Hv.
  apply andb_prop in Hv as [Hc Hv].
  cbn [escape]. rewrite append_assoc.
  destruct (is_plain c) eqn:Hpl.
  { rewrite (scanstring_plain c _ Hpl), IH by (assumption || lia).
    destruct (is_plain_not_surrogate c Hpl) as [Hh _].
    now rewrite (join_pairs_cons c s Hh). }
  destruct (N.ltb_spec c 65536) as [Hlt|Hge].
  - rewrite (escape_char_u c Hpl Hlt).
    destruct s as [|b s].
    + cbn [escape append].
      rewrite scanstring_u_head by (exact Hlt || reflexivity).
      reflexivity.
    + cbn [forallb] in Hv. apply andb_prop in Hv as [Hb Hv].
      cbn [List.length] in Hn.
      destruct (is_high c && is_low b) eqn:Hp.
      * apply andb_prop in Hp as [Hh Hl].
        assert (Hb' : (b < 65536)%N /\ is_plain b = false).
        { unfold is_low in Hl. apply andb_prop in Hl as [Hl1 Hl2].
          apply N.leb_le in Hl1, Hl2. split; [lia|].
          destruct (is_plain b) eqn:E; [|reflexivity].
          destruct (is_plain_not_surrogate b E) as [_ Hnl].
          unfold is_low in Hnl. apply andb_false_iff in Hnl as [Hnl|Hnl];
            apply N.leb_gt in Hnl; lia. }
        destruct Hb' as [Hblt Hbpl].
        cbn [escape]. rewrite append_assoc, (escape_char_u b Hbpl Hblt).
        rewrite (scanstring_u_pair c b _ Hlt Hblt Hh), Hl.
        rewrite IH by (assumption || lia).
        cbn [join_pairs prepend]. now rewrite Hh, Hl.
      * change (escape (b :: s)) with (escape_char b ++ escape s).
        rewrite append_assoc.
        rewrite (scanstring_u_then c b _ Hlt Hb Hp).
        rewrite <- append_assoc.
        change (escape_char b ++ escape s) with (escape (b :: s)).
        rewrite IH; [| cbn [List.length]; lia
                     | cbn [forallb]; now rewrite Hb, Hv].
        cbn [prepend]. cbn [join_pairs]. now rewrite Hp.
  - rewrite (escape_char_pair c Hge), append_assoc.
    unfold is_code_point in Hc. apply N.ltb_lt in Hc.
    assert (Hx : ((c - 65536) / 1024 < 1024)%N)
      by (apply N.Div0.div_lt_upper_bound; lia).
    assert (Hy : ((c - 65536) mod 1024 < 1024)%N)
      by (apply N.mod_lt; discriminate).
    rewrite N.mod_small by exact Hx.
    pose proof (N.div_mod (c - 65536) 1024 ltac:(discriminate)) as Hdm.
    set (x := ((c - 65536) / 1024)%N) in *.
    set (y := ((c - 65536) mod 1024)%N) in *. clearbody x y.
    rewrite scanstring_u_pair; [| lia | lia |].
    2:{ unfold is_high. apply andb_true_iff.
        split; apply N.leb_le; lia. }
    replace (is_low (56320 + y)) with true.
    2:{ symmetry. unfold is_low. apply andb_true_iff.
        split; apply N.leb_le; lia. }
    rewrite IH by (assumption || lia). cbn [prepend].
    rewrite join_pairs_cons.
    2:{ unfold is_high. apply andb_false_iff. right. apply N.leb_gt. lia. }
    assert (Hj : join (55296 + x) (56320 + y) = c) by (unfold join; lia).
    now rewrite Hj.
Qed.

(** Every str is read back from its text, a pair of surrogates as the one
    code point it encodes. *)
Lemma scanstring_escape (s : pystr) (t : string) :
  forallb is_code_point s = true ->
  scanstring (escape s ++ String dquote t) = Some (join_pairs s, t).
Proof. apply (scanstring_escape_bounded (List.length s)), le_n. Qed.

Lemma join_pairs_no_pair (s : pystr) : no_pair s = true -> join_pairs s = s.
Proof.
  induction s as [|a s IH]; [reflexivity|].
  destruct s as [|b s]; [reflexivity|].
  cbn [no_pair]. intros H. apply andb_prop in H as [Hp H].
  apply negb_true_iff in Hp.
  change (join_pairs (a :: b :: s))
    with (if is_high a && is_low b then join a b :: join_pairs s
          else a :: join_pairs (b :: s)).
  rewrite Hp. now rewrite IH.
Qed.

Lemma scan_once_encode_str (fuel : nat) (s : pystr) (rest : string) :
  forallb is_code_point s = true ->
  scan_once (S fuel) (encode_str s ++ rest) = Some (PyStr (join_pairs s), rest).
Proof.
  intros Hv. unfold encode_str. cbn [append scan_once].
  change (dquote =? dquote)%char with true. cbv iota.
  rewrite append_assoc. cbn [append].
  now rewrite scanstring_escape.
Qed.

(** ** Integers *)

Lemma span_digits_uint (u : uint) (rest : string) :
  no_digit_head rest = true ->
  span_digits (NilEmpty.string_of_uint u ++ rest)
  = (NilEmpty.string_of_uint u, rest).
Proof.
  intros Hrest.
  induction u as [|u IH|u IH|u IH|u IH|u IH|u IH|u IH|u IH|u IH|u IH];
    cbn [NilEmpty.string_of_uint append];
    try (cbn [span_digits]; rewrite IH; reflexivity).
  destruct rest as [|c rest]; [reflexivity|].
  cbn in Hrest. cbn [span_digits].
  destruct (is_digit c); [discriminate | reflexivity].
Qed.

Lemma to_uint_normal (p : positive) : Pos.to_uint p = unorm (Pos.to_uint p).
Proof.
  rewrite <- (DecimalPos.Unsigned.to_of (Pos.to_uint p)).
  now rewrite DecimalPos.Unsigned.of_to.
Qed.

Lemma to_uint_no_leading_zero (p : positive) (d : uint) :
  Pos.to_uint p <> D0 d.
Proof.
  intros H. pose proof (to_uint_normal p) as Hn. rewrite H in Hn.
  rewrite unorm_D0 in Hn. unfold unorm in Hn.
  destruct (nzhead d) eqn:Hd; try discriminate.
  - injection Hn as ->.
    now apply (DecimalPos.Unsigned.to_uint_nonzero p).
  - eapply nzhead_nonzero; eassumption.
Qed.

Lemma scan_uint_pos (p : positive) (rest : string) :
  no_digit_head rest = true ->
  scan_uint (NilEmpty.string_of_uint (Pos.to_uint p) ++ rest)
  = Some (Pos.to_uint p, rest).
Proof.
  intros Hrest.
  pose proof (span_digits_uint (Pos.to_uint p) rest Hrest) as Hspan.
  pose proof (NilEmpty.usu (Pos.to_uint p)) as Hus.
  pose proof (DecimalPos.Unsigned.to_uint_nonnil p) as Hnil.
  pose proof (to_uint_no_leading_zero p) as Hz.
  destruct (Pos.to_uint p) as [|u|u|u|u|u|u|u|u|u|u];
    try (now contradiction Hnil); try (now contradiction (Hz u));
    cbn [NilEmpty.string_of_uint append] in *;
    unfold scan_uint; cbn [Ascii.eqb Bool.eqb is_digit];
    rewrite Hspan, Hus; reflexivity.
Qed.

Lemma of_uint_to_uint (p : positive) : Z.of_uint (Pos.to_uint p) = Z.pos p.
Proof.
  unfold Z.of_uint. now rewrite DecimalPos.Unsigned.of_to.
Qed.

Lemma string_of_uint_pos (p : positive) :
  NilZero.string_of_uint (Pos.to_uint p)
  = NilEmpty.string_of_uint (Pos.to_uint p).
Proof.
  pose proof (DecimalPos.Unsigned.to_uint_nonnil p) as Hnil.
  unfold NilZero.string_of_uint.
  destruct (Pos.to_uint p); [now contradiction Hnil | reflexivity ..].
Qed.

(** The text of a positive number starts with a digit other than [0]. *)
Lemma string_of_uint_head (p : positive) :
  exists c r,
    NilEmpty.string_of_uint (Pos.to_uint p) = String c r
    /\ is_digit c = true /\ (c =? "0")%char = false.
Proof.
  pose proof (DecimalPos.Unsigned.to_uint_nonnil p) as Hnil.
  pose proof (to_uint_no_leading_zero p) as Hz.
  destruct (Pos.to_uint p) as [|u|u|u|u|u|u|u|u|u|u];
    try (now contradiction Hnil); try (now contradiction (Hz u));
    cbn [NilEmpty.string_of_uint]; eexists _, _; repeat split.
Qed.

Lemma ends_number_no_digit (rest : string) :
  ends_number rest = true -> no_digit_head rest = true.
Proof.
  destruct rest as [|c r]; [reflexivity|]. cbn [ends_number no_digit_head].
  destruct (is_digit c); [discriminate | reflexivity].
Qed.

Lemma scan_frac_ends (rest : string) :
  ends_number rest = true -> scan_frac rest = None.
Proof.
  destruct rest as [|c r]; [reflexivity|]. cbn [ends_number scan_frac].
  destruct (c =? ".")%char; [|reflexivity].
  now rewrite orb_true_r.
Qed.

Lemma scan_exp_ends (rest : string) :
  ends_number rest = true -> scan_exp rest = None.
Proof.
  destruct rest as [|c r]; [reflexivity|]. cbn [ends_number scan_exp].
  destruct (c =? "e")%char; [now rewrite ?orb_true_r|].
  destruct (c =? "E")%char; [now rewrite ?orb_true_r|].
  reflexivity.
Qed.

Lemma scan_number_encode_int (z : Z) (rest : string) :
  ends_number rest = true ->
  scan_number (encode_int z ++ rest) = Some (PyInt z, rest).
Proof.
  intros Hrest. pose proof (ends_number_no_digit rest Hrest) as Hd.
  unfold encode_int.
  destruct z as [|p|p]; cbn [Z.to_int NilZero.string_of_int].
  - cbn [NilZero.string_of_uint NilEmpty.string_of_uint Pos.to_uint
         append]. unfold scan_number. cbn [Ascii.eqb Bool.eqb scan_uint].
    now rewrite (scan_frac_ends rest Hrest), (scan_exp_ends rest Hrest).
  - rewrite string_of_uint_pos.
    destruct (string_of_uint_head p) as (c & r & Hc & Hdg & H0).
    pose proof (scan_uint_pos p rest Hd) as Hs.
    rewrite Hc in *. cbn [append] in *. unfold scan_number.
    replace (c =? "-")%char with false.
    + rewrite Hs, (scan_frac_ends rest Hrest), (scan_exp_ends rest Hrest).
      now rewrite of_uint_to_uint.
    + destruct c as [[] [] [] [] [] [] [] []]; try discriminate; reflexivity.
  - rewrite string_of_uint_pos. cbn [append]. unfold scan_number.
    cbn [Ascii.eqb Bool.eqb]. rewrite (scan_uint_pos p rest Hd).
    rewrite (scan_frac_ends rest Hrest), (scan_exp_ends rest Hrest).
    now rewrite of_uint_to_uint.
Qed.

Lemma encode_int_head (z : Z) :
  exists c r, encode_int z = String c r /\ number_head c = true.
Proof.
  unfold encode_int.
  destruct z as [|p|p]; cbn [Z.to_int NilZero.string_of_int].
  - now exists "0"%char, "".
  - rewrite string_of_uint_pos.
    destruct (string_of_uint_head p) as (c & r & Hc & Hd & _).
    exists c, r. unfold number_head. now rewrite Hd.
  - now eexists _, _.
Qed.

Lemma scan_once_number (fuel : nat) (c : ascii) (r : string) :
  number_head c = true ->
  scan_once (S fuel) (String c r)
  = match scan_number (String c r) with
    | Some vr => Some vr
    | None => scan_constant (String c r)
    end.
Proof.
  destruct c as [[] [] [] [] [] [] [] []]; try discriminate; reflexivity.
Qed.

Lemma scan_once_encode_int (fuel : nat) (z : Z) (rest : string) :
  ends_number rest = true ->
  scan_once (S fuel) (encode_int z ++ rest) = Some (PyInt z, rest).
Proof.
  intros Hrest.
  destruct (encode_int_head z) as (c & r & Hc & Hh).
  pose proof (scan_number_encode_int z rest Hrest) as Hs.
  rewrite Hc in *. cbn [append] in *.
  now rewrite (scan_once_number fuel c _ Hh), Hs.
Qed.

(** ** Floats *)

(** What follows a number literal is not read with it. *)
Lemma span_digits_app (a rest : string) :
  no_digit_head rest = true ->
  span_digits (a ++ rest)
  = (fst (span_digits a), snd (span_digits a) ++ rest).
Proof.
  intros Hrest. induction a as [|c a IH]; cbn [append span_digits].
  - destruct rest as [|c r]; [reflexivity|]. cbn in *.
    destruct (is_digit c); [discriminate | reflexivity].
  - destruct (is_digit c); [|reflexivity].
    rewrite IH. now destruct (span_digits a).
Qed.

Lemma scan_digits_app (a rest : string) :
  no_digit_head rest = true ->
  scan_digits (a ++ rest) = and_rest rest (scan_digits a).
Proof.
  intros Hrest. unfold scan_digits. rewrite (span_digits_app a rest Hrest).
  destruct (span_digits a) as [ds r]. cbn [fst snd].
  destruct ds; [reflexivity|].
  now destruct (NilEmpty.uint_of_string _).
Qed.

Lemma scan_uint_app (a rest : string) :
  no_digit_head rest = true ->
  scan_uint (a ++ rest) = and_rest rest (scan_uint a).
Proof.
  intros Hrest. destruct a as [|c a].
  - destruct rest as [|c r]; [reflexivity|]. cbn in *.
    destruct (is_digit c) eqn:Hd; [discriminate|].
    destruct (c =? "0")%char eqn:H0; [|reflexivity].
    apply Ascii.eqb_eq in H0. subst c. discriminate.
  - change (String c a ++ rest) with (String c (a ++ rest)).
    unfold scan_uint. destruct (c =? "0")%char; [reflexivity|].
    destruct (is_digit c); [|reflexivity].
    change (String c (a ++ rest)) with (String c a ++ rest).
    rewrite (span_digits_app _ rest Hrest).
    destruct (span_digits (String c a)) as [ds r]. cbn [fst snd].
    now destruct (NilEmpty.uint_of_string ds).
Qed.

Lemma scan_frac_app (a rest : string) :
  ends_number rest = true ->
  scan_frac (a ++ rest) = and_rest rest (scan_frac a).
Proof.
  intros Hrest. destruct a as [|c a].
  - cbn [append]. now rewrite (scan_frac_ends rest Hrest).
  - cbn [append scan_frac]. destruct (c =? ".")%char; [|reflexivity].
    apply scan_digits_app. now apply ends_number_no_digit.
Qed.

Lemma scan_digits_ends (rest : string) :
  no_digit_head rest = true -> scan_digits rest = None.
Proof.
  intros H. unfold scan_digits. destruct rest as [|c r]; [reflexivity|].
  cbn in *. destruct (is_digit c); [discriminate | reflexivity].
Qed.

Lemma ends_number_sign (c : ascii) (r : string) :
  ends_number (String c r) = true ->
  (c =? "-")%char = false /\ (c =? "+")%char = false.
Proof.
  cbn [ends_number]. intros H. apply negb_true_iff in H.
  repeat (apply orb_false_elim in H as [H ?]). now split.
Qed.

Lemma scan_exp_app (a rest : string) :
  ends_number rest = true ->
  scan_exp (a ++ rest) = and_rest rest (scan_exp a).
Proof.
  intros Hrest. pose proof (ends_number_no_digit rest Hrest) as Hd.
  destruct a as [|c a].
  - cbn [append]. now rewrite (scan_exp_ends rest Hrest).
  - cbn [append scan_exp].
    destruct ((c =? "e") || (c =? "E"))%char; [|reflexivity].
    destruct a as [|sg a].
    + cbn [append]. destruct rest as [|sg r]; [reflexivity|].
      destruct (ends_number_sign sg r Hrest) as [-> ->].
      now rewrite (scan_digits_ends _ Hd).
    + cbn [append]. rewrite !(scan_digits_app a rest Hd).
      change (String sg (a ++ rest)) with (String sg a ++ rest).
      rewrite (scan_digits_app (String sg a) rest Hd).
      destruct (sg =? "-")%char; [now destruct (scan_digits a) as [[]|]|].
      destruct (sg =? "+")%char; [now destruct (scan_digits a) as [[]|]|].
      now destruct (scan_digits (String sg a)) as [[]|].
Qed.

Lemma scan_number_app (a rest : string) :
  ends_number rest = true ->
  scan_number (a ++ rest) = and_rest rest (scan_number a).
Proof.
  intros Hrest. pose proof (ends_number_no_digit rest Hrest) as Hd.
  destruct a as [|c a].
  - cbn [append]. unfold scan_number at 2. cbn [scan_uint and_rest].
    destruct rest as [|c r]; [reflexivity|].
    destruct (ends_number_sign c r Hrest) as [Hm _].
    unfold scan_number. rewrite Hm.
    pose proof (scan_uint_app "" (String c r) Hd) as Hu.
    change (scan_uint (String c r) = None) in Hu. now rewrite Hu.
  - change (String c a ++ rest) with (String c (a ++ rest)).
    unfold scan_number.
    assert (Hs1 : scan_uint (if (c =? "-")%char then a ++ rest
                             else String c (a ++ rest))
                  = and_rest rest (scan_uint (if (c =? "-")%char then a
                                              else String c a))).
    { destruct (c =? "-")%char; [now apply scan_uint_app|].
      change (String c (a ++ rest)) with (String c a ++ rest).
      now apply scan_uint_app. }
    rewrite Hs1.
    destruct (scan_uint (if (c =? "-")%char then a else String c a))
      as [[u r1]|]; [|reflexivity].
    cbn [and_rest]. rewrite (scan_frac_app r1 rest Hrest).
    destruct (scan_frac r1) as [[fu r2]|]; cbn [and_rest].
    + rewrite (scan_exp_app r2 rest Hrest).
      now destruct (scan_exp r2) as [[ex r3]|].
    + rewrite (scan_exp_app r1 rest Hrest).
      now destruct (scan_exp r1) as [[ex r3]|].
Qed.

Lemma scan_number_head (s : string) (vr : pyvalue * string) :
  scan_number s = Some vr ->
  exists c r, s = String c r /\ number_head c = true.
Proof.
  destruct s as [|c r]; [discriminate|]. intros H.
  exists c, r. split; [reflexivity|]. unfold number_head.
  unfold scan_number in H.
  destruct (c =? "-")%char; [now rewrite orb_true_r|].
  unfold scan_uint in H.
  destruct (c =? "0")%char eqn:H0.
  { apply Ascii.eqb_eq in H0. now subst c. }
  destruct (is_digit c); [reflexivity | discriminate].
Qed.

Lemma reads_as_scan (x : float) (t rest : string) :
  reads_as x t = true -> ends_number rest = true ->
  scan_number (t ++ rest) = Some (PyFloat x, rest).
Proof.
  unfold reads_as. intros H Hrest. rewrite (scan_number_app t rest Hrest).
  destruct (scan_number t) as [[v r]|]; [|discriminate].
  destruct v; try discriminate. destruct r; [|discriminate].
  now apply float_eqb_eq in H as ->.
Qed.

Lemma float_eqb_refl (x : float) : float_eqb x x = true.
Proof.
  destruct x as [|a|a m e]; cbn [float_eqb]; [reflexivity| |].
  - now destruct a.
  - rewrite !Z.eqb_refl. now destruct a.
Qed.

Lemma scan_digits_pos (p : positive) :
  scan_digits (NilEmpty.string_of_uint (Pos.to_uint p))
  = Some (Pos.to_uint p, "").
Proof.
  unfold scan_digits.
  pose proof (span_digits_uint (Pos.to_uint p) "" eq_refl) as Hs.
  rewrite append_nil_r in Hs. rewrite Hs.
  destruct (string_of_uint_head p) as (c & r & Hc & _).
  rewrite Hc. rewrite <- Hc. now rewrite NilEmpty.usu.
Qed.

Lemma scan_exp_encode_int (k : Z) :
  scan_exp (String "e" (encode_int k)) = Some (k, "").
Proof.
  unfold encode_int.
  destruct k as [|q|q]; cbn [Z.to_int NilZero.string_of_int].
  - reflexivity.
  - rewrite string_of_uint_pos.
    pose proof (scan_digits_pos q) as Hs.
    destruct (string_of_uint_head q) as (c & r & Hc & Hd & _).
    rewrite Hc in *. cbn [scan_exp Ascii.eqb Bool.eqb orb].
    replace (c =? "-")%char with false
      by (destruct c as [[] [] [] [] [] [] [] []]; try discriminate;
          reflexivity).
    replace (c =? "+")%char with false
      by (destruct c as [[] [] [] [] [] [] [] []]; try discriminate;
          reflexivity).
    now rewrite Hs, of_uint_to_uint.
  - rewrite string_of_uint_pos. cbn [append scan_exp Ascii.eqb Bool.eqb orb].
    now rewrite scan_digits_pos, of_uint_to_uint.
Qed.

(** A float written in full is read as written. *)
Lemma scan_number_exact (neg : bool) (D k : Z) :
  (0 < D)%Z ->
  scan_number ((if neg then "-" else "") ++ encode_int D
               ++ "e" ++ encode_int k)
  = Some (PyFloat (float_of_decimal neg D k), "").
Proof.
  intros HD. destruct D as [|p|p]; try lia.
  unfold encode_int at 1. cbn [Z.to_int NilZero.string_of_int].
  rewrite string_of_uint_pos.
  pose proof (scan_uint_pos p ("e" ++ encode_int k) eq_refl) as Hu.
  pose proof (scan_exp_encode_int k) as He.
  cbn [append] in Hu.
  destruct (string_of_uint_head p) as (c & r & Hc & Hd & _).
  destruct neg; cbn [append]; unfold scan_number.
  - change ("-" =? "-")%char with true. cbv iota.
    rewrite Hu. cbn [scan_frac].
    change ("e" =? ".")%char with false. cbv iota.
    now rewrite He, of_uint_to_uint.
  - rewrite Hc in *. cbn [append] in *.
    replace (c =? "-")%char with false
      by (destruct c as [[] [] [] [] [] [] [] []]; try discriminate;
          reflexivity).
    rewrite Hu. cbn [scan_frac].
    change ("e" =? ".")%char with false. cbv iota.
    now rewrite He, of_uint_to_uint.
Qed.

Lemma canonical_zero (e : Z) : canonical 0 e = true -> e = (-1074)%Z.
Proof.
  unfold canonical. intros H. apply andb_prop in H as [_ H].
  apply orb_prop in H as [H|H]; [discriminate | now apply Z.eqb_eq in H].
Qed.

Lemma canonical_nonneg (m e : Z) : canonical m e = true -> (0 <= m)%Z.
Proof.
  unfold canonical. intros H.
  do 4 apply andb_prop in H as [H _]. now apply Z.leb_le in H.
Qed.

Lemma exact_decimal_pos (m e : Z) :
  (0 < m)%Z -> (0 < fst (exact_decimal m e))%Z.
Proof.
  intros Hm. unfold exact_decimal.
  destruct (Z.leb_spec 0 e) as [He|He]; cbn [fst].
  - pose proof (pow2_pos e He). nia.
  - assert (0 < 5 ^ (- e))%Z by (apply Z.pow_pos_nonneg; lia). nia.
Qed.

(** [repr] writes a float as a literal that reads back as the float. *)
Lemma float_repr_reads (neg : bool) (m e : Z) :
  canonical m e = true ->
  reads_as (FFin neg m e) (float_repr neg m e) = true.
Proof.
  intros Hc. pose proof (canonical_nonneg m e Hc) as Hm.
  unfold float_repr.
  destruct (Z.eqb_spec m 0) as [->|Hne].
  - apply canonical_zero in Hc as ->. now destruct neg.
  - match goal with
    | |- reads_as _ (if reads_as ?x ?t then _ else _) = true =>
        destruct (reads_as x t) eqn:Hr; [exact Hr|]
    end.
    unfold reads_as.
    rewrite (scan_number_exact neg _ _ (exact_decimal_pos m e ltac:(lia))).
    rewrite (float_of_decimal_exact neg m e ltac:(lia) Hc).
    apply float_eqb_refl.
Qed.

Lemma scan_once_floatstr (fuel : nat) (x : float) (rest : string) :
  float_valid x = true -> ends_number rest = true ->
  scan_once (S fuel) (floatstr x ++ rest) = Some (PyFloat x, rest).
Proof.
  intros Hv Hrest. destruct x as [|[]|neg m e]; try reflexivity.
  cbn [floatstr float_valid] in *.
  pose proof (reads_as_scan _ _ rest (float_repr_reads neg m e Hv) Hrest)
    as Hs.
  destruct (scan_number_head _ _ Hs) as (c & r & Hc & Hh).
  rewrite Hc in *. now rewrite (scan_once_number fuel c r Hh), Hs.
Qed.

Lemma floatstr_head (x : float) :
  exists c r,
    floatstr x = String c r
    /\ (number_head c || (c =? "N") || (c =? "I"))%char = true.
Proof.
  destruct x as [|[]|neg m e]; try (eexists _, _; split; reflexivity).
  cbn [floatstr]. unfold float_repr.
  destruct (m =? 0)%Z; [destruct neg; eexists _, _; split; reflexivity|].
  match goal with
  | |- context [if reads_as ?x ?t then _ else _] =>
      destruct (reads_as x t) eqn:Hr
  end.
  - unfold reads_as in Hr.
    match type of Hr with
    | match scan_number ?t with _ => _ end = _ =>
        destruct (scan_number t) as [vr|] eqn:Hs; [|discriminate]
    end.
    destruct (scan_number_head _ _ Hs) as (c & r & -> & Hh).
    exists c, r. split; [reflexivity | now rewrite Hh].
  - destruct neg; [eexists _, _; split; reflexivity|].
    cbn [append].
    destruct (encode_int_head (fst (exact_decimal m e)))
      as (c & r & -> & Hh).
    eexists _, _. split; [reflexivity | now rewrite Hh].
Qed.

(** ** Dicts *)

Lemma str_eqb_spec (a b : pystr) : reflect (a = b) (str_eqb a b).
Proof.
  revert b. induction a as [|x a IH]; intros [|y b]; cbn [str_eqb];
    try (constructor; congruence).
  destruct (N.eqb_spec x y) as [->|Hne]; cbn [andb].
  - destruct (IH b) as [->|Hne]; constructor; congruence.
  - constructor. congruence.
Qed.

Lemma str_eqb_refl (a : pystr) : str_eqb a a = true.
Proof. now destruct (str_eqb_spec a a). Qed.

Lemma dict_set_fresh (acc d : list (pystr * pyvalue)) k v :
  distinct (map fst (acc ++ (k, v) :: d)%list) = true ->
  dict_set acc k v = (acc ++ [(k, v)])%list.
Proof.
  induction acc as [|[k' v'] acc IH]; intros H; [reflexivity|].
  simpl in H. apply andb_prop in H as [Hk H].
  simpl.
  destruct (str_eqb_spec k' k) as [->|Hne].
  - rewrite map_app in Hk. rewrite existsb_app in Hk.
    cbn [map existsb fst] in Hk.
    rewrite str_eqb_refl in Hk. cbn in Hk.
    now rewrite orb_true_r in Hk.
  - now rewrite IH.
Qed.

Lemma dict_of_pairs_from (d acc : list (pystr * pyvalue)) :
  distinct (map fst (acc ++ d)%list) = true ->
  fold_left (fun d kv => dict_set d (fst kv) (snd kv)) d acc
  = (acc ++ d)%list.
Proof.
  revert acc. induction d as [|[k v] d IH]; intros acc H.
  - now rewrite List.app_nil_r.
  - cbn [fold_left fst snd]. rewrite (dict_set_fresh acc d k v H).
    rewrite IH; rewrite <- List.app_assoc; [reflexivity | exact H].
Qed.

Lemma dict_of_pairs_distinct (d : list (pystr * pyvalue)) :
  distinct (map fst d) = true -> dict_of_pairs d = d.
Proof. intros H. unfold dict_of_pairs. now rewrite dict_of_pairs_from. Qed.

(** ** Values *)

Lemma starts_value_number (c : ascii) (r : string) :
  number_head c = true -> starts_value (String c r) = true.
Proof.
  destruct c as [[] [] [] [] [] [] [] []]; try discriminate; reflexivity.
Qed.

Lemma starts_value_dumps (v : pyvalue) (t : string) :
  starts_value (dumps v ++ t) = true.
Proof.
  destruct v as [|[]|z|x|s|l|l|d]; try reflexivity.
  - cbn [dumps]. destruct (encode_int_head z) as (c & r & -> & Hc).
    cbn [append]. now apply starts_value_number.
  - cbn [dumps]. destruct (floatstr_head x) as (c & r & -> & Hc).
    cbn [append starts_value].
    destruct c as [[] [] [] [] [] [] [] []]; try discriminate; reflexivity.
Qed.

Lemma skip_ws_starts_value (s : string) :
  starts_value s = true -> skip_ws s = s.
Proof.
  destruct s as [|c r]; [discriminate|]. cbn.
  destruct (is_ws c); [discriminate | reflexivity].
Qed.

Lemma concat_cons2 (sep a b : string) (l : list string) :
  String.concat sep (a :: b :: l) = a ++ sep ++ String.concat sep (b :: l).
Proof. reflexivity. Qed.

Lemma starts_value_concat (x : pyvalue) (l : list pyvalue) (t : string) :
  starts_value (String.concat ", " (map dumps (x :: l)) ++ t) = true.
Proof.
  destruct l as [|y l]; cbn [map].
  - cbn [String.concat]. apply starts_value_dumps.
  - rewrite concat_cons2, append_assoc. apply starts_value_dumps.
Qed.

Lemma scan_once_array_eq (fuel : nat) (r : string) :
  scan_once (S fuel) (String "[" r) =
  match skip_ws r with
  | EmptyString => None
  | String c1 r1 =>
      if (c1 =? "]")%char then Some (PyList [], r1)
      else
        match JSONArray_values fuel (String c1 r1) with
        | Some (l, rest) => Some (PyList l, rest)
        | None => None
        end
  end.
Proof. reflexivity. Qed.

Lemma scan_once_object_eq (fuel : nat) (r : string) :
  scan_once (S fuel) (String "{" r) =
  match skip_ws r with
  | EmptyString => None
  | String c1 r1 =>
      if (c1 =? "}")%char then Some (PyDict [], r1)
      else
        match JSONObject_pairs fuel (String c1 r1) with
        | Some (pairs, rest) => Some (PyDict (dict_of_pairs pairs), rest)
        | None => None
        end
  end.
Proof. reflexivity. Qed.

Lemma JSONArray_values_eq (fuel : nat) (s : string) :
  JSONArray_values (S fuel) s =
  match scan_once fuel s with
  | None => None
  | Some (v, r) =>
      match skip_ws r with
      | EmptyString => None
      | String c r1 =>
          if (c =? "]")%char then Some ([v], r1)
          else if (c =? ",")%char then
            match JSONArray_values fuel (skip_ws r1) with
            | Some (l, rest) => Some (v :: l, rest)
            | None => None
            end
          else None
      end
  end.
Proof. reflexivity. Qed.

Lemma JSONObject_pairs_eq (fuel : nat) (r : string) :
  JSONObject_pairs (S fuel) (String dquote r) =
  match scanstring r with
  | None => None
  | Some (key, r1) =>
      match skip_ws r1 with
      | EmptyString => None
      | String c1 r2 =>
          if (c1 =? ":")%char then
            match scan_once fuel (skip_ws r2) with
            | None => None
            | Some (v, r3) =>
                match skip_ws r3 with
                | EmptyString => None
                | String c2 r4 =>
                    if (c2 =? "}")%char then Some ([(key, v)], r4)
                    else if (c2 =? ",")%char then
                      match JSONObject_pairs fuel (skip_ws r4) with
                      | Some (ps, rest) => Some ((key, v) :: ps, rest)
                      | None => None
                      end
                    else None
                end
            end
          else None
      end
  end.
Proof. reflexivity. Qed.

Lemma array_reads_back (l : list pyvalue) :
  Forall reads_back l -> forallb json_native l = true -> l <> [] ->
  forall fuel rest,
    list_sum (map (fun x => S (cost x)) l) <= fuel ->
    JSONArray_values fuel
      (String.concat ", " (map dumps l) ++ String "]" rest)
    = Some (l, rest).
Proof.
  induction 1 as [|x l Hx Hl IH]; intros Hn Hne fuel rest Hfuel;
    [congruence|].
  cbn [forallb] in Hn. apply andb_prop in Hn as [Hnx Hnl].
  simpl in Hfuel.
  destruct fuel as [|fuel]; [lia|]. rewrite JSONArray_values_eq.
  destruct l as [|y l].
  - cbn [map String.concat].
    rewrite (Hx Hnx fuel (String "]" rest)); [reflexivity | cbn in *; lia
                                             | reflexivity].
  - cbn [map]. rewrite concat_cons2, !append_assoc. cbn [append].
    rewrite (Hx Hnx fuel); [| lia | reflexivity].
    cbn [skip_ws is_ws Ascii.eqb Bool.eqb orb].
    rewrite skip_ws_starts_value
      by (apply (starts_value_concat y l)).
    change (dumps y :: map dumps l) with (map dumps (y :: l)).
    rewrite IH; [reflexivity | exact Hnl | discriminate | lia].
Qed.

Lemma starts_value_pairs (kv : pystr * pyvalue)
    (d : list (pystr * pyvalue)) (t : string) :
  starts_value (String.concat ", " (map encode_pair (kv :: d)) ++ t) = true.
Proof.
  destruct kv as [k x]. destruct d as [|kv' d]; reflexivity.
Qed.

Lemma pairs_head (kv : pystr * pyvalue) (d : list (pystr * pyvalue))
    (t : string) :
  exists r,
    String.concat ", " (map encode_pair (kv :: d)) ++ t = String dquote r.
Proof.
  destruct kv as [k x]. destruct d as [|kv' d]; eexists; reflexivity.
Qed.

Lemma object_reads_back (d : list (pystr * pyvalue)) :
  Forall (fun kv => reads_back (snd kv)) d ->
  forallb (fun kv => str_native (fst kv) && json_native (snd kv)) d = true ->
  d <> [] ->
  forall fuel rest,
    list_sum (map (fun kv => S (cost (snd kv))) d) <= fuel ->
    JSONObject_pairs fuel
      (String.concat ", " (map encode_pair d) ++ String "}" rest)
    = Some (d, rest).
Proof.
  induction 1 as [|[k x] d Hx Hd IH]; intros Hn Hne fuel rest Hfuel;
    [congruence|].
  cbn [forallb fst snd] in Hn. apply andb_prop in Hn as [Hnx Hnd].
  apply andb_prop in Hnx as [Hnk Hnx].
  pose proof Hnk as Hkv. unfold str_native in Hkv.
  apply andb_prop in Hkv as [Hkv Hkp].
  simpl in Hfuel. cbn [snd] in Hx.
  destruct fuel as [|fuel]; [lia|].
  destruct d as [|kv d].
  - cbn [map String.concat encode_pair]. unfold encode_str.
    cbn [append]. rewrite JSONObject_pairs_eq.
    rewrite !append_assoc. cbn [append].
    rewrite (scanstring_escape k _ Hkv), (join_pairs_no_pair k Hkp).
    cbn [skip_ws is_ws Ascii.eqb Bool.eqb orb].
    rewrite skip_ws_starts_value by apply starts_value_dumps.
    rewrite (Hx Hnx fuel (String "}" rest)); [reflexivity | cbn in *; lia
                                             | reflexivity].
  - cbn [map]. rewrite concat_cons2. cbn [encode_pair]. unfold encode_str.
    cbn [append]. rewrite JSONObject_pairs_eq.
    rewrite !append_assoc. cbn [append].
    rewrite (scanstring_escape k _ Hkv), (join_pairs_no_pair k Hkp).
    cbn [skip_ws is_ws Ascii.eqb Bool.eqb orb].
    rewrite skip_ws_starts_value by apply starts_value_dumps.
    rewrite (Hx Hnx fuel); [| lia | reflexivity].
    cbn [skip_ws is_ws Ascii.eqb Bool.eqb orb].
    rewrite skip_ws_starts_value
      by (apply (starts_value_pairs kv d)).
    change (encode_pair kv :: map encode_pair d)
      with (map encode_pair (kv :: d)).
    rewrite IH; [reflexivity | exact Hnd | discriminate | lia].
Qed.

Lemma dumps_list_eq (l : list pyvalue) :
  dumps (PyList l) = String "[" (String.concat ", " (map dumps l) ++ "]").
Proof. reflexivity. Qed.

Lemma dumps_dict_eq (d : list (pystr * pyvalue)) :
  dumps (PyDict d)
  = String "{" (String.concat ", " (map encode_pair d) ++ "}").
Proof. reflexivity. Qed.

(** Every JSON-native value is read back from its text. *)
Lemma scan_once_dumps (v : pyvalue) : reads_back v.
Proof.
  induction v as [|b|z|x|s|l IH|l IH|d IH] using pyvalue_nested_ind;
    intros Hn fuel rest Hfuel Hrest;
    (destruct fuel as [|fuel]; [simpl in Hfuel; lia|]).
  - reflexivity.
  - destruct b; reflexivity.
  - now apply scan_once_encode_int.
  - now apply scan_once_floatstr.
  - cbn [json_native] in Hn. unfold str_native in Hn.
    apply andb_prop in Hn as [Hv Hp]. cbn [dumps].
    now rewrite (scan_once_encode_str fuel s rest Hv), join_pairs_no_pair.
  - rewrite dumps_list_eq. cbn [append]. rewrite scan_once_array_eq.
    destruct l as [|x l]; [reflexivity|].
    rewrite append_assoc. cbn [append].
    pose proof (starts_value_concat x l (String "]" rest)) as Hs.
    rewrite (skip_ws_starts_value _ Hs).
    destruct (String.concat ", " (map dumps (x :: l)) ++ String "]" rest)
      as [|c1 r1] eqn:Htext; [discriminate|].
    cbn [starts_value] in Hs.
    destruct (c1 =? "]")%char;
      [now rewrite andb_false_r in Hs|].
    rewrite <- Htext.
    rewrite (array_reads_back (x :: l) IH Hn); [reflexivity | discriminate|].
    simpl in Hfuel. simpl. lia.
  - discriminate.
  - rewrite dumps_dict_eq. cbn [append]. rewrite scan_once_object_eq.
    cbn [json_native] in Hn. apply andb_prop in Hn as [Hk Hn].
    destruct d as [|kv d]; [reflexivity|].
    rewrite append_assoc. cbn [append].
    pose proof (starts_value_pairs kv d (String "}" rest)) as Hs.
    rewrite (skip_ws_starts_value _ Hs).
    destruct (String.concat ", " (map encode_pair (kv :: d))
                ++ String "}" rest) as [|c1 r1] eqn:Htext; [discriminate|].
    cbn [starts_value] in Hs.
    destruct (c1 =? "}")%char;
      [now rewrite andb_false_r in Hs|].
    rewrite <- Htext.
    rewrite (object_reads_back (kv :: d) IH Hn); [| discriminate|].
    + now rewrite dict_of_pairs_distinct.
    + simpl in Hfuel. simpl. lia.
Qed.

(** ** What [json] makes of a str *)









(** ** The recursion stays within the length of the text *)

Lemma length_dumps_pos (v : pyvalue) : 1 <= String.length (dumps v).
Proof.
  pose proof (starts_value_dumps v "") as H. rewrite append_nil_r in H.
  destruct (dumps v); [discriminate | cbn; lia].
Qed.

Lemma cost_concat (l : list pyvalue) :
  Forall (fun x => cost x <= String.length (dumps x)) l ->
  list_sum (map (fun x => S (cost x)) l)
  <= S (String.length (String.concat ", " (map dumps l))).
Proof.
  induction 1 as [|x l Hx Hl IH]; [simpl; lia|].
  destruct l as [|y l].
  - simpl. lia.
  - cbn [map] in *. rewrite concat_cons2, !length_append.
    simpl list_sum in *. simpl String.length at 2. lia.
Qed.

Lemma cost_pairs (d : list (pystr * pyvalue)) :
  Forall (fun kv => cost (snd kv) <= String.length (dumps (snd kv))) d ->
  list_sum (map (fun kv => S (cost (snd kv))) d)
  <= S (String.length (String.concat ", " (map encode_pair d))).
Proof.
  induction 1 as [|[k x] d Hx Hd IH]; [simpl; lia|].
  cbn [snd] in Hx.
  assert (Hp : S (cost x) <= String.length (encode_pair (k, x))).
  { cbn [encode_pair]. rewrite !length_append. simpl. lia. }
  destruct d as [|kv d].
  - cbn [map String.concat]. simpl list_sum. cbn [snd]. lia.
  - cbn [map] in *. rewrite concat_cons2, !length_append.
    simpl list_sum in *. cbn [snd]. simpl String.length at 2. lia.
Qed.

Lemma cost_le_length (v : pyvalue) : cost v <= String.length (dumps v).
Proof.
  induction v as [|b|z|x|s|l IH|l IH|d IH] using pyvalue_nested_ind;
    try apply length_dumps_pos.
  - rewrite dumps_list_eq. cbn [cost String.length].
    rewrite length_append. pose proof (cost_concat l IH). simpl. lia.
  - change (dumps (PyTuple l)) with (dumps (PyList l)).
    rewrite dumps_list_eq. cbn [cost String.length].
    rewrite length_append. pose proof (cost_concat l IH). simpl. lia.
  - rewrite dumps_dict_eq. cbn [cost String.length].
    rewrite length_append. pose proof (cost_pairs d IH). simpl. lia.
Qed.

(** [json.loads(json.dumps(v)) = v] for every JSON-native [v]. *)
Lemma loads_dumps (v : pyvalue) :
  json_native v = true -> loads (dumps v) = Some v.
Proof.
  intros Hn. unfold loads.
  rewrite skip_ws_starts_value.
  - rewrite <- (append_nil_r (dumps v)) at 2.
    rewrite (scan_once_dumps v Hn); [reflexivity | apply cost_le_length
                                    | reflexivity].
  - rewrite <- (append_nil_r (dumps v)). apply starts_value_dumps.
Qed.

(** A tuple is written as a list is. *)
Lemma dumps_tuple (l : list pyvalue) : dumps (PyTuple l) = dumps (PyList l).
Proof. reflexivity. Qed.

(** ** The decoder never hands out more than it read *)

Lemma length_skip_ws (s : string) :
  String.length (skip_ws s) <= String.length s.
Proof.
  induction s as [|c s IH]; [apply le_n|]. cbn.
  destruct (is_ws c); cbn; lia.
Qed.

Lemma length_prepend (c : N) (o : option (pystr * string))
    (x : pystr) (r : string) (n : nat) :
  (forall x' r', o = Some (x', r') ->
                 List.length x' + 1 + String.length r' <= n) ->
  prepend c o = Some (x, r) ->
  List.length x + 1 + String.length r <= S n.
Proof.
  intros Hb H. destruct o as [[x' r']|]; [|discriminate].
  injection H as <- <-. specialize (Hb _ _ eq_refl). cbn [List.length]. lia.
Qed.

Lemma length_scanstring_bounded (n : nat) :
  forall s x r,
    String.length s <= n ->
    scanstring s = Some (x, r) ->
    List.length x + 1 + String.length r <= String.length s.
Proof.
  induction n as [|n IH]; intros s x r Hn H.
  - destruct s; [discriminate | cbn in Hn; lia].
  - destruct s as [|c s]; [discriminate|].
    cbn [scanstring] in H. cbn [String.length] in *.
    destruct (c =? dquote)%char.
    { injection H as <- <-. cbn. lia. }
    destruct (c =? backslash)%char.
    + destruct s as [|e s]; [discriminate|]. cbn [String.length] in *.
      destruct (e =? "u")%char.
      * destruct s as [|h1 [|h2 [|h3 [|h4 s]]]]; try discriminate.
        cbn [String.length] in *.
        destruct (hex4_value h1 h2 h3 h4) as [uni|]; [|discriminate].
        assert (Hone : forall x r,
                   prepend uni (scanstring s) = Some (x, r) ->
                   List.length x + 1 + String.length r
                   <= S (S (S (S (S (S (String.length s))))))).
        { intros x0 r0 H0.
          apply (length_prepend _ _ _ _ (String.length s)) in H0; [lia|].
          intros x' r' Hs. apply IH in Hs; [exact Hs | lia]. }
        destruct s as [|b [|u [|g1 [|g2 [|g3 [|g4 s']]]]]];
          try (now apply Hone).
        destruct (is_high uni && (b =? backslash)%char && (u =? "u")%char);
          [|now apply Hone].
        destruct (hex4_value g1 g2 g3 g4) as [uni2|]; [|discriminate].
        destruct (is_low uni2); [|now apply Hone].
        apply (length_prepend _ _ _ _ (String.length s')) in H.
        { cbn [String.length]. lia. }
        intros x' r' Hs. apply IH in Hs; [exact Hs|].
        cbn [String.length] in Hn. lia.
      * destruct (unescape e) as [ch|]; [|discriminate].
        apply (length_prepend _ _ _ _ (String.length s)) in H; [lia|].
        intros x' r' Hs. apply IH in Hs; [exact Hs | lia].
    + destruct (N_of_ascii c <? 32)%N; [discriminate|].
      apply (length_prepend _ _ _ _ (String.length s)) in H; [lia|].
      intros x' r' Hs. apply IH in Hs; [exact Hs | lia].
Qed.

Lemma length_scanstring (s : string) (x : pystr) (r : string) :
  scanstring s = Some (x, r) ->
  List.length x + 1 + String.length r <= String.length s.
Proof. apply (length_scanstring_bounded (String.length s)), le_n. Qed.

Lemma length_span_digits (s ds r : string) :
  span_digits s = (ds, r) -> String.length r <= String.length s.
Proof.
  revert ds r. induction s as [|c s IH]; intros ds r H.
  - injection H as <- <-. apply le_n.
  - cbn [span_digits] in H. destruct (is_digit c).
    + destruct (span_digits s) as [ds' r'] eqn:Hs.
      injection H as <- <-. specialize (IH _ _ eq_refl). cbn. lia.
    + injection H as <- <-. apply le_n.
Qed.

Lemma length_scan_uint (s r : string) (u : uint) :
  scan_uint s = Some (u, r) -> String.length r <= String.length s.
Proof.
  destruct s as [|c s]; [discriminate|]. unfold scan_uint.
  destruct (c =? "0")%char.
  { intros [= <- <-]. cbn. lia. }
  destruct (is_digit c); [|discriminate].
  destruct (span_digits (String c s)) as [ds r'] eqn:Hs.
  destruct (NilEmpty.uint_of_string ds); [|discriminate].
  intros [= <- <-]. now apply length_span_digits in Hs.
Qed.

Lemma length_strip_prefix (p s r : string) :
  strip_prefix p s = Some r -> String.length r <= String.length s.
Proof.
  revert s. induction p as [|a p IH]; intros s H.
  - injection H as ->. apply le_n.
  - destruct s as [|b s]; [discriminate|]. cbn [strip_prefix] in H.
    destruct (a =? b)%char; [|discriminate].
    apply IH in H. cbn. lia.
Qed.

Lemma length_scan_digits (s r : string) (u : uint) :
  scan_digits s = Some (u, r) -> String.length r <= String.length s.
Proof.
  unfold scan_digits. destruct (span_digits s) as [ds r'] eqn:Hs.
  apply length_span_digits in Hs. destruct ds; [discriminate|].
  destruct (NilEmpty.uint_of_string _); [|discriminate].
  now intros [= <- <-].
Qed.

Lemma length_scan_frac (s r : string) (u : uint) :
  scan_frac s = Some (u, r) -> String.length r <= String.length s.
Proof.
  destruct s as [|c s]; [discriminate|]. cbn [scan_frac].
  destruct (c =? ".")%char; [|discriminate].
  intros H. apply length_scan_digits in H. cbn. lia.
Qed.

Lemma length_scan_exp (s r : string) (z : Z) :
  scan_exp s = Some (z, r) -> String.length r <= String.length s.
Proof.
  destruct s as [|c s]; [discriminate|]. cbn [scan_exp].
  destruct ((c =? "e") || (c =? "E"))%char; [|discriminate].
  destruct s as [|sg s]; [discriminate|].
  destruct (sg =? "-")%char; [|destruct (sg =? "+")%char].
  - destruct (scan_digits s) as [[u r']|] eqn:Hs; [|discriminate].
    intros [= <- <-]. apply length_scan_digits in Hs. cbn. lia.
  - destruct (scan_digits s) as [[u r']|] eqn:Hs; [|discriminate].
    intros [= <- <-]. apply length_scan_digits in Hs. cbn. lia.
  - destruct (scan_digits (String sg s)) as [[u r']|] eqn:Hs;
      [|discriminate].
    intros [= <- <-]. apply length_scan_digits in Hs. cbn in *. lia.
Qed.

Lemma scan_number_bounded (s r : string) (v : pyvalue) :
  scan_number s = Some (v, r) ->
  String.length r <= String.length s /\ is_number v.
Proof.
  unfold scan_number.
  set (s1 := match s with
             | String c r0 => if (c =? "-")%char then r0 else s
             | EmptyString => s
             end).
  assert (H1 : String.length s1 <= String.length s).
  { destruct s as [|c s]; [apply le_n|]. subst s1.
    destruct (c =? "-")%char; cbn; lia. }
  destruct (scan_uint s1) as [[u r1]|] eqn:Hu; [|discriminate].
  apply length_scan_uint in Hu.
  destruct (scan_frac r1) as [[fu r2]|] eqn:Hf.
  - apply length_scan_frac in Hf.
    destruct (scan_exp r2) as [[ex r3]|] eqn:He.
    + apply length_scan_exp in He. intros [= <- <-].
      split; [lia | right; now eexists].
    + intros [= <- <-]. split; [lia | right; now eexists].
  - destruct (scan_exp r1) as [[ex r3]|] eqn:He.
    + apply length_scan_exp in He. intros [= <- <-].
      split; [lia | right; now eexists].
    + intros [= <- <-]. split; [lia | left; now eexists].
Qed.

Lemma scan_constant_bounded (s r : string) (v : pyvalue) :
  scan_constant s = Some (v, r) ->
  String.length r <= String.length s /\ is_number v.
Proof.
  unfold scan_constant.
  destruct (strip_prefix "NaN" s) as [r0|] eqn:H1.
  { intros [= <- <-]. apply length_strip_prefix in H1.
    split; [exact H1 | right; now eexists]. }
  destruct (strip_prefix "Infinity" s) as [r0|] eqn:H2.
  { intros [= <- <-]. apply length_strip_prefix in H2.
    split; [exact H2 | right; now eexists]. }
  destruct (strip_prefix "-Infinity" s) as [r0|] eqn:H3; [|discriminate].
  intros [= <- <-]. apply length_strip_prefix in H3.
  split; [exact H3 | right; now eexists].
Qed.

Lemma in_dict_set (d : list (pystr * pyvalue)) (k : pystr) (v : pyvalue)
    (kv : pystr * pyvalue) :
  In kv (dict_set d k v) -> In kv d \/ kv = (k, v).
Proof.
  induction d as [|[k' v'] d IH]; cbn [dict_set].
  - intros [<-|[]]. now right.
  - destruct (str_eqb_spec k' k) as [->|Hne].
    + intros [<-|H]; [now right | left; now right].
    + intros [<-|H]; [left; now left|].
      destruct (IH H) as [H'|H']; [left; now right | now right].
Qed.

Lemma in_dict_of_pairs (ps : list (pystr * pyvalue))
    (kv : pystr * pyvalue) :
  In kv (dict_of_pairs ps) -> In kv ps.
Proof.
  unfold dict_of_pairs.
  assert (H : forall acc,
             In kv (fold_left (fun d kv => dict_set d (fst kv) (snd kv))
                      ps acc) -> In kv acc \/ In kv ps).
  { induction ps as [|[k v] ps IH]; intros acc H; [now left|].
    cbn [fold_left fst snd] in H.
    destruct (IH _ H) as [H'|H']; [|right; now right].
    destruct (in_dict_set _ _ _ _ H') as [H''|H'']; [now left|].
    right. now left. }
  intros Hin. destruct (H [] Hin) as [[]|H']. exact H'.
Qed.

Lemma dict_get_in (d : list (pystr * pyvalue)) (k x : pystr) :
  dict_get d k = PyStr x -> In (k, PyStr x) d.
Proof.
  induction d as [|[k' v] d IH]; [discriminate|]. cbn [dict_get].
  destruct (str_eqb_spec k' k) as [->|Hne].
  - intros ->. now left.
  - intros H. right. now apply IH.
Qed.

Lemma decoder_bounded (fuel : nat) :
  (forall s v r,
      scan_once fuel s = Some (v, r) ->
      String.length r <= String.length s
      /\ forall x, str_inside v x ->
           List.length x + 2 + String.length r <= String.length s)
  /\ (forall s l r,
        JSONArray_values fuel s = Some (l, r) ->
        String.length r <= String.length s)
  /\ (forall s ps r,
        JSONObject_pairs fuel s = Some (ps, r) ->
        String.length r <= String.length s
        /\ forall k x, In (k, PyStr x) ps ->
             List.length x + 2 + String.length r <= String.length s).
Proof.
  induction fuel as [|fuel (IHv & IHa & IHo)];
    [repeat split; intros; discriminate|].
  split; [|split].
  - intros s v r H. destruct s as [|c s]; [discriminate|].
    cbn [scan_once] in H. cbn [String.length].
    destruct (c =? dquote)%char.
    { destruct (scanstring s) as [[x' r']|] eqn:Hs; [|discriminate].
      injection H as <- <-. apply length_scanstring in Hs.
      split; [lia|]. intros x [[= <-]|(d & k & [=] & _)]. lia. }
    destruct (c =? "{")%char.
    { pose proof (length_skip_ws s) as Hw.
      destruct (skip_ws s) as [|c1 r1]; [discriminate|].
      cbn [String.length] in Hw.
      destruct (c1 =? "}")%char.
      { injection H as <- <-. split; [lia|].
        intros x [[=]|(d & k & [= <-] & [])]. }
      destruct (JSONObject_pairs fuel (String c1 r1)) as [[ps r']|] eqn:Hp;
        [|discriminate].
      injection H as <- <-. apply IHo in Hp as [Hr Hin].
      cbn [String.length] in *. split; [lia|].
      intros x [[=]|(d & k & [= <-] & Hd)].
      apply in_dict_of_pairs in Hd. apply Hin in Hd. lia. }
    destruct (c =? "[")%char.
    { pose proof (length_skip_ws s) as Hw.
      destruct (skip_ws s) as [|c1 r1]; [discriminate|].
      cbn [String.length] in Hw.
      destruct (c1 =? "]")%char.
      { injection H as <- <-. split; [lia|].
        intros x [[=]|(d & k & [=] & _)]. }
      destruct (JSONArray_values fuel (String c1 r1)) as [[l r']|] eqn:Hp;
        [|discriminate].
      injection H as <- <-. apply IHa in Hp.
      cbn [String.length] in *. split; [lia|].
      intros x [[=]|(d & k & [=] & _)]. }
    destruct (strip_prefix "null" (String c s)) as [r0|] eqn:H1.
    { injection H as <- <-. apply length_strip_prefix in H1.
      cbn [String.length] in H1. split; [lia|].
      intros x [[=]|(d & k & [=] & _)]. }
    destruct (strip_prefix "true" (String c s)) as [r0|] eqn:H2.
    { injection H as <- <-. apply length_strip_prefix in H2.
      cbn [String.length] in H2. split; [lia|].
      intros x [[=]|(d & k & [=] & _)]. }
    destruct (strip_prefix "false" (String c s)) as [r0|] eqn:H3.
    { injection H as <- <-. apply length_strip_prefix in H3.
      cbn [String.length] in H3. split; [lia|].
      intros x [[=]|(d & k & [=] & _)]. }
    assert (Hnum : String.length r <= String.length (String c s)
                   /\ is_number v).
    { destruct (scan_number (String c s)) as [vr|] eqn:Hsn.
      - injection H as ->. now apply scan_number_bounded in Hsn.
      - now apply scan_constant_bounded in H. }
    destruct Hnum as [Hr Hnum]. cbn [String.length] in Hr. split; [lia|].
    intros x [->|(d & k & -> & _)];
      destruct Hnum as [[z [=]]|[y [=]]].
  - intros s l r H. rewrite JSONArray_values_eq in H.
    destruct (scan_once fuel s) as [[v r0]|] eqn:Hv; [|discriminate].
    apply IHv in Hv as [Hr0 _].
    pose proof (length_skip_ws r0) as Hw.
    destruct (skip_ws r0) as [|c r1]; [discriminate|].
    cbn [String.length] in Hw.
    destruct (c =? "]")%char.
    { injection H as <- <-. lia. }
    destruct (c =? ",")%char; [|discriminate].
    destruct (JSONArray_values fuel (skip_ws r1)) as [[l' r']|] eqn:Ha;
      [|discriminate].
    injection H as <- <-. apply IHa in Ha.
    pose proof (length_skip_ws r1). lia.
  - intros s ps r H. destruct s as [|q s]; [discriminate|].
    cbn [JSONObject_pairs] in H. cbn [String.length].
    destruct (q =? dquote)%char; [|discriminate].
    destruct (scanstring s) as [[key r1]|] eqn:Hs; [|discriminate].
    apply length_scanstring in Hs.
    pose proof (length_skip_ws r1) as Hw1.
    destruct (skip_ws r1) as [|c1 r2]; [discriminate|].
    cbn [String.length] in Hw1.
    destruct (c1 =? ":")%char; [|discriminate].
    destruct (scan_once fuel (skip_ws r2)) as [[v r3]|] eqn:Hv;
      [|discriminate].
    apply IHv in Hv as [Hr3 Hx].
    pose proof (length_skip_ws r2) as Hw2.
    pose proof (length_skip_ws r3) as Hw3.
    destruct (skip_ws r3) as [|c2 r4]; [discriminate|].
    cbn [String.length] in Hw3.
    destruct (c2 =? "}")%char.
    { injection H as <- <-. split; [lia|].
      intros k x [[= _ ->]|[]].
      specialize (Hx x (or_introl eq_refl)). lia. }
    destruct (c2 =? ",")%char; [|discriminate].
    destruct (JSONObject_pairs fuel (skip_ws r4)) as [[ps' r']|] eqn:Ho;
      [|discriminate].
    injection H as <- <-. apply IHo in Ho as [Hr' Hin].
    pose proof (length_skip_ws r4) as Hw4.
    split; [lia|].
    intros k x [[= _ ->]|Hk].
    + specialize (Hx x (or_introl eq_refl)). lia.
    + apply Hin in Hk. lia.
Qed.

(** A string under a key of the decoded dict is shorter than the text. *)
Lemma loads_dict_get_shorter (t : string) (x k : pystr)
    (d : list (pystr * pyvalue)) :
  loads t = Some (PyDict d) ->
  dict_get d k = PyStr x ->
  List.length x < String.length t.
Proof.
  unfold loads. intros H Hg.
  destruct (scan_once (String.length t) (skip_ws t)) as [[v r]|] eqn:Hs;
    [|discriminate].
  destruct (skip_ws r); [|discriminate]. injection H as ->.
  destruct (decoder_bounded (String.length t)) as (Hv & _ & _).
  apply Hv in Hs as [_ Hx].
  apply dict_get_in in Hg.
  specialize (Hx x (or_intror (ex_intro _ d (ex_intro _ k (conj eq_refl Hg))))).
  pose proof (length_skip_ws t). lia.
Qed.

End JsonFacts.

(* ================================================================== *)
(** * Facts about the connection *)

Module SqliteFacts.
Import Sqlite.

Lemma view_implicit_begin (c : connection) : view (implicit_begin c) = view c.
Proof. destruct c as [cm [t|]]; reflexivity. Qed.

Lemma view_commit (c : connection) : view (commit c) = view c.
Proof. reflexivity. Qed.

Lemma view_write (t : table) (c : connection) : view (write t c) = t.
Proof. reflexivity. Qed.

Lemma in_transaction_write (t : table) (c : connection) :
  in_transaction (write t c) = true.
Proof. reflexivity. Qed.

Lemma find_app {A} (p : A -> bool) (a b : list A) :
  find p (a ++ b)%list
  = match find p a with Some x => Some x | None => find p b end.
Proof.
  induction a as [|x a IH]; [reflexivity|]. cbn. now destruct (p x).
Qed.

Lemma find_filter_out (k : string) (t : table) :
  find (has_key k) (filter (fun r => negb (has_key k r)) t) = None.
Proof.
  induction t as [|r t IH]; [reflexivity|]. cbn.
  destruct (has_key k r) eqn:H; cbn; [exact IH | rewrite H; exact IH].
Qed.


Lemma filter_present (k : string) (t : table) (r : row) :
  find (has_key k) t = Some r -> filter (has_key k) t <> [].
Proof.
  induction t as [|x t IH]; [discriminate|]. cbn.
  destruct (has_key k x); [discriminate | exact IH].
Qed.

(** After the upsert the key has one row: the new text, the old
    [inserted] if there was a row, and [now] as [updated]. *)
Lemma view_insert_or_replace (k v : string) (now : Z) (c : connection) :
  view (insert_or_replace k v now c)
  = (filter (fun r => negb (has_key k r)) (view c)
       ++ [mkRow k v (match select_where_key k c with
                      | Some r => inserted r
                      | None => now
                      end) now])%list.
Proof.
  unfold insert_or_replace, select_where_key.
  now rewrite view_write, !view_implicit_begin.
Qed.

Lemma select_insert_or_replace (k v : string) (now : Z) (c : connection) :
  select_where_key k (insert_or_replace k v now c)
  = Some (mkRow k v (match select_where_key k c with
                     | Some r => inserted r
                     | None => now
                     end) now).
Proof.
  unfold select_where_key at 1. rewrite view_insert_or_replace.
  rewrite find_app, find_filter_out. cbn. unfold has_key. cbn.
  now rewrite String.eqb_refl.
Qed.

Lemma view_delete_where_key (k : string) (c : connection) :
  view (snd (delete_where_key k c))
  = filter (fun r => negb (has_key k r)) (view c).
Proof.
  unfold delete_where_key. cbn [snd].
  now rewrite view_write, view_implicit_begin.
Qed.

Lemma rowcount_delete_where_key (k : string) (c : connection) :
  fst (delete_where_key k c) = List.length (filter (has_key k) (view c)).
Proof.
  unfold delete_where_key. cbn [fst]. now rewrite view_implicit_begin.
Qed.

End SqliteFacts.

(* ================================================================== *)
(** * Facts about [SharedStorage] *)

Module StorageDictFacts.
Import Sqlite StorageDict SqliteFacts JsonFacts.

Ltac unfold_methods :=
  unfold set, _set, delete, update, pop, clear, get, age, count, values,
    items, keys, execute_truncate_table, try_except_KeyError,
    _check_read_only, get_conn, put_conn, decode, bind, ret, raise in *.

Lemma decode_encode (v : pyvalue) :
  json_native v = true -> decode_data (encode v) = Ok v.
Proof.
  intros Hn. unfold decode_data, encode.
  rewrite loads_dumps; [reflexivity|].
  cbn. now rewrite Hn.
Qed.

(** *** What [json] makes of a value *)




Lemma json_native_well_formed (v : pyvalue) :
  json_native v = true -> well_formed v = true.
Proof.
  induction v as [|b|z|x|s|l IH|l IH|d IH] using pyvalue_nested_ind;
    try reflexivity; cbn [json_native well_formed]; intros H.
  - exact H.
  - unfold str_native in H. now apply andb_true_iff in H as [H _].
  - rewrite forallb_forall in *. intros x Hx.
    rewrite Forall_forall in IH. apply IH; [exact Hx | now apply H].
  - discriminate.
  - apply andb_true_iff in H as [Hd H]. apply andb_true_iff. split.
    + rewrite <- Hd. f_equal. apply map_ext_in. intros [k x] Hx.
      rewrite forallb_forall in H. specialize (H (k, x) Hx).
      cbn [fst snd] in *. apply andb_true_iff in H as [Hk _].
      unfold str_native in Hk. apply andb_true_iff in Hk as [_ Hk].
      now apply join_pairs_no_pair.
    + rewrite forallb_forall in *. intros [k x] Hx.
      specialize (H (k, x) Hx). cbn [fst snd] in *.
      apply andb_true_iff in H as [Hk H].
      unfold str_native in Hk. apply andb_true_iff in Hk as [Hk _].
      rewrite Hk. rewrite Forall_forall in IH. now apply (IH (k, x) Hx).
Qed.


(** *** Python's [==] of a value and itself *)






Lemma select_where_key_view (k : string) (c c' : connection) :
  view c = view c' -> select_where_key k c = select_where_key k c'.
Proof. unfold select_where_key. now intros ->. Qed.

Lemma commit_spec (s : storage) :
  exists s',
    commit s = (Ok tt, s')
    /\ view (conn s') = view (conn s)
    /\ read_only s' = read_only s
    /\ active_context s' = active_context s
    /\ (active_context s = false ->
        pending (conn s') = None /\ committed (conn s') = view (conn s)).
Proof.
  destruct s as [[cm [t|]] ro [|]]; eexists; cbn; repeat split;
    intros; discriminate.
Qed.

Lemma set_spec (now : Z) (k : string) (v : pyvalue) (s : storage) :
  read_only s = false ->
  exists s1,
    set now k v s = (Ok tt, s1)
    /\ read_only s1 = false
    /\ active_context s1 = active_context s
    /\ view (conn s1) = view (insert_or_replace k (encode v) now (conn s)).
Proof.
  intros Hro.
  destruct (commit_spec
              (with_conn (insert_or_replace k (encode v) now (conn s)) s))
    as (s1 & Hc & Hv & Hr & Ha & _).
  exists s1. unfold set, _set, _check_read_only, get_conn, put_conn, bind.
  rewrite Hro. cbv beta iota. fold (with_conn (insert_or_replace k (encode v) now (conn s)) s).
  rewrite Hc. repeat split; try assumption.
  cbn in Hr. congruence.
Qed.

(** ** C3 *)

(** C3.  On a store opened read-only, each of [set], [delete], [update],
    [pop] and [clear] raises [WBStorageReadOnlyException] and leaves the
    store, connection included, exactly as it was. *)
Theorem read_only_rejects_mutators (s : storage) :
  read_only s = true ->
  (forall now k v, set now k v s = (Raise WBStorageReadOnlyException, s))
  /\ (forall k ignore_key_error,
        delete k ignore_key_error s = (Raise WBStorageReadOnlyException, s))
  /\ (forall clock dic,
        update clock dic s = (Raise WBStorageReadOnlyException, s))
  /\ (forall k default,
        pop k default s = (Raise WBStorageReadOnlyException, s))
  /\ clear s = (Raise WBStorageReadOnlyException, s).
Proof.
  intros Hro. repeat split; intros; unfold_methods; now rewrite Hro.
Qed.

Lemma read_only_rejects_mutators_witness :
  read_only read_only_store = true
  /\ set 9 "a" (PyInt 2) read_only_store
     = (Raise WBStorageReadOnlyException, read_only_store)
  /\ clear read_only_store
     = (Raise WBStorageReadOnlyException, read_only_store).
Proof.
  split; [reflexivity|].
  destruct (read_only_rejects_mutators read_only_store eq_refl)
    as (Hset & _ & _ & _ & Hclear).
  split; [apply Hset | exact Hclear].
Defined.

(** ** C1 *)




(** ** C2 *)

(** C2.  When [k] has a row, [set(k, v)] at time [now] succeeds; the row
    of [k] afterwards has the [inserted] of the old row and [now] as
    [updated], and [age(k)] at any time [later] is the pair of [later]
    minus each. *)
Theorem set_existing_keeps_inserted (now : Z) (k : string) (v : pyvalue)
    (s : storage) (r : row) :
  read_only s = false ->
  select_where_key k (conn s) = Some r ->
  exists s1 r1,
    set now k v s = (Ok tt, s1)
    /\ select_where_key k (conn s1) = Some r1
    /\ inserted r1 = inserted r
    /\ updated r1 = now
    /\ forall later,
         age later k s1 = (Ok (later - inserted r, later - now)%Z, s1).
Proof.
  intros Hro Hr.
  destruct (set_spec now k v s Hro) as (s1 & Hset & _ & _ & Hview).
  pose proof (select_where_key_view k _ _ Hview) as Hsel.
  rewrite select_insert_or_replace, Hr in Hsel.
  exists s1, (mkRow k (encode v) (inserted r) now).
  repeat split; try assumption.
  intros later. unfold age, get_conn, bind. cbv beta iota.
  now rewrite Hsel.
Qed.

Lemma set_existing_keeps_inserted_witness :
  exists s1 r1,
    set 30 "a" (PyStr "x")
      (mkStorage (mkConn [mkRow "a" (encode (PyInt 1)) 10 20] None)
         false false)
    = (Ok tt, s1)
    /\ select_where_key "a" (conn s1) = Some r1
    /\ inserted r1 = 10%Z
    /\ updated r1 = 30%Z
    /\ forall later, age later "a" s1 = (Ok (later - 10, later - 30)%Z, s1).
Proof.
  apply (set_existing_keeps_inserted 30 "a" (PyStr "x")
           (mkStorage (mkConn [mkRow "a" (encode (PyInt 1)) 10 20] None)
              false false)
           (mkRow "a" (encode (PyInt 1)) 10 20)); reflexivity.
Defined.

(** ** [get] *)

Lemma get_absent_key (k : string) (s : storage) :
  select_where_key k (conn s) = None ->
  (forall d, d <> PyNone -> get k d s = (Ok d, s))
  /\ get k PyNone s = (Raise KeyError, s).
Proof.
  intros Habs. split.
  - intros d Hd. unfold get, get_conn, bind. cbv beta iota.
    rewrite Habs. destruct d; try reflexivity. now contradiction Hd.
  - unfold get, get_conn, bind. cbv beta iota. now rewrite Habs.
Qed.

Lemma get_present_key (k : string) (d : pyvalue) (s : storage) (r : row) :
  select_where_key k (conn s) = Some r ->
  get k d s = (decode_data (value r), s).
Proof.
  intros Hr. unfold get, get_conn, bind, decode. cbv beta iota.
  now rewrite Hr.
Qed.

(** ** C9 *)

(** C9, as stated, fails at the default [None]: [get(k, None)] on an
    absent key raises [KeyError], it does not return [None]. *)
Lemma get_default_none_raises :
  get "a" PyNone fresh_store = (Raise KeyError, fresh_store).
Proof. reflexivity. Qed.

(** C9, amended.  For an absent key, [get(k, d)] returns [d] for every
    default [d] other than [None], and raises [KeyError] when the default
    is [None], supplied or not; for a present key, [get] returns the
    decoded value: [v] when the stored text decodes to [v], whatever the
    default, and so [v] for an entry written from a JSON-native [v]. *)
Theorem get_contract (k : string) (s : storage) :
  (select_where_key k (conn s) = None ->
     (forall d, d <> PyNone -> get k d s = (Ok d, s))
     /\ get k PyNone s = (Raise KeyError, s))
  /\ (forall r d v,
        select_where_key k (conn s) = Some r ->
        decode_data (value r) = Ok v ->
        get k d s = (Ok v, s))
  /\ (forall r d v,
        select_where_key k (conn s) = Some r ->
        json_native v = true -> value r = encode v ->
        get k d s = (Ok v, s)).
Proof.
  split; [apply get_absent_key|]. split.
  - intros r d v Hr Hv. now rewrite (get_present_key k d s r Hr), Hv.
  - intros r d v Hr Hn Hv.
    now rewrite (get_present_key k d s r Hr), Hv, decode_encode.
Qed.

Lemma get_contract_witness :
  get "zz" (PyInt 7) read_only_store = (Ok (PyInt 7), read_only_store)
  /\ get "zz" PyNone read_only_store = (Raise KeyError, read_only_store)
  /\ get "a" (PyInt 7) read_only_store = (Ok (PyInt 1), read_only_store)
  /\ get "a" PyNone read_only_store = (Ok (PyInt 1), read_only_store).
Proof.
  destruct (get_contract "zz" read_only_store) as [Habs _].
  destruct (Habs eq_refl) as [Hd Hnone].
  destruct (get_contract "a" read_only_store) as (_ & Hdec & Hset).
  split; [|split; [|split]].
  - apply Hd. discriminate.
  - exact Hnone.
  - apply (Hdec (mkRow "a" (encode (PyInt 1)) 5 5)); reflexivity.
  - apply (Hset (mkRow "a" (encode (PyInt 1)) 5 5)); reflexivity.
Defined.

(** ** C4 *)

Lemma begin_spec (s : storage) :
  exists s1,
    begin s = (Ok tt, s1)
    /\ view (conn s1) = view (conn s)
    /\ committed (conn s1) = committed (conn s)
    /\ read_only s1 = read_only s
    /\ active_context s1 = active_context s
    /\ (active_context s = false -> in_transaction (conn s1) = true)
    /\ (active_context s = true -> s1 = s).
Proof.
  destruct s as [[cm [t|]] ro [|]]; eexists; cbn; repeat split;
    intros; discriminate.
Qed.

(** [delete] of a key that has a row: the row goes, nothing is raised. *)
Lemma delete_of_present_key (k : string) (ignore_key_error : bool)
    (s : storage) (r : row) :
  read_only s = false ->
  select_where_key k (conn s) = Some r ->
  exists s',
    delete k ignore_key_error s = (Ok tt, s')
    /\ view (conn s') = filter (fun x => negb (has_key k x)) (view (conn s))
    /\ read_only s' = false
    /\ active_context s' = active_context s
    /\ (active_context s = false ->
        pending (conn s') = None
        /\ committed (conn s')
           = filter (fun x => negb (has_key k x)) (view (conn s))).
Proof.
  intros Hro Hr.
  pose proof (rowcount_delete_where_key k (conn s)) as Hn.
  pose proof (view_delete_where_key k (conn s)) as Hv.
  destruct (delete_where_key k (conn s)) as [n c'] eqn:Hd.
  cbn [fst snd] in Hn, Hv.
  destruct (commit_spec (with_conn c' s)) as (s' & Hc & Hcv & Hcr & Hca & Hcp).
  exists s'.
  unfold delete, _check_read_only, get_conn, put_conn, bind.
  rewrite Hro. cbv beta iota. rewrite Hd. cbv beta iota.
  fold (with_conn c' s). rewrite Hc.
  assert (Hn0 : (n =? 0)%nat = false).
  { apply Nat.eqb_neq. rewrite Hn. intros H0.
    apply List.length_zero_iff_nil in H0.
    now apply (filter_present k (view (conn s)) r). }
  rewrite Hn0. cbn in Hcv, Hcr, Hca, Hcp.
  repeat split; try congruence.
  - now apply Hcp.
  - rewrite <- Hv. now apply Hcp.
Qed.


(** The part of C4 the code keeps: after [delete] of a present key, [get]
    of it raises [KeyError]. *)
Lemma delete_then_get_raises (k : string) (ignore_key_error : bool)
    (s : storage) (r : row) :
  read_only s = false ->
  select_where_key k (conn s) = Some r ->
  exists s',
    delete k ignore_key_error s = (Ok tt, s')
    /\ get k PyNone s' = (Raise KeyError, s').
Proof.
  intros Hro Hr.
  destruct (delete_of_present_key k ignore_key_error s r Hro Hr)
    as (s' & Hd & Hv & _).
  exists s'. split; [exact Hd|].
  apply get_absent_key. unfold select_where_key. rewrite Hv.
  apply find_filter_out.
Qed.

(** C4, where the code departs from it: on a fresh writable store the key
    ["a"] is absent, and [delete("a", ignore_key_error=True)] raises
    [NameError], as does [delete("a")]; neither completes quietly, neither
    raises [KeyError].  The store is left as it was. *)
Theorem delete_absent_raises_NameError :
  delete "a" true fresh_store = (Raise NameError, fresh_store)
  /\ delete "a" false fresh_store = (Raise NameError, fresh_store).
Proof. split; reflexivity. Qed.

(** ** C6 *)

Lemma clear_writable (s : storage) :
  read_only s = false -> clear s = (Raise OperationalError, s).
Proof. intros Hro. unfold_methods. now rewrite Hro. Qed.

(** C6, where the code departs from it: on a writable store with one
    entry, [clear()] raises [sqlite3.OperationalError] and the entry is
    still there, [count()] is 1. *)
Theorem clear_raises_OperationalError :
  clear one_entry_store = (Raise OperationalError, one_entry_store)
  /\ count one_entry_store = (Ok 1, one_entry_store).
Proof. split; reflexivity. Qed.

(** ** C5 *)

Lemma rollback_spec (s : storage) :
  exists s',
    rollback s = (Ok tt, s')
    /\ committed (conn s') = committed (conn s)
    /\ read_only s' = read_only s
    /\ active_context s' = active_context s
    /\ (active_context s = true -> s' = s)
    /\ (active_context s = false -> pending (conn s') = None).
Proof.
  destruct s as [[cm [t|]] ro [|]]; eexists; cbn; repeat split;
    intros; discriminate.
Qed.

(** [begin] and then [rollback], with nothing written in between, give
    back the store they started from unless a transaction was already
    open outside a [with] block. *)
Lemma begin_rollback (s s1 s2 : storage) :
  begin s = (Ok tt, s1) -> rollback s1 = (Ok tt, s2) ->
  committed (conn s2) = committed (conn s)
  /\ (in_transaction (conn s) = false -> s2 = s)
  /\ (active_context s = true -> s2 = s).
Proof.
  destruct s as [[cm [t|]] ro [|]]; cbn; intros [= <-]; cbn;
    intros [= <-]; repeat split; intros; try reflexivity; discriminate.
Qed.

(** C5, as stated, fails at the default [None]: [pop(k, None)] on an
    absent key raises [KeyError], it does not return [None]. *)
Lemma pop_default_none_raises :
  pop "a" PyNone fresh_store = (Raise KeyError, fresh_store).
Proof. reflexivity. Qed.

(** C5, amended.  In a writable store:
    - for an absent key, [pop(k)] (the default is [None], supplied or
      not) raises [KeyError] after the rollback; the committed table is
      untouched, and the whole store is as before whenever no transaction
      was open or the call is inside a [with] block;
    - for an absent key and a default [d] other than [None], [pop(k, d)]
      returns [d], with the same store afterwards;
    - for a present key whose text decodes to [v], [pop] returns [v], the
      key has no row afterwards, and outside a [with] block the deletion
      is committed. *)
Theorem pop_contract (k : string) (s : storage) :
  read_only s = false ->
  (select_where_key k (conn s) = None ->
     exists s',
       pop k PyNone s = (Raise KeyError, s')
       /\ (forall d, d <> PyNone -> pop k d s = (Ok d, s'))
       /\ committed (conn s') = committed (conn s)
       /\ (in_transaction (conn s) = false -> s' = s)
       /\ (active_context s = true -> s' = s))
  /\ (forall r v d,
        select_where_key k (conn s) = Some r ->
        decode_data (value r) = Ok v ->
        exists s',
          pop k d s = (Ok v, s')
          /\ select_where_key k (conn s') = None
          /\ view (conn s')
             = filter (fun x => negb (has_key k x)) (view (conn s))
          /\ (active_context s = false ->
              pending (conn s') = None
              /\ committed (conn s') = view (conn s'))).
Proof.
  intros Hro.
  destruct (begin_spec s) as (s1 & Hb & Hbv & Hbc & Hbr & Hba & Hbt & _).
  split.
  - intros Habs.
    assert (Habs1 : select_where_key k (conn s1) = None)
      by (now rewrite (select_where_key_view k _ _ Hbv)).
    destruct (get_absent_key k s1 Habs1) as [_ Hraise].
    destruct (rollback_spec s1) as (s2 & Hrb & _).
    destruct (begin_rollback s s1 s2 Hb Hrb) as (Hc & Hsame & Hact).
    exists s2.
    assert (Hbody :
      forall d, pop k d s =
        match d with
        | PyNone => (Raise KeyError, s2)
        | _ => (Ok d, s2)
        end).
    { intros d. unfold pop, _check_read_only, try_except_KeyError, bind.
      rewrite Hro. cbv beta iota. rewrite Hb. cbv beta iota.
      rewrite Hraise. cbv beta iota. rewrite Hrb. cbv beta iota.
      destruct d; reflexivity. }
    repeat split; try assumption.
    + apply (Hbody PyNone).
    + intros d Hd. rewrite Hbody. destruct d; try reflexivity.
      now contradiction Hd.
  - intros r v d Hr Hv.
    assert (Hr1 : select_where_key k (conn s1) = Some r)
      by (now rewrite (select_where_key_view k _ _ Hbv)).
    pose proof (get_present_key k PyNone s1 r Hr1) as Hget1.
    rewrite Hv in Hget1.
    assert (Hro1 : read_only s1 = false) by congruence.
    destruct (delete_of_present_key k true s1 r Hro1 Hr1)
      as (s2 & Hd & Hdv & Hdr & Hda & Hdp).
    destruct (commit_spec s2) as (s3 & Hc & Hcv & Hcr & Hca & Hcp).
    exists s3.
    assert (Hview : view (conn s3)
                    = filter (fun x => negb (has_key k x)) (view (conn s)))
      by congruence.
    split; [|split; [|split]].
    + unfold pop, _check_read_only, try_except_KeyError, bind.
      rewrite Hro. cbv beta iota. rewrite Hb. cbv beta iota.
      rewrite Hget1. cbv beta iota. rewrite Hd. cbv beta iota.
      rewrite Hc. reflexivity.
    + unfold select_where_key. rewrite Hview. apply find_filter_out.
    + exact Hview.
    + intros Hact.
      assert (Ha2 : active_context s2 = false) by congruence.
      destruct (Hcp Ha2) as [Hp Hcm]. split; [exact Hp | congruence].
Qed.

Lemma pop_contract_witness :
  (exists s',
     pop "zz" PyNone one_entry_store = (Raise KeyError, s')
     /\ (forall d, d <> PyNone -> pop "zz" d one_entry_store = (Ok d, s'))
     /\ s' = one_entry_store)
  /\ (exists s',
        pop "a" PyNone one_entry_store = (Ok (PyInt 1), s')
        /\ select_where_key "a" (conn s') = None).
Proof.
  destruct (pop_contract "zz" one_entry_store eq_refl) as [Habs _].
  destruct (Habs eq_refl) as (s' & H1 & H2 & _ & H3 & _).
  destruct (pop_contract "a" one_entry_store eq_refl) as [_ Hpres].
  destruct (Hpres (mkRow "a" (encode (PyInt 1)) 5 5) (PyInt 1) PyNone
              eq_refl eq_refl) as (s'' & H4 & H5 & _).
  split.
  - exists s'. split; [exact H1 | split; [exact H2 | now apply H3]].
  - exists s''. split; [exact H4 | exact H5].
Defined.

(** ** C10 *)

(** The stored text never equals what it decodes to. *)
Lemma py_eq_text_decoded (t : string) (v : pyvalue) :
  decode_data t = Ok v -> py_eq (PyStr t) v = false.
Proof.
  intros Hd. destruct v; try reflexivity. cbn [py_eq].
  destruct (str_eqb_spec t s) as [<-|]; [|reflexivity].
  unfold decode_data in Hd.
  destruct (Json.loads t) as [[| | | | | | |d]|] eqn:Hl; try discriminate.
  injection Hd as Hd.
  pose proof (loads_dict_get_shorter t t "data" d Hl Hd) as Hlen.
  rewrite length_str_of_text in Hlen. lia.
Qed.

Lemma py_eq_list_cons (x y : pyvalue) (la lb : list pyvalue) :
  py_eq (PyList (x :: la)) (PyList (y :: lb))
  = py_eq x y && py_eq (PyList la) (PyList lb).
Proof. reflexivity. Qed.

(** C10.  [values()] returns column [value] as stored, one str per row;
    right after [set(k, v)] the last of them is the text
    [json.dumps({'data': v})].  On a non-empty store, whenever [items()]
    returns (it decodes every row), the list of its second components is
    not equal, by Python's [==], to what [values()] returns. *)
Theorem values_are_raw_text (s : storage) :
  values s = (Ok (map (fun r => PyStr (value r)) (view (conn s))), s)
  /\ (forall now k v,
        read_only s = false ->
        exists s1 older,
          set now k v s = (Ok tt, s1)
          /\ values s1
             = (Ok (older ++ [PyStr (Json.dumps (PyDict [("data", v)]))])%list,
                s1))
  /\ (view (conn s) <> [] ->
      forall its s',
        items s = (Ok its, s') ->
        py_eq (PyList (map (fun r => PyStr (value r)) (view (conn s))))
              (PyList (map snd its)) = false).
Proof.
  split; [reflexivity|]. split.
  - intros now k v Hro.
    destruct (set_spec now k v s Hro) as (s1 & Hset & _ & _ & Hview).
    rewrite view_insert_or_replace in Hview.
    exists s1. eexists. split; [exact Hset|].
    unfold values, get_conn, bind, ret. cbv beta iota.
    rewrite Hview, map_app. reflexivity.
  - intros Hne its s' Hit.
    unfold items, get_conn, bind in Hit. cbv beta iota in Hit.
    destruct (view (conn s)) as [|r rows]; [congruence|].
    cbn [items_of] in Hit. unfold bind, decode in Hit.
    destruct (decode_data (value r)) as [v|e] eqn:Hd; [|discriminate].
    destruct (items_of rows s) as [[rest|e] s''] eqn:Hrest; [|discriminate].
    injection Hit as <- <-. cbn [map snd].
    now rewrite py_eq_list_cons, (py_eq_text_decoded _ _ Hd).
Qed.

Lemma values_are_raw_text_witness :
  values one_entry_store
  = (Ok [PyStr (Json.dumps (PyDict [("data", PyInt 1)]))], one_entry_store)
  /\ (exists s1 older,
        set 9 "b" (PyStr "x") one_entry_store = (Ok tt, s1)
        /\ values s1
           = (Ok (older
                    ++ [PyStr (Json.dumps (PyDict [("data", PyStr "x")]))])%list,
              s1))
  /\ items one_entry_store = (Ok [("a", PyInt 1)], one_entry_store)
  /\ py_eq (PyList [PyStr (Json.dumps (PyDict [("data", PyInt 1)]))])
           (PyList (map snd [("a", PyInt 1)])) = false.
Proof.
  destruct (values_are_raw_text one_entry_store) as (Hv & Hset & Hne).
  split; [exact Hv|].
  split; [apply (Hset 9%Z "b" (PyStr "x")); reflexivity|].
  split; [reflexivity|].
  apply (Hne ltac:(discriminate) [("a", PyInt 1)] one_entry_store).
  reflexivity.
Defined.

End StorageDictFacts.

(* ================================================================== *)
(** * Facts about [SqliteThreadWork] *)

Module SqliteThreadWorkFacts.
Import SqliteThreadWork.

Lemma nth_error_set_nth_same {A} (i : nat) (x y : A) (l : list A) :
  nth_error l i = Some y -> nth_error (set_nth i x l) i = Some x.
Proof.
  revert i. induction l as [|z l IH]; intros [|i]; cbn;
    try discriminate; [reflexivity | apply IH].
Qed.

Lemma nth_error_set_nth {A} (i j : nat) (x y : A) (l : list A) :
  nth_error (set_nth i x l) j = Some y ->
  (j = i /\ y = x) \/ nth_error l j = Some y.
Proof.
  revert i j. induction l as [|z l IH]; intros [|i] [|j]; cbn;
    try (now right).
  - intros [= <-]. now left.
  - intros H. destruct (IH _ _ H) as [[-> ->]|H']; [now left | now right].
Qed.

(** ** C8 *)

(** C8.  A call of [execute] that finds [exit_set] true takes one step: it
    returns [["Exit Called"]]; the queue, the results, the flags and the
    connection are what they were, and so is the worker. *)
Theorem execute_after_shutdown (i : nat) (q : string) (v : pyvalue)
    (tok : string) (st : system) :
  exit_set (ex st) = true ->
  nth_error (clients st) i = Some (EStart q v) ->
  exists st',
    step (LStep i tok) st = Some st'
    /\ nth_error (clients st') i = Some (CReturned RetExitCalled)
    /\ ex st' = ex st
    /\ wpc st' = wpc st
    /\ early st' = early st
    /\ client_timeout i st = None.
Proof.
  intros Hflag Hpc. eexists. cbn [step]. unfold client_step, execute, client_timeout.
  rewrite Hpc, Hflag. split; [reflexivity|]. cbn.
  split; [now apply (nth_error_set_nth_same i _ (EStart q v))|].
  repeat split.
Qed.

Lemma execute_after_shutdown_witness :
  exists st',
    step (LStep 1 "t2") after_flag = Some st'
    /\ nth_error (clients st') 1 = Some (CReturned RetExitCalled)
    /\ ex st' = ex after_flag
    /\ wpc st' = wpc after_flag
    /\ early st' = early after_flag
    /\ client_timeout 1 after_flag = None.
Proof.
  apply (execute_after_shutdown 1 "SELECT * FROM t" PyNone "t2" after_flag);
    reflexivity.
Defined.

(** ** C7 *)

(** C7, where the code departs from it: in this schedule of two calling
    threads the second is inside [execute], past the test of [exit_set],
    when [close] sets the flag; the worker then finds [exit_set] true and
    the queue empty and leaves the loop (line 75), the second thread puts
    its statement, and the connection is closed with that statement in
    the queue.  At the end [close] has returned, [execute] has returned
    [None] for the statement as for one it accepted, the worker is done
    and the connection closed, with [c2] still queued in front of the
    sentinel: only [c1] was executed. *)
Theorem close_leaves_command_behind :
  option_map
    (fun st =>
       (nth_error (clients st) 0, nth_error (clients st) 1, wpc st,
        conn_closed (ex st), queue (ex st), conn_log (ex st)))
    (steps race_schedule (init "exit" 2000 2))
  = Some (Some (CReturned RetClosed), Some (CReturned RetNone), WDone, true,
          [c2; mkCommand "exit" "" (PyStr "")], [c1]).
Proof. vm_compute. reflexivity. Qed.

Lemma Inv_init (tok : string) (maxsize n : nat) : Inv (init tok maxsize n).
Proof.
  constructor; cbn; try discriminate; try reflexivity; try contradiction.
  - intros i c H. apply nth_error_In, repeat_spec in H. discriminate.
  - intros i H. apply nth_error_In, repeat_spec in H. discriminate.
Qed.

Ltac field := intros; cbn in *; subst; try discriminate; try congruence; eauto.

Ltac flow :=
  let c := fresh "c" in
  let Hc := fresh "Hc" in
  cbn in *; intros c Hc;
  match goal with
  | Hflow : forall c, In c _ -> In c _ \/ _ \/ _,
    Htok : forall c, In c _ -> token c <> _ |- _ =>
      pose proof (Htok c Hc); pose proof (Hflow c Hc)
  end;
  cbn [In] in *; rewrite ?in_app_iff; cbn [In]; intuition congruence.

Lemma Inv_run_step (st st' : system) :
  Inv st -> run st = Some st' -> Inv st'.
Proof.
  intros [Htok Hput Hflow Hexit Hdr Hseal Hcl Hrun Hret] H.
  destruct st as [[tok mx q res es tr log dur cl] pc cnt cls ea].
  unfold run in H. cbn in *.
  destruct pc.
  - (* WGet *)
    destruct q as [|c q]; [discriminate|].
    destruct (String.eqb_spec (token c) tok) as [Heq|Hne];
      injection H as <-;
      (constructor; [field | field | flow | field ..]).
  - (* WRun *)
    injection H as <-. unfold run_query, conn_execute. cbn in Hcl. subst cl.
    destruct (is_select (query c));
      (constructor; [field | field | flow | field ..]).
  - (* WCheckCommit *)
    destruct q as [|c q];
      [|destruct (cnt =? mx)%nat]; injection H as <-;
      (constructor; [field | field | flow | field ..]).
  - (* WCommit *)
    injection H as <-. constructor; [field | field | flow | field ..].
  - (* WCheckExit *)
    destruct es; injection H as <-;
      (constructor; [field | field | flow | field ..]).
  - (* WCheckEmpty *)
    destruct q as [|c q]; injection H as <-;
      (constructor; [field | field | flow | field | | field ..]);
      [intros _; flow | field].
  - (* WExitCommit *)
    injection H as <-. constructor; [field | field | flow | field ..].
  - (* WExitClose *)
    injection H as <-. constructor; [field | field | flow | field ..].
  - (* WExitStop *)
    injection H as <-. constructor; [field | field | flow | field ..].
  - discriminate.
  - discriminate.
Qed.

Lemma Inv_run_raises (st st' : system) :
  Inv st -> run_raises st = Some st' -> Inv st'.
Proof.
  intros [Htok Hput Hflow Hexit Hdr Hseal Hcl Hrun Hret] H.
  destruct st as [[tok mx q res es tr log dur cl] pc cnt cls ea].
  unfold run_raises in H. cbn in *.
  destruct pc; try discriminate. injection H as <-.
  constructor; [field | field | flow | field ..].
Qed.

Lemma drained_exiting (pc : worker_pc) :
  drained pc = true -> exiting pc = true.
Proof. destruct pc; try discriminate; reflexivity. Qed.

Ltac client_field :=
  cbn in *; intros;
  match goal with
  | H : nth_error (set_nth _ _ _) _ = Some _ |- _ =>
      apply nth_error_set_nth in H; destruct H as [[-> H]|H];
      [try discriminate; try (injection H as H) |]
  end; subst; cbn in *; try discriminate; try congruence; eauto.

Lemma Inv_client_step (i : nat) (tok : string) (st st' : system) :
  Inv st -> client_step i tok st = Some st' -> Inv st'.
Proof.
  intros [Htok Hput Hflow Hexit Hdr Hseal Hcl Hrun Hret] H.
  destruct st as [[xtok mx q res es tr log dur cl] pc cnt cls ea].
  unfold client_step, execute, query_results, close in H. cbn in *.
  destruct (nth_error cls i) as [cpc|] eqn:Hi; [|discriminate].
  destruct cpc; try discriminate.
  - (* EStart *)
    destruct es.
    + injection H as <-.
      constructor;
        [field | client_field | flow | field .. | client_field].
    + destruct (String.eqb_spec tok xtok) as [Heq|Hne]; [discriminate|].
      injection H as <-.
      constructor;
        [field | client_field | flow | field .. | client_field].
  - (* EPut *)
    pose proof (Hput i c Hi) as Hc.
    unfold full in H. cbn in H.
    match type of H with
    | (if ?b then _ else _) = _ => destruct b
    end.
    + destruct (is_select (query c)); [|discriminate].
      injection H as <-.
      constructor;
        [field | client_field | flow | field .. | client_field].
    + injection H as <-.
      destruct (is_select (query c));
        (constructor;
         [ cbn; intros c' Hc'; destruct es; [now apply Htok|];
           apply in_app_or in Hc' as [Hc'|[<-|[]]];
           [now apply Htok | exact Hc]
         | client_field
         | cbn; intros c' Hc'; rewrite in_app_iff;
           destruct es; [destruct (Hflow c' Hc') as [?|[?|[?|?]]]; auto|];
           apply in_app_or in Hc' as [Hc'|[<-|[]]];
           [destruct (Hflow c' Hc') as [?|[?|[?|?]]]; auto|];
           right; right; left; right; now left
         | field
         | cbn; intros Hd c' Hc';
           pose proof (Hexit (drained_exiting _ Hd)) as ->;
           now apply Hdr
         | field .. | client_field ]).
  - (* EPoll *)
    destruct (take_result t res) as [[p r']|]; injection H as <-.
    + constructor;
        [field | client_field | flow | field .. | client_field].
    + now constructor.
  - (* CSetFlag *)
    injection H as <-.
    constructor; [field | client_field | flow | field .. | client_field].
  - (* CPutSentinel *)
    unfold full in H. cbn in H.
    match type of H with
    | (if ?b then _ else _) = _ => destruct b; [discriminate|]
    end.
    injection H as <-.
    constructor; [field | client_field | flow | field .. | client_field].
  - (* CWait *)
    destruct tr; injection H as <-; [now constructor|].
    constructor; [field | client_field | flow | field .. | client_field].
Qed.

Lemma Inv_client_timeout (i : nat) (st st' : system) :
  Inv st -> client_timeout i st = Some st' -> Inv st'.
Proof.
  intros [Htok Hput Hflow Hexit Hdr Hseal Hcl Hrun Hret] H.
  destruct st as [[xtok mx q res es tr log dur cl] pc cnt cls ea].
  unfold client_timeout, full in H. cbn in *.
  destruct (nth_error cls i) as [cpc|] eqn:Hi; [|discriminate].
  destruct cpc; try discriminate;
    match type of H with
    | (if ?b then _ else _) = _ => destruct b; [|discriminate]
    end; injection H as <-;
    (constructor; [field | client_field | flow | field .. | client_field]).
Qed.

Lemma Inv_client_call (i : nat) (m : method) (st st' : system) :
  Inv st -> client_call i m st = Some st' -> Inv st'.
Proof.
  intros [Htok Hput Hflow Hexit Hdr Hseal Hcl Hrun Hret] H.
  destruct st as [[xtok mx q res es tr log dur cl] pc cnt cls ea].
  unfold client_call in H. cbn in *.
  destruct (nth_error cls i) as [cpc|] eqn:Hi; [|discriminate].
  destruct cpc; try discriminate; injection H as <-; destruct m;
    (constructor; [field | client_field | flow | field .. | client_field]).
Qed.

Lemma Inv_step (l : label) (st st' : system) :
  Inv st -> step l st = Some st' -> Inv st'.
Proof.
  destruct l; cbn [step].
  - apply Inv_run_step.
  - apply Inv_client_call.
  - apply Inv_client_step.
  - apply Inv_client_timeout.
  - apply Inv_run_raises.
Qed.

Lemma Inv_steps (ls : list label) (st st' : system) :
  Inv st -> steps ls st = Some st' -> Inv st'.
Proof.
  revert st. induction ls as [|l ls IH]; intros st HI H.
  - now injection H as <-.
  - cbn [steps] in H. destruct (step l st) as [st1|] eqn:Hs; [|discriminate].
    eapply IH; [|exact H]. now apply (Inv_step l st).
Qed.

(** X25.  What [close] does keep.  In every state the worker and any
    number of calling threads can reach from [__init__], under every
    interleaving:
    - the connection is closed only once every command that was put in
      the queue before [close] set [exit_set] has been executed and is
      covered by a commit (the log is committed whole);
    - a call of [close] has returned only once the worker has left its
      loop, the connection is closed, and those commands are executed
      and committed.
    A command put in the queue after the flag was set is not covered. *)
Theorem close_drains_early_commands (tok : string) (maxsize n : nat)
    (ls : list label) (st : system) :
  steps ls (init tok maxsize n) = Some st ->
  (conn_closed (ex st) = true ->
     exit_set (ex st) = true
     /\ conn_durable (ex st) = conn_log (ex st)
     /\ forall c, In c (early st) -> In c (conn_durable (ex st)))
  /\ (forall i,
        nth_error (clients st) i = Some (CReturned RetClosed) ->
        wpc st = WDone
        /\ conn_closed (ex st) = true
        /\ forall c, In c (early st) -> In c (conn_durable (ex st))).
Proof.
  intros Hrun.
  pose proof (Inv_steps ls _ st (Inv_init tok maxsize n) Hrun)
    as [Htok Hput Hflow Hexit Hdr Hseal Hcl Hrunning Hret].
  assert (Hclosed :
    conn_closed (ex st) = true ->
    exit_set (ex st) = true
    /\ conn_durable (ex st) = conn_log (ex st)
    /\ forall c, In c (early st) -> In c (conn_durable (ex st))).
  { intros Hc. rewrite Hcl in Hc.
    assert (Hs : sealed (wpc st) = true)
      by (destruct (wpc st); try discriminate; reflexivity).
    assert (Hd : drained (wpc st) = true)
      by (destruct (wpc st); try discriminate; reflexivity).
    split; [now apply Hexit, drained_exiting|].
    split; [now apply Hseal|].
    intros c Hin. rewrite (Hseal Hs). now apply Hdr. }
  split; [exact Hclosed|].
  intros i Hi. specialize (Hret i Hi). rewrite Hrunning in Hret.
  assert (Hdone : wpc st = WDone)
    by (destruct (wpc st); try discriminate; reflexivity).
  assert (Hc : conn_closed (ex st) = true) by (now rewrite Hcl, Hdone).
  split; [exact Hdone|]. split; [exact Hc|]. now apply Hclosed.
Qed.

Lemma close_drains_early_commands_witness :
  steps orderly_schedule (init "exit" 2000 1) = Some orderly_final
  /\ nth_error (clients orderly_final) 0 = Some (CReturned RetClosed)
  /\ In c1 (early orderly_final)
  /\ wpc orderly_final = WDone
  /\ conn_closed (ex orderly_final) = true
  /\ In c1 (conn_durable (ex orderly_final)).
Proof.
  assert (Hrun : steps orderly_schedule (init "exit" 2000 1)
                 = Some orderly_final) by (vm_compute; reflexivity).
  destruct (close_drains_early_commands "exit" 2000 1 orderly_schedule
              orderly_final Hrun) as [_ Hret].
  destruct (Hret 0 eq_refl) as (Hdone & Hclosed & Hin).
  split; [exact Hrun|]. split; [reflexivity|].
  assert (He : In c1 (early orderly_final)) by (left; reflexivity).
  split; [exact He|]. split; [exact Hdone|]. split; [exact Hclosed|].
  now apply Hin.
Defined.

End SqliteThreadWorkFacts.

(* ================================================================== *)
(** * More facts about [SharedStorage] and [GenericDictDB] *)

Module StorageDictExtra.
Import Sqlite StorageDict SqliteFacts JsonFacts StorageDictFacts.








(** ** [update] *)



Lemma get_by_value (k : string) (d : pyvalue) (s : storage) :
  get k d s
  = match option_map value (select_where_key k (conn s)) with
    | Some text => (decode_data text, s)
    | None =>
        match d with
        | PyNone => (Raise KeyError, s)
        | _ => (Ok d, s)
        end
    end.
Proof.
  unfold get, get_conn, bind, decode, ret, raise. cbv beta iota.
  destruct (select_where_key k (conn s)); [reflexivity|].
  destruct d; reflexivity.
Qed.



(** ** What every method keeps *)

Lemma preserves_ret {A} (P : storage -> Prop) (a : A) : preserves P (ret a).
Proof. intros s r s' HP [= _ <-]. exact HP. Qed.

Lemma preserves_raise {A} (P : storage -> Prop) (e : exn) :
  preserves P (@raise A e).
Proof. intros s r s' HP [= _ <-]. exact HP. Qed.

Lemma preserves_bind {A B} (P : storage -> Prop) (m : M A) (f : A -> M B) :
  preserves P m -> (forall a, preserves P (f a)) -> preserves P (bind m f).
Proof.
  intros Hm Hf s r s' HP H. unfold bind in H.
  destruct (m s) as [[a|e] s1] eqn:Hms.
  - apply (Hf a s1 r s'); [now apply (Hm s (Ok a) s1) | exact H].
  - injection H as _ <-. now apply (Hm s (Raise e) s1).
Qed.

Lemma preserves_try {A} (P : storage -> Prop) (body handler : M A) :
  preserves P body -> preserves P handler ->
  preserves P (try_except_KeyError body handler).
Proof.
  intros Hb Hh s r s' HP H. unfold try_except_KeyError in H.
  destruct (body s) as [[a|e] s1] eqn:Hbs.
  - injection H as _ <-. now apply (Hb s (Ok a) s1).
  - pose proof (Hb s (Raise e) s1 HP Hbs) as HP1.
    destruct e; try (injection H as _ <-; exact HP1).
    now apply (Hh s1 r s').
Qed.

Lemma preserves_check (P : storage -> Prop) : preserves P _check_read_only.
Proof.
  intros s r s' HP H. unfold _check_read_only in H.
  destruct (read_only s); injection H as _ <-; exact HP.
Qed.

Lemma preserves_get (P : storage -> Prop) (k : string) (d : pyvalue) :
  preserves P (get k d).
Proof.
  intros s r s' HP H. rewrite get_by_value in H.
  destruct (option_map value (select_where_key k (conn s)));
    [|destruct d]; injection H as _ <-; exact HP.
Qed.

Lemma preserves__set (P : storage -> Prop) (now : Z) (k : string)
    (v : pyvalue) :
  stable P -> preserves P (_set now k v).
Proof.
  intros (Hins & _) s r s' HP H.
  unfold _set, get_conn, put_conn, bind in H. injection H as _ <-.
  now apply Hins.
Qed.

Lemma preserves_set (P : storage -> Prop) (now : Z) (k : string)
    (v : pyvalue) :
  stable P -> preserves P (set now k v).
Proof.
  intros HS. pose proof HS as (_ & _ & _ & Hc & _). unfold set.
  apply preserves_bind; [apply preserves_check | intros _].
  apply preserves_bind; [now apply preserves__set | intros _; exact Hc].
Qed.

Lemma preserves_delete (P : storage -> Prop) (k : string) (f : bool) :
  stable P -> preserves P (delete k f).
Proof.
  intros (_ & Hdel & _ & Hc & _). unfold delete.
  apply preserves_bind; [apply preserves_check | intros _].
  intros s r s' HP H. unfold bind at 1, get_conn in H.
  cbv beta iota in H. specialize (Hdel s k HP).
  destruct (delete_where_key k (conn s)) as [n c'].
  cbn [snd] in Hdel. unfold bind at 1, put_conn in H. cbv beta iota in H.
  refine (preserves_bind P commit _ Hc _ (with_conn c' s) r s' Hdel H).
  intros _. destruct (n =? 0)%nat; [|apply preserves_ret].
  apply preserves_bind.
  - unfold load_global.
    destruct (existsb (String.eqb "ignore_error") module_globals);
      [apply preserves_ret | apply preserves_raise].
  - intros b. destruct (negb b); [apply preserves_raise | apply preserves_ret].
Qed.

Lemma preserves_update_from (P : storage -> Prop) (clock : nat -> Z)
    (dic : list (string * pyvalue)) :
  stable P -> forall i, preserves P (update_from i clock dic).
Proof.
  intros HS. induction dic as [|[k v] dic IH]; intros i; cbn [update_from].
  - apply preserves_ret.
  - apply preserves_bind; [now apply preserves__set | intros _; apply IH].
Qed.

Lemma preserves_update (P : storage -> Prop) (clock : nat -> Z)
    (dic : list (string * pyvalue)) :
  stable P -> preserves P (update clock dic).
Proof.
  intros HS. pose proof HS as (_ & _ & _ & Hc & _). unfold update.
  apply preserves_bind; [apply preserves_check | intros _].
  apply preserves_bind;
    [now apply preserves_update_from | intros _; exact Hc].
Qed.

Lemma preserves_pop (P : storage -> Prop) (k : string) (d : pyvalue) :
  stable P -> preserves P (pop k d).
Proof.
  intros HS. pose proof HS as (_ & _ & Hb & Hc & Hr). unfold pop.
  apply preserves_bind; [apply preserves_check | intros _].
  apply preserves_try.
  - apply preserves_bind; [exact Hb | intros _].
    apply preserves_bind; [apply preserves_get | intros v].
    apply preserves_bind; [now apply preserves_delete | intros _].
    apply preserves_bind; [exact Hc | intros _; apply preserves_ret].
  - apply preserves_bind; [exact Hr | intros _].
    destruct d; (apply preserves_raise || apply preserves_ret).
Qed.

Lemma preserves_perform (P : storage -> Prop) (c : call) :
  stable P -> preserves P (perform c).
Proof.
  intros HS. destruct c; cbn [perform].
  - now apply preserves_set.
  - now apply preserves_delete.
  - now apply preserves_update.
  - apply preserves_bind; [now apply preserves_pop | intros _].
    apply preserves_ret.
  - apply preserves_bind; [apply preserves_get | intros _].
    apply preserves_ret.
Qed.

Lemma preserves_block (P : storage -> Prop) (cs : list call) :
  stable P -> preserves P (block cs).
Proof.
  intros HS. induction cs as [|c cs IH]; cbn [block].
  - apply preserves_ret.
  - apply preserves_bind; [now apply preserves_perform | intros _; exact IH].
Qed.

(** ** One entry per key *)

Lemma committed_implicit_begin (c : connection) :
  committed (implicit_begin c) = committed c.
Proof. destruct c as [cm [t|]]; reflexivity. Qed.

Lemma NoDup_keys_filter (p : row -> bool) (t : table) :
  NoDup (map key t) -> NoDup (map key (filter p t)).
Proof.
  induction t as [|r t IH]; intros H; [exact H|].
  cbn in *. apply NoDup_cons_iff in H as [Hr Ht].
  destruct (p r); [|now apply IH].
  cbn. constructor; [|now apply IH].
  intros Hin. apply Hr. apply in_map_iff in Hin as (x & Hx & Hin).
  apply filter_In in Hin as [Hin _]. apply in_map_iff. now exists x.
Qed.

Lemma keys_filter_out (k : string) (t : table) :
  ~ In k (map key (filter (fun r => negb (has_key k r)) t)).
Proof.
  intros Hin. apply in_map_iff in Hin as (x & Hx & Hin).
  apply filter_In in Hin as [_ Hk]. unfold has_key in Hk.
  rewrite Hx, String.eqb_refl in Hk. discriminate.
Qed.

Lemma NoDup_keys_insert (k v : string) (ins now : Z) (t : table) :
  NoDup (map key t) ->
  NoDup (map key (filter (fun r => negb (has_key k r)) t
                    ++ [mkRow k v ins now])%list).
Proof.
  intros H. rewrite map_app. apply NoDup_app.
  - now apply NoDup_keys_filter.
  - cbn. constructor; [intros [] | constructor].
  - intros a Ha [<-|[]]. now apply (keys_filter_out (key (mkRow k v ins now)) t).
Qed.

Lemma stable_unique_keys : stable (fun s => unique_keys (conn s)).
Proof.
  unfold stable, unique_keys.
  split; [|split; [|split; [|split]]].
  - intros s k v now [Hc Hv]. cbn [conn with_conn]. split.
    + unfold insert_or_replace. cbn.
      now rewrite committed_implicit_begin.
    + rewrite view_insert_or_replace. now apply NoDup_keys_insert.
  - intros s k [Hc Hv]. cbn [conn with_conn]. split.
    + unfold delete_where_key. cbn.
      now rewrite committed_implicit_begin.
    + rewrite view_delete_where_key. now apply NoDup_keys_filter.
  - intros s r s' [Hc Hv] H.
    destruct s as [[cm [t|]] ro [|]]; cbn in *; injection H as _ <-;
      cbn; now split.
  - intros s r s' [Hc Hv] H.
    destruct s as [[cm [t|]] ro [|]]; cbn in *; injection H as _ <-;
      cbn; now split.
  - intros s r s' [Hc Hv] H.
    destruct s as [[cm [t|]] ro [|]]; cbn in *; injection H as _ <-;
      cbn; now split.
Qed.

(** X3.  No sequence of [set], [delete], [update], [pop] and [get] ever
    leaves a key with two rows, whether the sequence ends at the first
    call that raises or the caller catches the exception and goes on: the
    table a connection sees and the committed table keep distinct keys. *)
Theorem one_entry_per_key (cs : list call) (s : storage) :
  unique_keys (conn s) ->
  unique_keys (conn (snd (block cs s)))
  /\ unique_keys (conn (session cs s)).
Proof.
  intros H. split.
  - destruct (block cs s) as [r s'] eqn:Hb.
    exact (preserves_block _ cs stable_unique_keys s r s' H Hb).
  - revert s H. induction cs as [|c cs IH]; intros s H; [exact H|].
    cbn [session]. apply IH.
    destruct (perform c s) as [r s'] eqn:Hp.
    exact (preserves_perform _ c stable_unique_keys s r s' H Hp).
Qed.

Lemma one_entry_per_key_witness :
  unique_keys
    (conn (snd (block [CallSet 9 "a" (PyInt 2); CallDelete "zz" true;
                       CallSet 10 "b" PyNone]
                  one_entry_store)))
  /\ unique_keys
       (conn (session [CallSet 9 "a" (PyInt 2); CallDelete "zz" true;
                       CallSet 10 "b" PyNone]
                one_entry_store)).
Proof.
  apply one_entry_per_key. split; cbn.
  - constructor; [intros [] | constructor].
  - constructor; [intros [] | constructor].
Defined.




(** ** The [with] block *)

Lemma enter_spec (s : storage) :
  exists s1,
    __enter__ s = (Ok tt, s1)
    /\ active_context s1 = true
    /\ committed (conn s1) = committed (conn s)
    /\ view (conn s1) = view (conn s)
    /\ read_only s1 = read_only s.
Proof.
  destruct s as [[cm [t|]] ro [|]]; eexists;
    (split; [reflexivity|]); cbn; repeat split.
Qed.

Lemma stable_in_context (t0 : table) :
  stable (fun s => active_context s = true /\ committed (conn s) = t0).
Proof.
  unfold stable. split; [|split; [|split; [|split]]].
  - intros s k v now [Ha Hc]. split; [exact Ha|]. cbn [conn with_conn].
    unfold insert_or_replace. cbn. now rewrite committed_implicit_begin.
  - intros s k [Ha Hc]. split; [exact Ha|]. cbn [conn with_conn].
    unfold delete_where_key. cbn. now rewrite committed_implicit_begin.
  - intros s r s' [Ha Hc] H. unfold begin in H. rewrite Ha in H.
    injection H as _ <-. now split.
  - intros s r s' [Ha Hc] H. unfold commit in H. rewrite Ha in H.
    injection H as _ <-. now split.
  - intros s r s' [Ha Hc] H. unfold rollback in H. rewrite Ha in H.
    injection H as _ <-. now split.
Qed.

Lemma exit_commits (s : storage) : __exit__ true s = view (conn s).
Proof. destruct s as [[cm [t|]] ro ac]; reflexivity. Qed.

Lemma exit_rolls_back (s : storage) : __exit__ false s = committed (conn s).
Proof. destruct s as [[cm [t|]] ro ac]; reflexivity. Qed.

(** X5.  A [with] block is all or nothing.  While the block runs nothing
    is committed, whatever its calls commit or roll back themselves; when
    it ends without an exception the file gets the table the block has
    come to, and when a call raises the file keeps the table it had when
    the block was entered (and the exception goes on to the caller). *)
Theorem with_block_all_or_nothing (cs : list call) (s : storage)
    (r : result unit) (t : table) :
  with_block cs s = (r, t) ->
  exists s1,
    (__enter__ ;;; block cs) s = (r, s1)
    /\ committed (conn s1) = committed (conn s)
    /\ t = match r with
           | Ok _ => view (conn s1)
           | Raise _ => committed (conn s)
           end.
Proof.
  intros H. unfold with_block in H.
  destruct ((__enter__ ;;; block cs) s) as [r1 s1] eqn:E.
  assert (Hc : committed (conn s1) = committed (conn s)).
  { destruct (enter_spec s) as (s0 & He & Ha & Hc0 & _).
    unfold bind in E. rewrite He in E.
    exact (proj2 (preserves_block _ cs (stable_in_context (committed (conn s)))
                    s0 r1 s1 (conj Ha Hc0) E)). }
  exists s1. destruct r1 as [[]|e]; injection H as <- <-.
  - split; [reflexivity|]. split; [exact Hc|]. apply exit_commits.
  - split; [reflexivity|]. split; [exact Hc|].
    rewrite exit_rolls_back. exact Hc.
Qed.

Lemma with_block_all_or_nothing_witness :
  exists s1,
    (__enter__ ;;; block [CallSet 9 "b" (PyInt 2); CallDelete "zz" true])
      one_entry_store
    = (Raise NameError, s1)
    /\ committed (conn s1) = committed (conn one_entry_store)
    /\ [mkRow "a" (encode (PyInt 1)) 5 5] = committed (conn one_entry_store).
Proof.
  exact (with_block_all_or_nothing
           [CallSet 9 "b" (PyInt 2); CallDelete "zz" true] one_entry_store
           (Raise NameError) [mkRow "a" (encode (PyInt 1)) 5 5] eq_refl).
Defined.

(** X6.  Outside a [with] block [set] is durable at once: it commits the
    transaction it finds or opens, so a [rollback] after it undoes
    nothing (also when [begin] was called before it) and [close] leaves
    the new table in the file. *)
Theorem set_is_durable (now : Z) (k : string) (v : pyvalue) (s : storage) :
  read_only s = false ->
  active_context s = false ->
  exists s1,
    set now k v s = (Ok tt, s1)
    /\ (begin ;;; set now k v) s = (Ok tt, s1)
    /\ pending (conn s1) = None
    /\ committed (conn s1) = view (insert_or_replace k (encode v) now (conn s))
    /\ rollback s1 = (Ok tt, s1)
    /\ close s1 = view (conn s1).
Proof.
  intros Hro Hac. destruct s as [[cm p] ro ac]. cbn in Hro, Hac. subst.
  eexists. split; [reflexivity|].
  destruct p as [t|]; repeat split.
Qed.

Lemma set_is_durable_witness :
  exists s1,
    set 9 "b" (PyInt 2) one_entry_store = (Ok tt, s1)
    /\ (begin ;;; set 9 "b" (PyInt 2)) one_entry_store = (Ok tt, s1)
    /\ pending (conn s1) = None
    /\ committed (conn s1)
       = view (insert_or_replace "b" (encode (PyInt 2)) 9
                 (conn one_entry_store))
    /\ rollback s1 = (Ok tt, s1)
    /\ close s1 = view (conn s1).
Proof.
  apply (set_is_durable 9 "b" (PyInt 2) one_entry_store); reflexivity.
Defined.

(** ** [items], [keys], [count] *)

Lemma items_of_holds (rows : list row) (kvs : list (string * pyvalue))
    (s : storage) :
  Forall2 holds rows kvs -> items_of rows s = (Ok kvs, s).
Proof.
  induction 1 as [|r [k v] rows kvs (Hk & Hv & Hn) _ IH]; [reflexivity|].
  cbn [items_of]. unfold bind, decode. cbn [fst snd] in *.
  rewrite Hv, (decode_encode v Hn), IH. cbn. now rewrite Hk.
Qed.

(** X7.  When every row holds the text [set] writes for a JSON-native
    value, [items] returns the keys with the values themselves, in the
    order of the table; [keys] returns those keys, each as often (what
    is stated of [keys] does not depend on the order of its list, which
    the statement without [ORDER BY] leaves to the scan), and [count]
    their number. *)
Theorem items_keys_count_agree (s : storage)
    (kvs : list (string * pyvalue)) :
  Forall2 holds (view (conn s)) kvs ->
  items s = (Ok kvs, s)
  /\ (exists ks,
        keys s = (Ok ks, s)
        /\ List.length ks = List.length kvs
        /\ forall k, count_occ string_dec ks k
                     = count_occ string_dec (map fst kvs) k)
  /\ count s = (Ok (List.length kvs), s).
Proof.
  intros H. split; [|split].
  - unfold items, get_conn, bind. now apply items_of_holds.
  - exists (map key (view (conn s))). split; [reflexivity|].
    assert (He : map key (view (conn s)) = map fst kvs).
    { induction H as [|r kv rows kvs (Hk & _) _ IH]; [reflexivity|].
      cbn. now rewrite Hk, IH. }
    rewrite He. split; [apply length_map | reflexivity].
  - unfold count, get_conn, bind, ret, select_count. do 2 f_equal.
    now apply Forall2_length in H.
Qed.

Lemma items_keys_count_agree_witness :
  items one_entry_store = (Ok [("a", PyInt 1)], one_entry_store)
  /\ (exists ks,
        keys one_entry_store = (Ok ks, one_entry_store)
        /\ List.length ks = List.length [("a", PyInt 1)]
        /\ forall k, count_occ string_dec ks k
                     = count_occ string_dec (map fst [("a", PyInt 1)]) k)
  /\ count one_entry_store = (Ok 1%nat, one_entry_store).
Proof.
  apply (items_keys_count_agree one_entry_store [("a", PyInt 1)]).
  repeat constructor.
Defined.

(** X8.  One row whose text is JSON, but not of an object (the text
    [json.dumps] writes for [None], a bool, an int, a str or a list),
    makes [items] raise: [json.loads(...)] gives a value without [get].
    No item of the other rows is returned, and the store is left as it
    was. *)
Theorem items_raises_on_foreign_row (s : storage) (r : row) (v : pyvalue) :
  In r (view (conn s)) ->
  json_native v = true ->
  (forall d, v <> PyDict d) ->
  value r = Json.dumps v ->
  exists e, items s = (Raise e, s).
Proof.
  intros Hin Hn Hnd Hv.
  assert (Hbad : decode_data (value r) = Raise AttributeError).
  { unfold decode_data. rewrite Hv, (loads_dumps v Hn).
    destruct v; try reflexivity. now destruct (Hnd d). }
  unfold items, get_conn, bind.
  induction (view (conn s)) as [|x rows IH]; [destruct Hin|].
  cbn [items_of]. unfold bind, decode.
  destruct (decode_data (value x)) as [w|e] eqn:Hx; [|now exists e].
  destruct Hin as [->|Hin]; [congruence|].
  destruct (IH Hin) as (e & ->). now exists e.
Qed.

Lemma items_raises_on_foreign_row_witness :
  exists e,
    items (mkStorage (mkConn [mkRow "a" (encode (PyInt 1)) 5 5;
                              mkRow "b" "[1]" 6 6] None) false false)
    = (Raise e,
       mkStorage (mkConn [mkRow "a" (encode (PyInt 1)) 5 5;
                          mkRow "b" "[1]" 6 6] None) false false).
Proof.
  apply (items_raises_on_foreign_row _ (mkRow "b" "[1]" 6 6)
           (PyList [PyInt 1])).
  - right. left. reflexivity.
  - reflexivity.
  - discriminate.
  - reflexivity.
Defined.

(** ** Time stamps *)

Lemma well_timed_mono (now now' : Z) (t : table) :
  (now <= now')%Z -> well_timed now t -> well_timed now' t.
Proof.
  intros Hle H. unfold well_timed in *.
  eapply Forall_impl; [|exact H]. cbn. intros r [H1 H2]. split; lia.
Qed.

Lemma well_timed_filter (now : Z) (p : row -> bool) (t : table) :
  well_timed now t -> well_timed now (filter p t).
Proof.
  unfold well_timed. rewrite !Forall_forall. intros H r Hin.
  apply filter_In in Hin as [Hin _]. now apply H.
Qed.

Lemma well_timed_find (now : Z) (p : row -> bool) (t : table) (r : row) :
  well_timed now t -> find p t = Some r ->
  (inserted r <= updated r)%Z /\ (updated r <= now)%Z.
Proof.
  unfold well_timed. rewrite Forall_forall. intros H Hf.
  apply find_some in Hf as [Hin _]. now apply H.
Qed.

(** X9.  With a clock that does not go back, [set] keeps every time
    stamp in order ([inserted <= updated <= now]), so [age] of any key
    returns two non-negative numbers, the time since the first [set] not
    less than the time since the last. *)
Theorem ages_are_ordered (now now' later : Z) (k k' : string) (v : pyvalue)
    (s : storage) :
  read_only s = false ->
  well_timed now (view (conn s)) ->
  (now <= now')%Z ->
  (now' <= later)%Z ->
  exists s1,
    set now' k v s = (Ok tt, s1)
    /\ well_timed now' (view (conn s1))
    /\ forall a b,
         fst (age later k' s1) = Ok (a, b) -> (0 <= b <= a)%Z.
Proof.
  intros Hro Hwt Hle Hlater.
  destruct (set_spec now' k v s Hro) as (s1 & Hset & _ & _ & Hview).
  assert (Hwt1 : well_timed now' (view (conn s1))).
  { rewrite Hview, view_insert_or_replace. apply Forall_app. split.
    - apply well_timed_filter. now apply (well_timed_mono now).
    - constructor; [|constructor]. cbn.
      destruct (select_where_key k (conn s)) as [r|] eqn:Hr; [|lia].
      destruct (well_timed_find now _ _ r Hwt Hr). lia. }
  exists s1. split; [exact Hset|]. split; [exact Hwt1|].
  intros a b. unfold age, get_conn, bind, ret, raise. cbv beta iota.
  destruct (select_where_key k' (conn s1)) as [r|] eqn:Hr; [|discriminate].
  cbn. intros [= <- <-].
  destruct (well_timed_find now' _ _ r Hwt1 Hr). lia.
Qed.

Lemma ages_are_ordered_witness :
  exists s1,
    set 9 "a" (PyInt 2) one_entry_store = (Ok tt, s1)
    /\ well_timed 9 (view (conn s1))
    /\ forall a b,
         fst (age 12 "a" s1) = Ok (a, b) -> (0 <= b <= a)%Z.
Proof.
  apply (ages_are_ordered 5 9 12 "a" "a" (PyInt 2) one_entry_store);
    [reflexivity | | lia | lia].
  constructor; [cbn; lia | constructor].
Defined.


(** ** Values that are not JSON-native *)



(** ** [delete] *)



(** ** [__init__] *)

Lemma filter_live (expires now : Z) (t : table) :
  filter (fun r => negb (updated r + expires <? now)%Z) t
  = filter (fun r => (now <=? updated r + expires)%Z) t.
Proof.
  apply filter_ext. intros r. symmetry. apply Z.leb_antisym.
Qed.

Lemma fits_int64_positive (z : Z) :
  (0 < z)%Z -> (z < 2 ^ 63)%Z -> fits_int64 z = true.
Proof.
  intros H0 H1. unfold fits_int64. apply andb_true_iff. split.
  - apply Z.leb_le. change (- 2 ^ 63)%Z with (-9223372036854775808)%Z. lia.
  - now apply Z.ltb_lt.
Qed.

Lemma init_writable (db : database) (expires now : Z) :
  (expires < 2 ^ 63)%Z ->
  __init__ db false expires now
  = Opened
      (mkStorage
         (mkConn
            (let t := match db with HasTable t => t | _ => [] end in
             if (0 <? expires)%Z
             then filter (fun r => (now <=? updated r + expires)%Z) t
             else t) None) false false).
Proof.
  intros Hfit.
  assert (Hc : negb false && (0 <? expires)%Z && negb (fits_int64 expires)
               = false).
  { destruct (0 <? expires)%Z eqn:H0; [|reflexivity].
    apply Z.ltb_lt in H0. now rewrite fits_int64_positive. }
  destruct db as [| |t]; cbn [__init__]; unfold _initialize; rewrite Hc;
    destruct (0 <? expires)%Z; cbn; try reflexivity.
  now rewrite <- (filter_live expires now t).
Qed.

Lemma init_overflow (db : database) (expires now : Z) :
  (2 ^ 63 <= expires)%Z ->
  __init__ db false expires now = RaisedOverflowError.
Proof.
  intros H.
  assert (Hc : negb false && (0 <? expires)%Z && negb (fits_int64 expires)
               = true).
  { assert (H0 : (0 <? expires)%Z = true).
    { apply Z.ltb_lt. change (2 ^ 63)%Z with 9223372036854775808%Z in H.
      lia. }
    assert (H1 : (expires <? 2 ^ 63)%Z = false) by now apply Z.ltb_ge.
    unfold fits_int64. rewrite H0, H1. cbn. now rewrite andb_false_r. }
  destruct db as [| |t]; cbn [__init__]; unfold _initialize; now rewrite Hc.
Qed.

(** X12.  Opening a store.  Read-only, the file and the table of the
    namespace must be there, and the table is taken as it is, whatever
    [expires] is.  Writable, with [expires] from [2 ** 63] on the sweep
    cannot bind it and [__init__] raises [OverflowError]; below that a
    missing file or table gives an empty store, a positive [expires]
    removes exactly the entries not updated in the last [expires] seconds
    and keeps the others in their order, and the result is committed
    before [__init__] returns, no transaction left open. *)
Theorem open_contract (db : database) (expires now : Z) :
  __init__ db true expires now
  = match db with
    | HasTable t => Opened (mkStorage (mkConn t None) true false)
    | _ => RaisedWBStorageException
    end
  /\ ((2 ^ 63 <= expires)%Z ->
      __init__ db false expires now = RaisedOverflowError)
  /\ ((expires < 2 ^ 63)%Z ->
      exists s,
        __init__ db false expires now = Opened s
        /\ read_only s = false
        /\ active_context s = false
        /\ pending (conn s) = None
        /\ committed (conn s)
           = let t := match db with HasTable t => t | _ => [] end in
             if (0 <? expires)%Z
             then filter (fun r => (now <=? updated r + expires)%Z) t
             else t).
Proof.
  split; [now destruct db|]. split; [apply init_overflow|].
  intros H. eexists. split; [now apply init_writable|]. now repeat split.
Qed.

Lemma open_contract_witness :
  __init__ (HasTable [mkRow "a" "x" 5 5; mkRow "b" "y" 5 50]) false
    9223372036854775808 100
  = RaisedOverflowError
  /\ exists s,
       __init__ (HasTable [mkRow "a" "x" 5 5; mkRow "b" "y" 5 50]) false
         60 100
       = Opened s
       /\ pending (conn s) = None
       /\ committed (conn s) = [mkRow "b" "y" 5 50].
Proof.
  destruct (open_contract (HasTable [mkRow "a" "x" 5 5; mkRow "b" "y" 5 50])
              9223372036854775808 100) as (_ & Hover & _).
  destruct (open_contract (HasTable [mkRow "a" "x" 5 5; mkRow "b" "y" 5 50])
              60 100) as (_ & _ & Hopen).
  split; [apply Hover; discriminate|].
  destruct Hopen as (s & Hs & _ & _ & Hp & Hc); [reflexivity|].
  exists s. split; [exact Hs|]. split; [exact Hp | exact Hc].
Defined.

(** ** The same calls inside and outside a [with] block *)

Ltac shapes :=
  match goal with
  | |- forall s_in s_out, same_table s_in s_out -> _ =>
      intros [[cm [t|]] ro a] [[cm' p'] ro' a'] (Hv & Hro & Ha & Ha' & Hp);
      cbn in Hv, Hro, Ha, Ha', Hp; subst
  end.

Ltac same :=
  unfold same_table, insert_or_replace, delete_where_key; cbn;
  repeat split.

Lemma agrees_set (now : Z) (k : string) (v : pyvalue) :
  agrees (set now k v).
Proof.
  unfold agrees. shapes; destruct ro'; cbn;
    (split; [reflexivity|]); intros ? ?; try discriminate; same.
Qed.

Lemma agrees_get (k : string) (d : pyvalue) : agrees (get k d).
Proof.
  unfold agrees. shapes; rewrite !get_by_value; unfold select_where_key;
    cbn [conn view pending committed];
    (destruct (option_map value (find (has_key k) _)); [|destruct d]);
    (split; [reflexivity|]); intros ? ?; try discriminate; same.
Qed.

Lemma agrees_delete (k : string) (f : bool) : agrees (delete k f).
Proof.
  unfold agrees. shapes; destruct ro'; unfold delete; cbn;
    match goal with
    | |- context [(?n =? 0)%nat] => destruct (n =? 0)%nat
    | _ => idtac
    end; cbn;
    (split; [reflexivity|]); intros ? ?; try discriminate; same.
Qed.

Lemma update_from_view (clock : nat -> Z) (dic : list (string * pyvalue)) :
  forall i s1 s2,
    view (conn s1) = view (conn s2) ->
    exists s1' s2',
      update_from i clock dic s1 = (Ok tt, s1')
      /\ update_from i clock dic s2 = (Ok tt, s2')
      /\ view (conn s1') = view (conn s2')
      /\ read_only s1' = read_only s1 /\ read_only s2' = read_only s2
      /\ active_context s1' = active_context s1
      /\ active_context s2' = active_context s2.
Proof.
  induction dic as [|[k v] dic IH]; intros i s1 s2 Hv.
  - exists s1, s2. repeat split. exact Hv.
  - cbn [update_from]. unfold _set, get_conn, put_conn, bind.
    cbv beta iota.
    destruct (IH (S i)
                (with_conn (insert_or_replace k (encode v) (clock i)
                              (conn s1)) s1)
                (with_conn (insert_or_replace k (encode v) (clock i)
                              (conn s2)) s2))
      as (s1' & s2' & H1 & H2 & Hv' & Hr1 & Hr2 & Ha1 & Ha2).
    + cbn [conn with_conn]. rewrite !view_insert_or_replace.
      now rewrite (select_where_key_view k _ _ Hv), Hv.
    + exists s1', s2'. repeat split; assumption.
Qed.

Lemma agrees_update (clock : nat -> Z) (dic : list (string * pyvalue)) :
  agrees (update clock dic).
Proof.
  intros s_in s_out (Hv & Hro & Ha & Ha' & Hp).
  unfold update, _check_read_only, bind. rewrite Hro.
  destruct (read_only s_out) eqn:Hr; [split; [reflexivity | discriminate]|].
  destruct (update_from_view clock dic 0 s_in s_out Hv)
    as (s1 & s2 & -> & -> & Hv' & Hr1 & Hr2 & Ha1 & Ha2).
  destruct (commit_spec s1) as (s1' & -> & Hc1 & Hcr1 & Hca1 & _).
  destruct (commit_spec s2) as (s2' & -> & Hc2 & Hcr2 & Hca2 & Hcp2).
  cbn [fst snd]. split; [reflexivity|]. intros _ _.
  unfold same_table. rewrite Hc1, Hc2, Hcr1, Hcr2, Hca1, Hca2.
  repeat split; try congruence.
  apply Hcp2. congruence.
Qed.

Lemma agrees_pop (k : string) (d : pyvalue) : agrees (pop k d).
Proof.
  unfold agrees. shapes; destruct ro'; unfold pop; cbn;
    try (split; [reflexivity | discriminate]).
  all: unfold try_except_KeyError, bind, begin, get, get_conn, decode, ret,
         raise, select_where_key, delete, _check_read_only, put_conn,
         commit, rollback, load_global; cbn.
  all: destruct (find (has_key k) cm') as [r|]; cbn.
  all: try (destruct (decode_data (value r)) as [v|[]]; cbn).
  all: try match goal with
           | |- context [(?n =? 0)%nat] => destruct (n =? 0)%nat; cbn
           end.
  all: try (destruct d; cbn).
  all: (split; [reflexivity|]); intros ? ?; try discriminate; same.
Qed.

Lemma agrees_perform (c : call) : agrees (perform c).
Proof.
  assert (Hret : forall A (m : M A),
             agrees m -> agrees (m ;;; ret tt)).
  { intros A m Hm s_in s_out Hs. destruct (Hm s_in s_out Hs) as [Hf Hok].
    unfold bind, ret.
    destruct (m s_in) as [[a|e] s1], (m s_out) as [[a'|e'] s2];
      cbn in *; try discriminate; (split; [congruence|]);
      intros; try discriminate. now apply (Hok a). }
  destruct c; cbn [perform].
  - apply agrees_set.
  - apply agrees_delete.
  - apply agrees_update.
  - apply Hret, agrees_pop.
  - apply Hret, agrees_get.
Qed.

Lemma agrees_block (cs : list call) : agrees (block cs).
Proof.
  induction cs as [|c cs IH]; intros s_in s_out Hs; cbn [block].
  - split; [reflexivity | intros; exact Hs].
  - destruct (agrees_perform c s_in s_out Hs) as [Hf Hok].
    unfold bind.
    destruct (perform c s_in) as [[[]|e] s1],
             (perform c s_out) as [[[]|e'] s2];
      cbn in *; try discriminate.
    + apply IH. now apply (Hok tt).
    + split; [exact Hf | discriminate].
Qed.

(** X13.  On a store that is not inside a [with] block and has no
    transaction open, a [with] block of calls raises exactly when the
    same calls made one after the other raise, with the same exception;
    and when they all return, the block leaves in the file the table
    the plain calls leave. *)
Theorem with_block_as_plain_calls (cs : list call) (s : storage) :
  active_context s = false ->
  pending (conn s) = None ->
  fst (with_block cs s) = fst (block cs s)
  /\ (fst (block cs s) = Ok tt ->
      snd (with_block cs s) = close (snd (block cs s))).
Proof.
  intros Ha Hp.
  destruct (enter_spec s) as (s0 & He & Ha0 & _ & Hv0 & Hr0).
  assert (Hs : same_table s0 s) by (repeat split; assumption).
  destruct (agrees_block cs s0 s Hs) as [Hf Hok].
  assert (Hb : (__enter__ ;;; block cs) s = block cs s0)
    by (unfold bind; now rewrite He).
  unfold with_block. rewrite Hb.
  destruct (block cs s0) as [[[]|e] s1], (block cs s) as [[[]|e'] s2];
    cbn [fst snd] in *; try discriminate.
  - split; [reflexivity|]. intros _.
    destruct (Hok tt eq_refl) as (Hv & _ & _ & _ & Hp2).
    rewrite exit_commits, Hv. unfold close, view. now rewrite Hp2.
  - split; [exact Hf | discriminate].
Qed.

Lemma with_block_as_plain_calls_witness :
  fst (with_block [CallSet 9 "b" (PyInt 2); CallPop "a" PyNone]
         one_entry_store)
  = fst (block [CallSet 9 "b" (PyInt 2); CallPop "a" PyNone]
           one_entry_store)
  /\ (fst (block [CallSet 9 "b" (PyInt 2); CallPop "a" PyNone]
             one_entry_store) = Ok tt ->
      snd (with_block [CallSet 9 "b" (PyInt 2); CallPop "a" PyNone]
             one_entry_store)
      = close (snd (block [CallSet 9 "b" (PyInt 2); CallPop "a" PyNone]
                      one_entry_store))).
Proof.
  apply (with_block_as_plain_calls
           [CallSet 9 "b" (PyInt 2); CallPop "a" PyNone] one_entry_store);
    reflexivity.
Defined.

End StorageDictExtra.

(* ================================================================== *)
(** * Facts about [GenericDictDB] *)

Module GenericDictDBFacts.
Import Sqlite StorageDict SqliteFacts JsonFacts StorageDictFacts.
Import StorageDictExtra GenericDictDB.

Lemma decode_data_not_KeyError (text : string) :
  decode_data text <> Raise KeyError.
Proof.
  unfold decode_data. destruct (Json.loads text) as [[]|]; discriminate.
Qed.

Lemma load_spec (k : string) (s : storage) :
  load k s
  = match select_where_key k (conn s) with
    | None => (Ok PyNone, s)
    | Some r => (decode_data (value r), s)
    end.
Proof.
  unfold load, try_except_KeyError, __getitem__.
  rewrite get_by_value.
  destruct (select_where_key k (conn s)) as [r|]; [|reflexivity].
  cbn [option_map]. pose proof (decode_data_not_KeyError (value r)) as Hn.
  destruct (decode_data (value r)) as [v|[]]; try reflexivity.
  now destruct Hn.
Qed.

(** X14.  [load(k)] is [get(k)] with the missing key turned into [None]:
    it returns [None] for a key that has no entry, what [get] returns
    or raises for one that has, and never raises [KeyError]; the store
    is not touched. *)
Theorem load_contract (k : string) (s : storage) :
  (select_where_key k (conn s) = None -> load k s = (Ok PyNone, s))
  /\ (select_where_key k (conn s) <> None -> load k s = get k PyNone s)
  /\ fst (load k s) <> Raise KeyError
  /\ snd (load k s) = s.
Proof.
  rewrite load_spec, get_by_value.
  destruct (select_where_key k (conn s)) as [r|]; cbn [option_map fst snd].
  - split; [discriminate|]. split; [reflexivity|].
    split; [apply decode_data_not_KeyError | reflexivity].
  - split; [reflexivity|]. split; [now intros []|].
    split; [discriminate | reflexivity].
Qed.

Lemma load_contract_witness :
  load "zz" one_entry_store = (Ok PyNone, one_entry_store)
  /\ load "a" one_entry_store = get "a" PyNone one_entry_store.
Proof.
  split.
  - apply (proj1 (load_contract "zz" one_entry_store)). reflexivity.
  - apply (proj1 (proj2 (load_contract "a" one_entry_store))). discriminate.
Defined.

Lemma find_filter_none {A} (p q : A -> bool) (l : list A) :
  find p l = None -> find p (filter q l) = None.
Proof.
  induction l as [|x l IH]; [reflexivity|]. cbn.
  destruct (p x) eqn:Hp; [discriminate|]. intros H.
  destruct (q x); cbn; [rewrite Hp|]; now apply IH.
Qed.

(** X15.  An entry lives sixty seconds from its last [save]: saved at
    [t_save], after the store is closed and opened again at [now],
    [load] returns the value when [now <= t_save + 60] and [None] when
    the open has swept it. *)
Theorem saved_entry_expires (db : database) (t_open t_save now : Z)
    (k : string) (v : pyvalue) :
  json_native v = true ->
  exists s0 s1 s2,
    GenericDictDB.__init__ db t_open = Opened s0
    /\ save t_save k v s0 = (Ok tt, s1)
    /\ GenericDictDB.__init__ (HasTable (close s1)) now = Opened s2
    /\ load k s2 = (Ok (if (t_save + 60 <? now)%Z then PyNone else v), s2).
Proof.
  intros Hn. unfold GenericDictDB.__init__.
  rewrite (init_writable db 60 t_open) by reflexivity.
  match goal with
  | |- context [mkConn ?t None] => generalize t
  end.
  intros t0.
  exists (mkStorage (mkConn t0 None) false false).
  exists (mkStorage
            (mkConn (view (insert_or_replace k (encode v) t_save
                             (mkConn t0 None))) None) false false).
  eexists.
  split; [reflexivity|]. split; [reflexivity|].
  split; [now apply init_writable|].
  rewrite load_spec. unfold select_where_key.
  cbn [conn view pending close committed].
  change (0 <? 60)%Z with true. cbv beta iota zeta.
  rewrite view_insert_or_replace, filter_app, find_app.
  rewrite find_filter_none by apply find_filter_out.
  cbn [filter updated]. rewrite (Z.leb_antisym (t_save + 60) now).
  destruct (t_save + 60 <? now)%Z; cbn [negb find]; [reflexivity|].
  unfold has_key. cbn [key value]. rewrite String.eqb_refl.
  cbn [value]. now rewrite decode_encode.
Qed.

Lemma saved_entry_expires_witness :
  exists s0 s1 s2,
    GenericDictDB.__init__ NoFile 100 = Opened s0
    /\ save 100 "a" (PyInt 1) s0 = (Ok tt, s1)
    /\ GenericDictDB.__init__ (HasTable (close s1)) 161 = Opened s2
    /\ load "a" s2
       = (Ok (if (100 + 60 <? 161)%Z then PyNone else PyInt 1), s2).
Proof.
  apply (saved_entry_expires NoFile 100 100 161 "a" (PyInt 1)). reflexivity.
Defined.

End GenericDictDBFacts.

(* ================================================================== *)
(** * More facts about [SqliteThreadWork] *)

Module SqliteThreadWorkExtra.
Import SqliteThreadWork SqliteThreadWorkFacts.

(** Every way a step can go, with the state it gives. *)
Ltac branch H :=
  repeat match type of H with
  | None = Some _ => discriminate H
  | Some _ = Some _ => injection H as <-
  | match ?x with _ => _ end = Some _ =>
      let E := fresh "E" in destruct x eqn:E
  end.

Ltac step_cases H :=
  unfold step, run, run_raises, client_step, execute, query_results,
    close, client_timeout, client_call in H;
  cbn [ex wpc execute_count clients early] in H;
  branch H.

Ltac fields :=
  unfold run_query, conn_execute, queue_put, queue_size, batch_open,
    full in *;
  cbn [ex wpc execute_count clients early exit_token max_queue_size queue
       results exit_set thread_running conn_log conn_durable conn_closed
       set_queue set_results set_exit_set set_thread_running conn_commit
       conn_close worker_to client_to exiting drained sealed stopped
       is_done counting in_hand] in *.

Lemma Batch_init (tok : string) (maxsize n : nat) :
  Batch (init tok maxsize n).
Proof.
  constructor; cbn; try discriminate; try contradiction.
  - intros i H. apply nth_error_In, repeat_spec in H. discriminate.
  - now left.
  - exists []. now split.
  - auto.
  - intros. unfold queue_size. cbn. lia.
Qed.

Lemma app_nonempty {A} (l : list A) (x : A) : (l ++ [x])%list <> [].
Proof. now destruct l. Qed.

Lemma not_full (mx : nat) {A} (q : list A) :
  (0 <? mx)%nat && (mx <=? List.length q)%nat = false ->
  (0 < mx)%nat -> (List.length q < mx)%nat.
Proof.
  intros H Hmx. apply andb_false_iff in H as [H|H].
  - apply Nat.ltb_ge in H. lia.
  - now apply Nat.leb_gt in H.
Qed.

Lemma Batch_step (l : label) (st st' : system) :
  Inv st -> Batch st -> step l st = Some st' -> Batch st'.
Proof.
  intros [Htok Hput Hflow Hexit Hdr Hseal Hcl Hrun Hret]
         [Bsen Bput Bidle (tail & Hlog & Hlen) Bcount Bqueue] H.
  destruct st as [[xtok mx q res es tr log dur cl] pc cnt cls ea].
  destruct l as [|i m|i tok|i|]; step_cases H.
  all: fields; subst; fields; try destruct m.
  all: repeat match goal with
       | |- context [is_select ?x] => destruct (is_select x) eqn:?
       end; fields.
  all: constructor; fields;
    [ try (let c' := fresh "c" in
           intros c' Hin Ht; try reflexivity;
           try (apply in_app_or in Hin as [Hin|[<-|[]]]);
           first [ now eauto using in_cons, in_eq
                 | exfalso; eapply Hput; now eauto
                 | eapply Bput; now eauto ])
    | try (intros j Hj; try reflexivity;
           try (apply nth_error_set_nth in Hj as [[-> Hj]|Hj]);
           try discriminate; now eauto)
    | try (first [ left; reflexivity | right; exact I | exact Bidle
                 | right; discriminate | right; left; discriminate
                 | destruct Bidle as [?|[?|?]];
                   [now left | now right | discriminate]
                 | right; right; eapply Bsen;
                   [left; reflexivity | now apply String.eqb_eq] ]);
      try (destruct pc; fields;
           first [ left; reflexivity
                 | right; exact I
                 | right; now apply app_nonempty
                 | right; left; now apply app_nonempty
                 | destruct Bidle as [Hd|Hd]; [now left | right];
                   first [ exact Hd | now destruct Hd
                         | destruct Hd as [Hd|Hd];
                           [left; intros Habs; apply Hd;
                            now apply app_eq_nil in Habs as [? _]
                           |now right] 
                         | intros Habs; apply Hd;
                            now apply app_eq_nil in Habs as [? _] ]
                 | tauto ])
    | try (first [ exists tail; split;
                     [reflexivity | intros; auto; discriminate]
                 | exists (tail ++ [c])%list; split;
                     [now rewrite List.app_assoc
                     | intros; rewrite length_app; cbn; rewrite Hlen; lia]
                 | exists []; split;
                     [now rewrite List.app_nil_r
                     | intros; reflexivity || discriminate] ])
    | try (intros Hmx; specialize (Bcount Hmx);
           repeat match goal with
                  | E : (_ =? _)%nat = false |- _ => apply Nat.eqb_neq in E
                  end;
           try (destruct pc; fields); lia)
    | try (intros Hmx; specialize (Bqueue Hmx);
           rewrite ?length_app; cbn [List.length] in *;
           repeat match goal with
                  | E : _ && _ = false |- _ =>
                      apply not_full in E; [|exact Hmx]
                  end;
           lia) ].
Qed.

Lemma Batch_steps (ls : list label) (st st' : system) :
  Inv st -> Batch st -> steps ls st = Some st' -> Batch st'.
Proof.
  revert st. induction ls as [|l ls IH]; intros st HI HB H.
  - now injection H as <-.
  - cbn [steps] in H. destruct (step l st) as [st1|] eqn:Hs; [|discriminate].
    apply (IH st1); [now apply (Inv_step l st) | | exact H].
    now apply (Batch_step l st).
Qed.

Lemma max_queue_size_step (l : label) (st st' : system) :
  step l st = Some st' -> max_queue_size (ex st') = max_queue_size (ex st).
Proof.
  intros H.
  destruct st as [[xtok mx q res es tr log dur cl] pc cnt cls ea].
  destruct l as [|i m|i tok|i|]; step_cases H; fields;
    repeat match goal with
           | |- context [if ?b then _ else _] => destruct b
           end; reflexivity.
Qed.

Lemma max_queue_size_steps (ls : list label) (st st' : system) :
  steps ls st = Some st' -> max_queue_size (ex st') = max_queue_size (ex st).
Proof.
  revert st. induction ls as [|l ls IH]; intros st H.
  - now injection H as <-.
  - cbn [steps] in H. destruct (step l st) as [st1|] eqn:Hs; [|discriminate].
    rewrite (IH st1 H). now apply (max_queue_size_step l).
Qed.

(** X16.  Whenever the worker is blocked in [self.queue.get] on an
    empty queue, or has returned from [run], every statement the
    connection has executed is covered by a commit: no batch is left
    open while the worker waits.  (A thread that an exception has ended
    is in neither place: its batch stays open.) *)
Theorem blocked_worker_has_committed (tok : string) (maxsize n : nat)
    (ls : list label) (st : system) :
  steps ls (init tok maxsize n) = Some st ->
  (wpc st = WGet /\ queue (ex st) = []) \/ wpc st = WDone ->
  conn_durable (ex st) = conn_log (ex st).
Proof.
  intros Hrun Hblocked.
  pose proof (Batch_steps ls _ st (Inv_init tok maxsize n)
                (Batch_init tok maxsize n) Hrun) as HB.
  destruct HB as [_ _ [Hd|Hopen] _ _ _]; [exact Hd|].
  unfold batch_open in Hopen.
  destruct Hblocked as [[Hpc Hq]|Hpc]; rewrite Hpc in Hopen;
    [now destruct Hopen | contradiction].
Qed.

Lemma blocked_worker_has_committed_witness :
  steps idle_schedule (init "exit" 2000 1) = Some idle_state
  /\ run idle_state = None
  /\ conn_log (ex idle_state) = [c1]
  /\ conn_durable (ex idle_state) = conn_log (ex idle_state).
Proof.
  assert (Hrun : steps idle_schedule (init "exit" 2000 1) = Some idle_state)
    by (vm_compute; reflexivity).
  split; [exact Hrun|]. split; [reflexivity|]. split; [reflexivity|].
  exact (blocked_worker_has_committed "exit" 2000 1 idle_schedule idle_state
           Hrun (or_introl (conj eq_refl eq_refl))).
Defined.

(** X17.  The commits cover a prefix of what the connection has
    executed, and with a positive [max_queue_size] never more than
    [max_queue_size] statements are executed and not yet committed. *)
Theorem uncommitted_is_bounded (tok : string) (maxsize n : nat)
    (ls : list label) (st : system) :
  steps ls (init tok maxsize n) = Some st ->
  exists tail,
    conn_log (ex st) = (conn_durable (ex st) ++ tail)%list
    /\ ((0 < maxsize)%nat -> (List.length tail <= maxsize)%nat).
Proof.
  intros Hrun.
  pose proof (Inv_steps ls _ st (Inv_init tok maxsize n) Hrun) as HI.
  pose proof (Batch_steps ls _ st (Inv_init tok maxsize n)
                (Batch_init tok maxsize n) Hrun) as HB.
  pose proof (max_queue_size_steps ls _ st Hrun) as Hmx. cbn in Hmx.
  destruct HB as [_ _ _ (tail & Hlog & Hlen) Hcount _].
  exists tail. split; [exact Hlog|]. intros Hpos.
  destruct (sealed (wpc st)) eqn:Hs.
  - pose proof (inv_sealed st HI Hs) as Hd. rewrite Hd in Hlog.
    assert (Ht : tail = []).
    { apply (app_inv_head (conn_log (ex st))).
      now rewrite List.app_nil_r. }
    subst tail. cbn. lia.
  - rewrite (Hlen eq_refl). rewrite Hmx in Hcount.
    specialize (Hcount Hpos). destruct (counting (wpc st)); lia.
Qed.

Lemma uncommitted_is_bounded_witness :
  exists tail,
    conn_log (ex orderly_final)
    = (conn_durable (ex orderly_final) ++ tail)%list
    /\ ((0 < 2000)%nat -> (List.length tail <= 2000)%nat).
Proof.
  apply (uncommitted_is_bounded "exit" 2000 1 orderly_schedule).
  vm_compute. reflexivity.
Defined.

(** X18.  With a positive [max_queue_size], [queue_size] never exceeds
    it: a SELECT that finds the queue full raises [queue.Full], another
    statement and the sentinel of [close] wait for room. *)
Theorem queue_size_is_bounded (tok : string) (maxsize n : nat)
    (ls : list label) (st : system) :
  steps ls (init tok maxsize n) = Some st ->
  (0 < maxsize)%nat ->
  (queue_size (ex st) <= maxsize)%nat.
Proof.
  intros Hrun Hpos.
  pose proof (Batch_steps ls _ st (Inv_init tok maxsize n)
                (Batch_init tok maxsize n) Hrun) as HB.
  pose proof (max_queue_size_steps ls _ st Hrun) as Hmx. cbn in Hmx.
  rewrite <- Hmx. apply (batch_queue st HB). now rewrite Hmx.
Qed.

Lemma queue_size_is_bounded_witness :
  (queue_size (ex stranded) <= 2000)%nat.
Proof.
  apply (queue_size_is_bounded "exit" 2000 2 select_race_schedule);
    [vm_compute; reflexivity | lia].
Defined.

(** ** The order of execution *)

Lemma filter_statements_put (xtok : string) (q : list command)
    (c : command) :
  token c <> xtok ->
  filter (fun c => negb (token c =? xtok)%string) (q ++ [c])%list
  = (filter (fun c => negb (token c =? xtok)%string) q ++ [c])%list.
Proof.
  intros H. rewrite filter_app. cbn.
  now rewrite (proj2 (String.eqb_neq _ _) H).
Qed.

Lemma filter_statements_sentinel (xtok q' : string) (v : pyvalue)
    (q : list command) :
  filter (fun c => negb (token c =? xtok)%string)
    (q ++ [mkCommand xtok q' v])%list
  = filter (fun c => negb (token c =? xtok)%string) q.
Proof.
  rewrite filter_app. cbn. now rewrite String.eqb_refl, List.app_nil_r.
Qed.

(** A step executes the statement in the worker's hand, or puts one at
    the end of the queue, or leaves the statements as they are. *)
Lemma waiting_step (l : label) (st st' : system) :
  Inv st -> step l st = Some st' ->
  exists done more,
    conn_log (ex st') = (conn_log (ex st) ++ done)%list
    /\ (waiting st ++ more)%list = (done ++ waiting st')%list.
Proof.
  intros [Htok Hput Hflow Hexit Hdr Hseal Hcl Hrun Hret] H.
  destruct st as [[xtok mx q res es tr log dur cl] pc cnt cls ea].
  destruct l as [|i m|i tok|i|]; step_cases H.
  all: unfold waiting; fields; subst; fields.
  all: try (exists [], []; cbn [filter app];
            rewrite ?E1, ?List.app_nil_r; cbn [negb];
            split; reflexivity).
  - (* run_query *)
    exists [c], []. split.
    + now destruct (is_select (query c)).
    + destruct (is_select (query c)); fields;
        now rewrite List.app_nil_r.
  - (* execute: put *)
    match goal with
    | E : nth_error cls i = Some (EPut ?c) |- _ =>
        exists [], [c]; split; [now rewrite List.app_nil_r|];
        rewrite (filter_statements_put xtok q c (Hput i c E))
    end.
    now rewrite List.app_nil_l, <- List.app_assoc.
  - (* close: put *)
    exists [], []. split; [now rewrite List.app_nil_r|].
    now rewrite filter_statements_sentinel, List.app_nil_r.
Qed.

(** X19.  Statements reach the connection in the order they were put in
    the queue, each once and none left out: between two states of a
    run, what was waiting in the first followed by what was put since
    is what was executed since followed by what is waiting in the
    second. *)
Theorem statements_run_in_queue_order (tok : string) (maxsize n : nat)
    (ls ls' : list label) (st st' : system) :
  steps ls (init tok maxsize n) = Some st ->
  steps ls' st = Some st' ->
  exists done more,
    conn_log (ex st') = (conn_log (ex st) ++ done)%list
    /\ (waiting st ++ more)%list = (done ++ waiting st')%list.
Proof.
  intros Hrun.
  pose proof (Inv_steps ls _ st (Inv_init tok maxsize n) Hrun) as HI.
  clear Hrun. revert st HI.
  induction ls' as [|l ls' IH]; intros st HI H.
  - injection H as <-. exists [], [].
    now rewrite !List.app_nil_r.
  - cbn [steps] in H. destruct (step l st) as [st1|] eqn:Hs; [|discriminate].
    destruct (waiting_step l st st1 HI Hs) as (d1 & m1 & Hl1 & Hw1).
    destruct (IH st1 (Inv_step l st st1 HI Hs) H) as (d2 & m2 & Hl2 & Hw2).
    exists (d1 ++ d2)%list, (m1 ++ m2)%list. split.
    + now rewrite Hl2, Hl1, List.app_assoc.
    + now rewrite List.app_assoc, Hw1, <- !List.app_assoc, Hw2.
Qed.

Lemma statements_run_in_queue_order_witness :
  exists done more,
    conn_log (ex select_returned)
    = (conn_log (ex select_in_hand) ++ done)%list
    /\ (waiting select_in_hand ++ more)%list
       = (done ++ waiting select_returned)%list.
Proof.
  apply (statements_run_in_queue_order "exit" 2000 1
           (firstn 4 select_schedule) (skipn 4 select_schedule));
    vm_compute; reflexivity.
Defined.

(** ** The results of a SELECT *)

Lemma take_result_In (t : string) (r : list (string * payload)) :
  forall p r',
    take_result t r = Some (p, r') ->
    In (t, p) r /\ forall x, In x r' -> In x r.
Proof.
  induction r as [|[t' p'] r IH]; intros p r' H; [discriminate|].
  cbn [take_result] in H.
  destruct (String.eqb_spec t' t) as [->|Hne].
  - injection H as <- <-. split; [now left | intros x Hx; now right].
  - destruct (take_result t r) as [[p1 r1]|]; [|discriminate].
    injection H as <- <-. destruct (IH p1 r1 eq_refl) as [Hin Hsub].
    split; [now right|]. intros x [<-|Hx]; [now left | right; now apply Hsub].
Qed.

Lemma fetched_ok_log (e e' : executor) (p : payload) (more : list command) :
  conn_log e' = (conn_log e ++ more)%list ->
  fetched_ok e p -> fetched_ok e' p.
Proof.
  intros Hl. destruct p as [h c]. cbn. intros [Hs (rest & Hr)].
  split; [exact Hs|]. exists (rest ++ more)%list.
  now rewrite Hl, Hr, <- List.app_assoc.
Qed.

Lemma Registry_init (tok : string) (maxsize n : nat) :
  Registry (init tok maxsize n).
Proof.
  constructor; cbn; [contradiction|].
  intros i p H. apply nth_error_In, repeat_spec in H. discriminate.
Qed.

Lemma Registry_step (l : label) (st st' : system) :
  Inv st -> Registry st -> step l st = Some st' -> Registry st'.
Proof.
  intros [Htok Hput Hflow Hexit Hdr Hseal Hcl Hrun Hret] [Rres Rret] H.
  destruct st as [[xtok mx q res es tr log dur cl] pc cnt cls ea].
  destruct l as [|i m|i tok|i|]; step_cases H.
  all: fields; subst; fields; try destruct m.
  all: repeat match goal with
       | |- context [is_select ?x] => destruct (is_select x) eqn:?
       end; fields.
  all: try (apply take_result_In in E1 as [Hin Hsub]).
  all: constructor; fields;
    [ try (intros t' p' Hp';
           first [ now apply Rres
                 | destruct (Rres t' p' (Hsub _ Hp')) as [Hok Ht];
                   split; [exact Hok | exact Ht]
                 | destruct (Rres t' p' Hp') as [Hok Ht];
                   split; [|exact Ht];
                   eapply fetched_ok_log; [|exact Hok];
                   cbn; reflexivity ])
    | try (intros j p' Hj;
           try (apply nth_error_set_nth in Hj as [[-> Hj]|Hj]);
           try discriminate;
           first [ now eauto
                 | injection Hj as <-; now apply (Rres _ _ Hin)
                 | eapply fetched_ok_log; [|now eauto];
                   cbn; reflexivity ]) ].
  intros t p [Hp|Hp].
  - injection Hp as <- <-. split; [|reflexivity]. cbn.
    split; [assumption | now exists []].
  - apply filter_In in Hp as [Hp _]. destruct (Rres t p Hp) as [Hok Ht].
    split; [|exact Ht].
    eapply fetched_ok_log; [|exact Hok]. cbn. reflexivity.
Qed.

Lemma Registry_steps (ls : list label) (st st' : system) :
  Inv st -> Registry st -> steps ls st = Some st' -> Registry st'.
Proof.
  revert st. induction ls as [|l ls IH]; intros st HI HR H.
  - now injection H as <-.
  - cbn [steps] in H. destruct (step l st) as [st1|] eqn:Hs; [|discriminate].
    apply (IH st1); [now apply (Inv_step l st) | | exact H].
    now apply (Registry_step l st).
Qed.

(** X20.  What [execute] returns for a SELECT is the result of a SELECT
    that the connection has executed, as it stood when the connection
    had executed the statements before it and none after it: never the
    result of another kind of statement, never one made up. *)
Theorem returned_rows_are_of_an_executed_select (tok : string)
    (maxsize n : nat) (ls : list label) (st : system) (i : nat)
    (h : list command) (c : command) :
  steps ls (init tok maxsize n) = Some st ->
  nth_error (clients st) i = Some (CReturned (RetRows (Fetched h c))) ->
  is_select (query c) = true
  /\ exists rest, conn_log (ex st) = (h ++ c :: rest)%list.
Proof.
  intros Hrun Hi.
  pose proof (Registry_steps ls _ st (Inv_init tok maxsize n)
                (Registry_init tok maxsize n) Hrun) as HR.
  exact (reg_returned st HR i _ Hi).
Qed.

Lemma returned_rows_are_of_an_executed_select_witness :
  is_select "  Select * FROM t" = true
  /\ exists rest,
       conn_log (ex select_returned)
       = ([] ++ mkCommand "t1" "  Select * FROM t" (PyList []) :: rest)%list.
Proof.
  apply (returned_rows_are_of_an_executed_select "exit" 2000 1
           select_schedule select_returned 0 []
           (mkCommand "t1" "  Select * FROM t" (PyList [])));
    vm_compute; reflexivity.
Defined.

Lemma take_result_results_set (t : string) (p : payload)
    (r : list (string * payload)) :
  take_result t (results_set t p r)
  = Some (p, filter (fun x => negb (fst x =? t)%string) r).
Proof. unfold results_set. cbn. now rewrite String.eqb_refl. Qed.

Lemma take_result_filter_out (t : string) (r : list (string * payload)) :
  take_result t (filter (fun x => negb (fst x =? t)%string) r) = None.
Proof.
  induction r as [|[t' p'] r IH]; [reflexivity|]. cbn.
  destruct (String.eqb_spec t' t) as [->|Hne]; cbn; [exact IH|].
  rewrite (proj2 (String.eqb_neq _ _) Hne). now rewrite IH.
Qed.

(** X21.  When [run_query] returns from the SELECT of a call that
    polls for its token (the statement has raised nothing, or an
    [sqlite3.Error], which [run_query] catches), the next turn of
    [query_results] returns: the call gets the result of that statement,
    computed on what the connection had executed before it, and the
    entry is gone from [results]. *)
Theorem select_result_reaches_its_caller (i : nat) (tok : string)
    (c : command) (st st1 : system) :
  wpc st = WRun c ->
  is_select (query c) = true ->
  nth_error (clients st) i = Some (EPoll (token c)) ->
  step LWorker st = Some st1 ->
  exists st2,
    step (LStep i tok) st1 = Some st2
    /\ nth_error (clients st2) i
       = Some (CReturned (RetRows (Fetched (conn_log (ex st)) c)))
    /\ take_result (token c) (results (ex st2)) = None.
Proof.
  intros Hpc Hsel Hi Hw.
  destruct st as [[xtok mx q res es tr log dur cl] pc cnt cls ea].
  cbn in Hpc, Hi. subst pc. cbn [step] in Hw. unfold run in Hw.
  cbn [wpc] in Hw. injection Hw as <-.
  eexists.
  cbn [step]. unfold client_step, query_results, run_query.
  cbn [ex wpc execute_count clients early]. rewrite Hi, Hsel.
  assert (Hres : forall e r, results (set_results r e) = r) by reflexivity.
  rewrite Hres, take_result_results_set.
  split; [reflexivity|]. cbn [clients client_to ex results set_results].
  split; [now apply (nth_error_set_nth_same i _ (EPoll (token c)))|].
  apply take_result_filter_out.
Qed.

Lemma select_result_reaches_its_caller_witness :
  exists st1 st2,
    step LWorker select_in_hand = Some st1
    /\ step (LStep 0 "") st1 = Some st2
    /\ nth_error (clients st2) 0
       = Some (CReturned
                 (RetRows (Fetched (conn_log (ex select_in_hand))
                             (mkCommand "t1" "  Select * FROM t"
                                (PyList [])))))
    /\ take_result "t1" (results (ex st2)) = None.
Proof.
  eexists.
  destruct (select_result_reaches_its_caller 0 ""
              (mkCommand "t1" "  Select * FROM t" (PyList []))
              select_in_hand _ eq_refl eq_refl eq_refl eq_refl)
    as (st2 & H2 & Hc & Hr).
  exists st2. split; [reflexivity|]. split; [exact H2|].
  split; [exact Hc | exact Hr].
Defined.

(** ** A SELECT that races with [close] *)

Lemma nth_error_set_nth_other {A} (i j : nat) (x : A) (l : list A) :
  i <> j -> nth_error (set_nth j x l) i = nth_error l i.
Proof.
  revert i j. induction l as [|y l IH]; intros [|i] [|j] H; cbn;
    try reflexivity; try congruence.
  apply IH. congruence.
Qed.

Lemma take_result_rest (t t' : string) (r : list (string * payload)) :
  forall p r',
    take_result t' r = Some (p, r') ->
    take_result t r = None -> take_result t r' = None.
Proof.
  induction r as [|[t0 p0] r IH]; intros p r' H Hn; [discriminate|].
  cbn [take_result] in *.
  destruct (t0 =? t)%string eqn:Ht; [discriminate|].
  destruct (take_result t r) as [[p1 r1]|] eqn:Hr; [discriminate|].
  destruct (t0 =? t')%string.
  - injection H as <- <-. exact Hr.
  - destruct (take_result t' r) as [[p2 r2]|]; [|discriminate].
    injection H as <- <-. cbn [take_result]. rewrite Ht.
    now rewrite (IH p2 r2 eq_refl eq_refl).
Qed.

Lemma stranded_step (l : label) (st st' : system) (i : nat) (t : string) :
  wpc st = WDone ->
  nth_error (clients st) i = Some (EPoll t) ->
  take_result t (results (ex st)) = None ->
  step l st = Some st' ->
  wpc st' = WDone
  /\ nth_error (clients st') i = Some (EPoll t)
  /\ take_result t (results (ex st')) = None.
Proof.
  intros Hpc Hi Hres H.
  destruct st as [[xtok mx q res es tr log dur cl] pc cnt cls ea].
  cbn in Hpc, Hi, Hres. subst pc.
  destruct l as [|j m|j tok|j|]; step_cases H.
  all: fields.
  all: try (split; [reflexivity|]; split; [exact Hi | exact Hres]).
  all: destruct (Nat.eq_dec i j) as [->|Hne]; [congruence|].
  all: split; [reflexivity|].
  all: rewrite (nth_error_set_nth_other i j) by exact Hne.
  all: split; [exact Hi|]; try exact Hres.
  match goal with
  | E : take_result ?t' res = Some (?p, ?r') |- _ =>
      exact (take_result_rest t t' res p r' E Hres)
  end.
Qed.

(** X22.  A call of [execute] with a SELECT whose command is not
    executed before the worker returns from [run] never returns: the
    worker is the only one to store results, so [query_results] finds
    none in any turn of its loop, whatever the other threads do. *)
Theorem select_after_exit_polls_forever (ls : list label) (st st' : system)
    (i : nat) (t : string) :
  wpc st = WDone ->
  nth_error (clients st) i = Some (EPoll t) ->
  take_result t (results (ex st)) = None ->
  steps ls st = Some st' ->
  nth_error (clients st') i = Some (EPoll t)
  /\ take_result t (results (ex st')) = None.
Proof.
  revert st. induction ls as [|l ls IH]; intros st Hpc Hi Hres H.
  - injection H as <-. now split.
  - cbn [steps] in H. destruct (step l st) as [st1|] eqn:Hs; [|discriminate].
    destruct (stranded_step l st st1 i t Hpc Hi Hres Hs) as (H1 & H2 & H3).
    now apply (IH st1).
Qed.

Lemma select_after_exit_polls_forever_witness :
  steps select_race_schedule (init "exit" 2000 2) = Some stranded
  /\ nth_error (clients stranded) 0 = Some (CReturned RetClosed)
  /\ exists st',
       steps [LStep 1 ""; LCall 0 (MExecute "SELECT 1" PyNone);
              LStep 0 "t3"; LStep 1 ""] stranded = Some st'
       /\ nth_error (clients st') 1 = Some (EPoll "t2")
       /\ take_result "t2" (results (ex st')) = None.
Proof.
  split; [vm_compute; reflexivity|]. split; [reflexivity|].
  eexists. split; [vm_compute; reflexivity|].
  apply (select_after_exit_polls_forever
           [LStep 1 ""; LCall 0 (MExecute "SELECT 1" PyNone); LStep 0 "t3";
            LStep 1 ""]
           stranded _ 1 "t2"); reflexivity.
Defined.


(** ** The worker after [close] has put the sentinel *)

Lemma steps_app (l1 l2 : list label) (st : system) :
  steps (l1 ++ l2)%list st
  = match steps l1 st with
    | Some st1 => steps l2 st1
    | None => None
    end.
Proof.
  revert st. induction l1 as [|l l1 IH]; intros st; [reflexivity|].
  cbn [List.app steps]. destruct (step l st); [apply IH | reflexivity].
Qed.

Lemma worker_runs_add (n m : nat) (st st1 st2 : system) :
  steps (repeat LWorker n) st = Some st1 ->
  steps (repeat LWorker m) st1 = Some st2 ->
  steps (repeat LWorker (n + m)) st = Some st2.
Proof.
  intros H1 H2. now rewrite repeat_app, steps_app, H1.
Qed.

(** The worker takes a statement through one turn of the loop, in five
    steps or, with a commit, six. *)
Lemma worker_runs_statement (xtok : string) (mx : nat) (c : command)
    (q : list command) (res : list (string * payload)) (tr : bool)
    (log dur : list command) (cnt : nat) (cls : list client_pc)
    (ea : list command) :
  token c <> xtok ->
  q <> [] ->
  exists n res' dur' cnt',
    (n <= 6)%nat
    /\ steps (repeat LWorker n)
         (mkSystem (mkExecutor xtok mx (c :: q) res true tr log dur false)
            WGet cnt cls ea)
       = Some (mkSystem
                 (mkExecutor xtok mx q res' true tr (log ++ [c])%list dur'
                    false)
                 WGet cnt' cls ea).
Proof.
  intros Htok Hq. apply String.eqb_neq in Htok.
  destruct q as [|c' q]; [now destruct Hq|].
  destruct (is_select (query c)) eqn:Hs;
    (destruct (S cnt =? mx)%nat eqn:Hc;
     [exists 6%nat | exists 5%nat]; do 3 eexists; (split; [lia|]);
     repeat (progress (cbn -[Nat.eqb];
                       unfold run, run_query, conn_execute;
                       cbn -[Nat.eqb]; rewrite ?Htok, ?Hs, ?Hc));
     reflexivity).
Qed.

Lemma worker_runs_sentinel (xtok : string) (mx : nat)
    (res : list (string * payload)) (tr : bool) (log dur : list command)
    (cnt : nat) (cls : list client_pc) (ea : list command) :
  steps (repeat LWorker 6)
    (mkSystem
       (mkExecutor xtok mx [mkCommand xtok "" (PyStr "")] res true tr log
          dur false)
       WGet cnt cls ea)
  = Some (mkSystem (mkExecutor xtok mx [] res true false log log true)
            WDone cnt cls ea).
Proof.
  cbn [repeat steps step]. unfold run at 1. cbn.
  now rewrite String.eqb_refl.
Qed.

(** X23.  The loop of [close] ends when no queued statement lets an
    exception through.  Once [close] has set [exit_set] and put the
    sentinel behind the queued statements, the worker, from
    [self.queue.get] and with [run_query] returning from each statement
    (every step is a step of [run], none of [run_raises]), needs no more
    than six steps for each statement and six for the sentinel to execute
    every statement in the order of the queue, commit, close the
    connection and clear [thread_running]. *)
Theorem worker_drains_and_stops (xtok : string) (mx : nat)
    (cmds : list command) (cls : list client_pc) (ea : list command) :
  Forall (fun c => token c <> xtok) cmds ->
  forall (res : list (string * payload)) (tr : bool)
         (log dur : list command) (cnt : nat),
  exists n res' cnt',
    (n <= 6 * List.length cmds + 6)%nat
    /\ steps (repeat LWorker n)
         (mkSystem
            (mkExecutor xtok mx
               (cmds ++ [mkCommand xtok "" (PyStr "")])%list res true tr
               log dur false)
            WGet cnt cls ea)
       = Some (mkSystem
                 (mkExecutor xtok mx [] res' true false (log ++ cmds)%list
                    (log ++ cmds)%list true)
                 WDone cnt' cls ea).
Proof.
  induction 1 as [|c cmds Hc _ IH]; intros res tr log dur cnt.
  - exists 6%nat, res, cnt. split; [cbn; lia|].
    rewrite List.app_nil_r. apply worker_runs_sentinel.
  - destruct (worker_runs_statement xtok mx c
                (cmds ++ [mkCommand xtok "" (PyStr "")])%list
                res tr log dur cnt cls ea Hc (app_nonempty _ _))
      as (n1 & res1 & dur1 & cnt1 & Hn1 & H1).
    destruct (IH res1 tr (log ++ [c])%list dur1 cnt1)
      as (n2 & res2 & cnt2 & Hn2 & H2).
    exists (n1 + n2)%nat, res2, cnt2. split; [cbn [List.length]; lia|].
    rewrite <- List.app_assoc in H2.
    exact (worker_runs_add n1 n2 _ _ _ H1 H2).
Qed.

Lemma worker_drains_and_stops_witness :
  exists n res' cnt',
    (n <= 6 * 2 + 6)%nat
    /\ steps (repeat LWorker n)
         (mkSystem
            (mkExecutor "exit" 2000
               [c1; c2; mkCommand "exit" "" (PyStr "")] [] true true [] []
               false)
            WGet 0 [CWait] [c1; c2])
       = Some (mkSystem
                 (mkExecutor "exit" 2000 [] res' true false [c1; c2]
                    [c1; c2] true)
                 WDone cnt' [CWait] [c1; c2]).
Proof.
  apply (worker_drains_and_stops "exit" 2000 [c1; c2] [CWait] [c1; c2]).
  repeat constructor; discriminate.
Defined.


(** ** A statement that lets an exception through *)




End SqliteThreadWorkExtra.
